(** * Context-preservation core: compaction safeguard and hybrid memory search

    A shallow embedding of the TypeScript sources
      - [hybrid.ts]               (merge of vector and keyword results, dynamic threshold),
      - [manager-search.ts]       (recency penalty, vector search),
      - [compaction-safeguard.ts] (summary quality guard, preserved tail, the
                                   [session_before_compact] handler),
    followed by the properties the specification states about them.

    Conventions of the embedding.
      - A JavaScript [number] that carries a score, a weight or a timestamp is
        an exact rational ([Q]), and numeric equality is [==] on [Q]; a value
        that may be absent or of another type is an [option], and the result
        of [cosineSimilarity], which [Number.isFinite] filters, is a
        [JsNumber].
      - A JavaScript string is a [string] of one-byte code units, and
        [toLowerCase] changes the letters A to Z.
      - An array is a [list]; a [Map] or a [Set], whose iteration order is the
        insertion order, is a list without repeated keys.
      - A call that may throw returns a [result]. *)

From Stdlib Require Import QArith Qminmax Qround Lqa.
From Stdlib Require Import List Bool Arith Lia ZArith.
From Stdlib Require Import String Ascii DecimalString.
From Stdlib Require Import Sorted Permutation.
Import ListNotations.

(* ================================================================= *)
(** * Part I: the embedding *)
(* ================================================================= *)

(** ** Arrays *)

(** [Array.prototype.sort(cmp)]: the sort is stable, and [cmp a b > 0] puts
    [a] after [b].  [sortInsert cmp x l] places [x], which stood before every
    element of [l], into the sorted [l]. *)
Fixpoint sortInsert {T : Type} (cmp : T -> T -> Q) (x : T) (l : list T) : list T :=
  match l with
  | [] => [x]
  | y :: l' =>
      if Qle_bool (cmp x y) 0 then x :: l else y :: sortInsert cmp x l'
  end.

Fixpoint Array_sort {T : Type} (cmp : T -> T -> Q) (l : list T) : list T :=
  match l with
  | [] => []
  | x :: l' => sortInsert cmp x (Array_sort cmp l')
  end.

(** [Array.prototype.slice(0, n)] for an integer [n]. *)
Definition slice0 {T : Type} (n : Z) (l : list T) : list T :=
  firstn (Z.to_nat n) l.

(** [a.filter((x, idx) => p idx x)], indices counted from [i]. *)
Fixpoint filteri_from {T : Type} (p : nat -> T -> bool) (i : nat) (l : list T) : list T :=
  match l with
  | [] => []
  | x :: l' =>
      if p i x then x :: filteri_from p (S i) l' else filteri_from p (S i) l'
  end.

Definition filteri {T : Type} (p : nat -> T -> bool) (l : list T) : list T :=
  filteri_from p 0 l.

(** A list is in descending order of [score]. *)
Definition sortedDesc {T : Type} (score : T -> Q) (l : list T) : Prop :=
  Sorted (fun a b => score b <= score a) l.

(* ----------------------------------------------------------------- *)
(** ** hybrid.ts: dynamic threshold *)

Definition calculateDynamicThreshold (topScore : Q) : Q :=
  if Qle_bool 0.7 topScore then topScore * 0.5
  else if Qle_bool 0.3 topScore then topScore * 0.6
  else 0.15.

(** [applyDynamicThreshold<T extends { score: number }>]: [score] reads the
    field of the record type [T]. *)
Definition applyDynamicThreshold {T : Type} (score : T -> Q)
    (results : list T) (dynamicThreshold : bool) : list T :=
  if negb dynamicThreshold || (List.length results =? 0)%nat then results
  else
    match results with
    | [] => results
    | r0 :: _ =>
        let topScore := score r0 in
        let threshold := calculateDynamicThreshold topScore in
        filter (fun r => Qle_bool threshold (score r)) results
    end.

(** A record with a score, for concrete instances of the generic filter. *)
Record Scored := { scored_tag : nat; scored_score : Q }.

(* ----------------------------------------------------------------- *)
(** ** manager-search.ts: recency penalty *)

Definition msPerDay : Q := 24 * 60 * 60 * 1000.

(** [updatedAt : number | null | undefined]: [None] is [null] or [undefined].
    A quotient by [windowDays] = 0, a window that the configuration excludes,
    is 0 in [Q]. *)
Definition calculateRecencyPenalty (updatedAt : option Q)
    (now lambda windowDays : Q) : Q :=
  match updatedAt with
  | None => 0
  | Some u =>
      if negb (Qle_bool u now) then 0
      else
        let daysSince := (now - u) / msPerDay in
        let ratio := Qmin 1 (daysSince / windowDays) in
        lambda * ratio
  end.

(* ----------------------------------------------------------------- *)
(** ** Map and Set: insertion-ordered, keyed by strings *)

(** [Map.prototype.set]: an existing key keeps its place and takes the new
    value, a new key goes to the end. *)
Fixpoint Map_set {V : Type} (k : string) (v : V) (m : list (string * V))
  : list (string * V) :=
  match m with
  | [] => [(k, v)]
  | (k', v') :: m' =>
      if String.eqb k' k then (k', v) :: m' else (k', v') :: Map_set k v m'
  end.

Fixpoint Map_get {V : Type} (k : string) (m : list (string * V)) : option V :=
  match m with
  | [] => None
  | (k', v') :: m' => if String.eqb k' k then Some v' else Map_get k m'
  end.

Definition Map_keys {V : Type} (m : list (string * V)) : list string := map fst m.
Definition Map_values {V : Type} (m : list (string * V)) : list V := map snd m.

Definition Set_has (x : string) (s : list string) : bool :=
  existsb (String.eqb x) s.

Definition Set_add (x : string) (s : list string) : list string :=
  if Set_has x s then s else s ++ [x].

(** [new Set(xs)], read back in insertion order by [Array.from]. *)
Definition Set_from (xs : list string) : list string :=
  fold_left (fun s x => Set_add x s) xs [].

(* ----------------------------------------------------------------- *)
(** ** hybrid.ts: merge of vector and keyword results *)

Definition HybridSource := string.

Record HybridVectorResult := {
  v_id : string;
  v_path : string;
  v_startLine : Z;
  v_endLine : Z;
  v_source : HybridSource;
  v_snippet : string;
  vectorScore : Q
}.

Record HybridKeywordResult := {
  k_id : string;
  k_path : string;
  k_startLine : Z;
  k_endLine : Z;
  k_source : HybridSource;
  k_snippet : string;
  textScore : Q
}.

(** The value type of [byId]. *)
Record MergeEntry := {
  e_id : string;
  e_path : string;
  e_startLine : Z;
  e_endLine : Z;
  e_source : HybridSource;
  e_snippet : string;
  e_vectorScore : Q;
  e_textScore : Q
}.

(** The element type of the returned array. *)
Record HybridResult := {
  path : string;
  startLine : Z;
  endLine : Z;
  score : Q;
  snippet : string;
  source : HybridSource
}.

Record MergeParams := {
  vector : list HybridVectorResult;
  keyword : list HybridKeywordResult;
  vectorWeight : Q;
  textWeight : Q;
  dynamicThreshold : option bool
}.

(** Body of the first loop: [byId.set(r.id, {..., textScore: 0})]. *)
Definition mergeVectorStep (byId : list (string * MergeEntry)) (r : HybridVectorResult)
  : list (string * MergeEntry) :=
  Map_set (v_id r)
    {| e_id := v_id r; e_path := v_path r; e_startLine := v_startLine r;
       e_endLine := v_endLine r; e_source := v_source r; e_snippet := v_snippet r;
       e_vectorScore := vectorScore r; e_textScore := 0 |} byId.

(** Body of the second loop.  The entry found by [byId.get] is the object held
    by the map, so assigning its fields changes the map's value in place. *)
Definition mergeKeywordStep (byId : list (string * MergeEntry)) (r : HybridKeywordResult)
  : list (string * MergeEntry) :=
  match Map_get (k_id r) byId with
  | Some existing =>
      let snippet' :=
        if (0 <? String.length (k_snippet r))%nat then k_snippet r
        else e_snippet existing in
      Map_set (k_id r)
        {| e_id := e_id existing; e_path := e_path existing;
           e_startLine := e_startLine existing; e_endLine := e_endLine existing;
           e_source := e_source existing; e_snippet := snippet';
           e_vectorScore := e_vectorScore existing; e_textScore := textScore r |} byId
  | None =>
      Map_set (k_id r)
        {| e_id := k_id r; e_path := k_path r; e_startLine := k_startLine r;
           e_endLine := k_endLine r; e_source := k_source r; e_snippet := k_snippet r;
           e_vectorScore := 0; e_textScore := textScore r |} byId
  end.

(** [byId] after both loops. *)
Definition mergeById (vector : list HybridVectorResult)
    (keyword : list HybridKeywordResult) : list (string * MergeEntry) :=
  fold_left mergeKeywordStep keyword (fold_left mergeVectorStep vector []).

Definition mergedResult (vectorWeight textWeight : Q) (entry : MergeEntry) : HybridResult :=
  let score := vectorWeight * e_vectorScore entry + textWeight * e_textScore entry in
  {| path := e_path entry; startLine := e_startLine entry; endLine := e_endLine entry;
     score := score; snippet := e_snippet entry; source := e_source entry |}.

Definition mergeHybridResults (params : MergeParams) : list HybridResult :=
  let byId := mergeById (vector params) (keyword params) in
  let merged :=
    map (mergedResult (vectorWeight params) (textWeight params)) (Map_values byId) in
  let sorted := Array_sort (fun a b => score b - score a) merged in
  applyDynamicThreshold score sorted
    (match dynamicThreshold params with Some b => b | None => false end).

(** *** Reference notions for the merge *)

(** The elements of a list, each at its first occurrence. *)
Fixpoint firstOccurrences (l : list string) : list string :=
  match l with
  | [] => []
  | x :: l' => x :: filter (fun y => negb (String.eqb x y)) (firstOccurrences l')
  end.

(** The vector score recorded for [id]: that of the last vector result with
    this id, and 0 when there is none. *)
Definition vectorScoreOf (id : string) (vector : list HybridVectorResult) : Q :=
  fold_left (fun acc r => if String.eqb (v_id r) id then vectorScore r else acc) vector 0.

Definition textScoreOf (id : string) (keyword : list HybridKeywordResult) : Q :=
  fold_left (fun acc r => if String.eqb (k_id r) id then textScore r else acc) keyword 0.

(** The constructors used by the test suite of the merge. *)
Definition makeVectorResult (id : string) (vectorScore : Q) : HybridVectorResult :=
  {| v_id := id; v_path := ("/path/" ++ id)%string; v_startLine := 1; v_endLine := 10;
     v_source := "vector"%string; v_snippet := ("vector snippet " ++ id)%string;
     vectorScore := vectorScore |}.

Definition makeKeywordResult (id : string) (textScore : Q) : HybridKeywordResult :=
  {| k_id := id; k_path := ("/path/" ++ id)%string; k_startLine := 1; k_endLine := 10;
     k_source := "keyword"%string; k_snippet := ("keyword snippet " ++ id)%string;
     textScore := textScore |}.

(* ----------------------------------------------------------------- *)
(** ** manager-search.ts: vector search *)

Definition SearchSource := string.

Record SearchRowResult := {
  r_id : string;
  r_path : string;
  r_startLine : Z;
  r_endLine : Z;
  r_score : Q;
  r_snippet : string;
  r_source : SearchSource
}.

Record RecencyConfig := {
  enabled : bool;
  lambda : Q;
  windowDays : Q
}.

(** A row of the query against the vector table. *)
Record VectorRow := {
  row_id : string;
  row_path : string;
  row_start_line : Z;
  row_end_line : Z;
  row_text : string;
  row_source : SearchSource;
  row_dist : Q;
  row_updated_at : option Q
}.

(** A row of the [chunks] table as [listChunks] reads it. *)
Record ChunkRow := {
  crow_id : string;
  crow_path : string;
  crow_start_line : Z;
  crow_end_line : Z;
  crow_text : string;
  crow_embedding : string;
  crow_source : SearchSource;
  crow_updated_at : option Q
}.

Record Chunk := {
  c_id : string;
  c_path : string;
  c_startLine : Z;
  c_endLine : Z;
  c_text : string;
  c_embedding : list Q;
  c_source : SearchSource;
  c_updatedAt : option Q
}.

(** A number that need not be finite: the result of [cosineSimilarity]. *)
Inductive JsNumber :=
| Finite (q : Q)
| NotANumber
| PlusInfinity
| MinusInfinity.

(** What the search reads from outside: the clock, the store (the rows its two
    queries return for the parameters of the call) and the imported helpers. *)
Record SearchEnv := {
  Date_now : Q;
  ensureVectorReady : nat -> bool;
  queryVectorTable : list Q -> Z -> list VectorRow;
  queryChunks : list ChunkRow;
  parseEmbedding : string -> list Q;
  cosineSimilarity : list Q -> list Q -> JsNumber;
  truncateUtf16Safe : string -> Z -> string
}.

Record SearchVectorParams := {
  queryVec : list Q;
  limit : Z;
  snippetMaxChars : Z;
  recency : option RecencyConfig
}.

Definition listChunks (env : SearchEnv) : list Chunk :=
  map (fun row =>
         {| c_id := crow_id row; c_path := crow_path row;
            c_startLine := crow_start_line row; c_endLine := crow_end_line row;
            c_text := crow_text row;
            c_embedding := parseEmbedding env (crow_embedding row);
            c_source := crow_source row; c_updatedAt := crow_updated_at row |})
      (queryChunks env).

(** [recency?.enabled] *)
Definition recencyEnabled (recency : option RecencyConfig) : bool :=
  match recency with
  | Some cfg => enabled cfg
  | None => false
  end.

(** The score of a row of the accelerated branch. *)
Definition vectorRowScore (now : Q) (recency : option RecencyConfig) (row : VectorRow) : Q :=
  let score := 1 - row_dist row in
  match recency with
  | Some cfg =>
      if enabled cfg then
        let penalty :=
          calculateRecencyPenalty (row_updated_at row) now (lambda cfg) (windowDays cfg) in
        Qmax 0 (score - penalty)
      else score
  | None => score
  end.

(** [Math.max(0, score - penalty)] for a finite [penalty]. *)
Definition penalized (score : JsNumber) (penalty : Q) : JsNumber :=
  match score with
  | Finite s => Finite (Qmax 0 (s - penalty))
  | NotANumber => NotANumber
  | PlusInfinity => PlusInfinity
  | MinusInfinity => Finite 0
  end.

(** The score of a candidate of the fallback branch. *)
Definition chunkScore (now : Q) (recency : option RecencyConfig) (queryVec : list Q)
    (cosine : list Q -> list Q -> JsNumber) (chunk : Chunk) : JsNumber :=
  let score := cosine queryVec (c_embedding chunk) in
  match recency with
  | Some cfg =>
      if enabled cfg then
        let penalty :=
          calculateRecencyPenalty (c_updatedAt chunk) now (lambda cfg) (windowDays cfg) in
        penalized score penalty
      else score
  | None => score
  end.

(** [Number.isFinite] *)
Definition isFinite (x : JsNumber) : bool :=
  match x with Finite _ => true | _ => false end.

(** The value of a score that passed [Number.isFinite]. *)
Definition finiteValue (x : JsNumber) : Q :=
  match x with Finite q => q | _ => 0 end.

Definition searchVector (env : SearchEnv) (params : SearchVectorParams)
  : list SearchRowResult :=
  if (List.length (queryVec params) =? 0)%nat || (limit params <=? 0)%Z then []
  else
    let now := Date_now env in
    let recency := recency params in
    if ensureVectorReady env (List.length (queryVec params)) then
      let rows := queryVectorTable env (queryVec params) (limit params) in
      let results :=
        map (fun row =>
               {| r_id := row_id row; r_path := row_path row;
                  r_startLine := row_start_line row; r_endLine := row_end_line row;
                  r_score := vectorRowScore now recency row;
                  r_snippet := truncateUtf16Safe env (row_text row) (snippetMaxChars params);
                  r_source := row_source row |})
            rows in
      if recencyEnabled recency
      then Array_sort (fun a b => r_score b - r_score a) results
      else results
    else
      let candidates := listChunks env in
      let scored :=
        filter (fun entry => isFinite (snd entry))
          (map (fun chunk =>
                  (chunk, chunkScore now recency (queryVec params)
                                     (cosineSimilarity env) chunk))
               candidates) in
      map (fun entry =>
             {| r_id := c_id (fst entry); r_path := c_path (fst entry);
                r_startLine := c_startLine (fst entry); r_endLine := c_endLine (fst entry);
                r_score := finiteValue (snd entry);
                r_snippet := truncateUtf16Safe env (c_text (fst entry)) (snippetMaxChars params);
                r_source := c_source (fst entry) |})
          (slice0 (limit params)
             (Array_sort (fun a b => finiteValue (snd b) - finiteValue (snd a)) scored)).

(* ----------------------------------------------------------------- *)
(** ** compaction-safeguard.ts: constants and messages *)

Definition FALLBACK_SUMMARY : string :=
  "Summary unavailable due to context limits. Older messages were truncated.".
Definition TURN_PREFIX_INSTRUCTIONS : string :=
  "This summary covers the prefix of a split turn. Focus on the original request," ++
  " early progress, and any details needed to understand the retained suffix.".
Definition MAX_TOOL_FAILURES : nat := 8.
Definition MAX_TOOL_FAILURE_CHARS : nat := 240.
Definition DEFAULT_RECENT_TURNS_PRESERVE : Q := 3.
Definition DEFAULT_QUALITY_GUARD_MAX_RETRIES : Q := 1.
Definition MAX_RECENT_TURNS_PRESERVE : Z := 12.
Definition MAX_QUALITY_GUARD_MAX_RETRIES : Z := 3.
Definition MAX_EXTRACTED_IDENTIFIERS : nat := 12.
Definition MAX_RECENT_TURN_TEXT_CHARS : nat := 600.
Definition REQUIRED_SUMMARY_SECTIONS : list string :=
  [ "## Decisions";
    "## Open TODOs";
    "## Constraints/Rules";
    "## Pending user asks";
    "## Exact identifiers" ]%string.

(** A block of a message's content; a field that is absent or not a string is
    [None]. *)
Record ContentBlock := {
  block_type : option string;
  block_text : option string
}.

(** [content]: a string, an array of blocks, or anything else. *)
Inductive MessageContent :=
| ContentString (text : string)
| ContentBlocks (blocks : list ContentBlock)
| ContentOther.

(** [details] of a tool result: [status] when it is a string, [exitCode] when
    it is a finite number. *)
Record ToolDetails := {
  status : option string;
  exitCode : option Z
}.

Record AgentMessage := {
  role : string;
  content : MessageContent;
  toolCallId : option string;
  toolName : option string;
  isError : bool;
  details : option ToolDetails
}.

(** [value : unknown]: [Some q] is a finite number, [None] anything else. *)
Definition clampNonNegativeInt (value : option Q) (fallback : Q) : Z :=
  let normalized := match value with Some v => v | None => fallback end in
  Z.max 0 (Qfloor normalized).

Definition resolveRecentTurnsPreserve (value : option Q) : Z :=
  Z.min MAX_RECENT_TURNS_PRESERVE
        (clampNonNegativeInt value DEFAULT_RECENT_TURNS_PRESERVE).

Definition resolveQualityGuardMaxRetries (value : option Q) : Z :=
  Z.min MAX_QUALITY_GUARD_MAX_RETRIES
        (clampNonNegativeInt value DEFAULT_QUALITY_GUARD_MAX_RETRIES).

(** [role === "user" || role === "assistant"] *)
Definition isUserOrAssistant (message : AgentMessage) : bool :=
  String.eqb (role message) "user" || String.eqb (role message) "assistant".

(** The loop of [splitPreservedRecentTurns] over the messages from the last
    to the first, each with its index. *)
Fixpoint collectCandidateIndexes (fromLast : list (nat * AgentMessage))
    (preserveMessages : Z) (candidateIndexes : list nat) : list nat :=
  match fromLast with
  | [] => candidateIndexes
  | (i, message) :: earlier =>
      let candidateIndexes :=
        if isUserOrAssistant message then candidateIndexes ++ [i]
        else candidateIndexes in
      if (preserveMessages <=? Z.of_nat (List.length candidateIndexes))%Z
      then candidateIndexes
      else collectCandidateIndexes earlier preserveMessages candidateIndexes
  end.

Definition indexSetHas (idx : nat) (s : list nat) : bool := existsb (Nat.eqb idx) s.

Record SplitTurns := {
  summarizableMessages : list AgentMessage;
  preservedMessages : list AgentMessage
}.

Definition splitPreservedRecentTurns (messages : list AgentMessage)
    (recentTurnsPreserve : Q) : SplitTurns :=
  let preserveTurns :=
    Z.min MAX_RECENT_TURNS_PRESERVE (clampNonNegativeInt (Some recentTurnsPreserve) 0) in
  if (preserveTurns <=? 0)%Z then
    {| summarizableMessages := messages; preservedMessages := [] |}
  else
    let preserveMessages := (preserveTurns * 2)%Z in
    let candidateIndexes :=
      collectCandidateIndexes
        (rev (combine (seq 0 (List.length messages)) messages)) preserveMessages [] in
    if (List.length candidateIndexes =? 0)%nat then
      {| summarizableMessages := messages; preservedMessages := [] |}
    else
      let preservedIndexSet := candidateIndexes in
      {| summarizableMessages :=
           filteri (fun idx _ => negb (indexSetHas idx preservedIndexSet)) messages;
         preservedMessages :=
           filter isUserOrAssistant
             (filteri (fun idx _ => indexSetHas idx preservedIndexSet) messages) |}.

(** Two lists are merged into a third one, each keeping its order. *)
Inductive Interleaved {T : Type} : list T -> list T -> list T -> Prop :=
| Interleaved_nil : Interleaved [] [] []
| Interleaved_left x l1 l2 l :
    Interleaved l1 l2 l -> Interleaved (x :: l1) l2 (x :: l)
| Interleaved_right x l1 l2 l :
    Interleaved l1 l2 l -> Interleaved l1 (x :: l2) (x :: l).

(* ----------------------------------------------------------------- *)
(** ** Strings *)

Definition charIn (lo hi c : ascii) : bool :=
  (lo <=? c)%char && (c <=? hi)%char.

Definition isDigit (c : ascii) : bool := charIn "0" "9" c.
Definition isLower (c : ascii) : bool := charIn "a" "z" c.
Definition isUpper (c : ascii) : bool := charIn "A" "Z" c.
Definition isAlnum (c : ascii) : bool := isDigit c || isLower c || isUpper c.

(** White space of [String.prototype.trim] and of the class [\s] among the
    one-byte code units: tab, line feed, vertical tab, form feed, carriage
    return, space and no-break space. *)
Definition isSpace (c : ascii) : bool :=
  charIn "009" "013" c || Ascii.eqb c " " || Ascii.eqb c "160".

Definition toLowerChar (c : ascii) : ascii :=
  if isUpper c then ascii_of_nat (nat_of_ascii c + 32) else c.

Fixpoint toLowerCase (s : string) : string :=
  match s with
  | EmptyString => EmptyString
  | String c s' => String (toLowerChar c) (toLowerCase s')
  end.

Fixpoint startsWith (s prefix : string) : bool :=
  match prefix, s with
  | EmptyString, _ => true
  | String _ _, EmptyString => false
  | String c prefix', String d s' => Ascii.eqb c d && startsWith s' prefix'
  end.

(** [s.includes(sub)] *)
Fixpoint includes (s sub : string) : bool :=
  startsWith s sub ||
  match s with
  | EmptyString => false
  | String _ s' => includes s' sub
  end.

(** [s.split(/[sep]+/g)] for a class [sep] of characters: the pieces between
    the maximal runs of separators, an empty piece included when the string
    starts or ends with a separator.  [cur] is the piece being read and
    [inSep] tells that the previous character was a separator. *)
Fixpoint splitRuns (isSep : ascii -> bool) (s : string) (cur : string) (inSep : bool)
  : list string :=
  match s with
  | EmptyString => [cur]
  | String c s' =>
      if isSep c then
        if inSep then splitRuns isSep s' cur true
        else cur :: splitRuns isSep s' EmptyString true
      else splitRuns isSep s' (cur ++ String c EmptyString) false
  end.

Definition splitOn (isSep : ascii -> bool) (s : string) : list string :=
  splitRuns isSep s EmptyString false.

(** [parts.join(sep)] *)
Definition join (sep : string) (parts : list string) : string :=
  String.concat sep parts.

(** [s.slice(0, n)] *)
Fixpoint sliceString (n : nat) (s : string) : string :=
  match n, s with
  | O, _ => EmptyString
  | S _, EmptyString => EmptyString
  | S n', String c s' => String c (sliceString n' s')
  end.

(** [sub] occurs in [s]. *)
Definition isSubstringOf (sub s : string) : Prop :=
  exists before after : string, s = (before ++ sub ++ after)%string.

(* ----------------------------------------------------------------- *)
(** ** compaction-safeguard.ts: summary quality audit *)

(** [latestAsk : string | null], [None] being [null]. *)
Definition hasAskOverlap (summary : string) (latestAsk : option string) : bool :=
  match latestAsk with
  | None => true
  | Some ask =>
      if (String.length ask =? 0)%nat then true
      else
        let normalizedSummary := toLowerCase summary in
        let tokens :=
          firstn 8
            (filter (fun token => (5 <=? String.length token)%nat)
               (splitOn (fun c => negb (isLower c || isDigit c)) (toLowerCase ask))) in
        if (List.length tokens =? 0)%nat then true
        else existsb (fun token => includes normalizedSummary token) tokens
  end.

Record QualityAudit := {
  ok : bool;
  reasons : list string
}.

Definition auditSummaryQuality (summary : string) (identifiers : list string)
    (latestAsk : option string) : QualityAudit :=
  let reasons :=
    flat_map (fun section =>
                if negb (includes summary section)
                then [("missing_section:" ++ section)%string] else [])
             REQUIRED_SUMMARY_SECTIONS in
  let missingIdentifiers := filter (fun id => negb (includes summary id)) identifiers in
  let reasons :=
    if (0 <? List.length missingIdentifiers)%nat
    then reasons ++ [("missing_identifiers:" ++ join "," (firstn 3 missingIdentifiers))%string]
    else reasons in
  let reasons :=
    if negb (hasAskOverlap summary latestAsk)
    then reasons ++ ["latest_user_ask_not_reflected"%string]
    else reasons in
  {| ok := (List.length reasons =? 0)%nat; reasons := reasons |}.

(** The lowercase alphanumeric tokens of length at least 5 of an ask. *)
Definition askTokens (ask : string) : list string :=
  filter (fun token => (5 <=? String.length token)%nat)
    (splitOn (fun c => negb (isLower c || isDigit c)) (toLowerCase ask)).

(* ----------------------------------------------------------------- *)
(** ** Regular expressions

    The fragment of JavaScript's regular expressions that the sources use,
    with the backtracking semantics of the language: alternatives are tried
    from left to right, a quantifier is greedy and gives characters back one
    at a time.  A quantifier always stands on a character class here. *)

Inductive Regex :=
| Empty
| Class (p : ascii -> bool)
| Seq (r1 r2 : Regex)
| Alt (r1 r2 : Regex)
| Repeat (p : ascii -> bool) (min : nat) (max : option nat)
| WordBoundary.

Definition isWordChar (c : ascii) : bool := isAlnum c || Ascii.eqb c "_".

Definition isWordAt (c : option ascii) : bool :=
  match c with Some c => isWordChar c | None => false end.

Definition headChar (s : string) : option ascii :=
  match s with String c _ => Some c | EmptyString => None end.

Definition canRepeat (max : option nat) : bool :=
  match max with Some O => false | _ => true end.

(** [p{min,max}] at the input [s], the character before it being [prev]; [k]
    is what has to match after it. *)
Fixpoint matchRepeat {R : Type} (p : ascii -> bool) (min : nat) (max : option nat)
    (prev : option ascii) (s : string) (k : option ascii -> string -> option R)
  : option R :=
  let stop := if (min =? 0)%nat then k prev s else None in
  match s with
  | String c s' =>
      if p c && canRepeat max then
        match matchRepeat p (Nat.pred min) (option_map Nat.pred max) (Some c) s' k with
        | Some r => Some r
        | None => stop
        end
      else stop
  | EmptyString => stop
  end.

Fixpoint matchRegex {R : Type} (r : Regex) (prev : option ascii) (s : string)
    (k : option ascii -> string -> option R) : option R :=
  match r with
  | Empty => k prev s
  | Class p =>
      match s with
      | String c s' => if p c then k (Some c) s' else None
      | EmptyString => None
      end
  | Seq r1 r2 => matchRegex r1 prev s (fun prev' s' => matchRegex r2 prev' s' k)
  | Alt r1 r2 =>
      match matchRegex r1 prev s k with
      | Some x => Some x
      | None => matchRegex r2 prev s k
      end
  | Repeat p min max => matchRepeat p min max prev s k
  | WordBoundary =>
      if xorb (isWordAt prev) (isWordAt (headChar s)) then k prev s else None
  end.

(** The match of [r] that starts at the head of [s], if there is one. *)
Definition matchAt (r : Regex) (prev : option ascii) (s : string) : option string :=
  match matchRegex r prev s (fun _ rest => Some rest) with
  | Some rest => Some (sliceString (String.length s - String.length rest) s)
  | None => None
  end.

(** [text.match(/r/g) ?? []]: the matches from left to right; the search
    resumes where a match ends, and one character further after an empty
    match.  [skip] counts the characters of the last match still to pass. *)
Fixpoint matchAllFrom (r : Regex) (prev : option ascii) (s : string) (skip : nat)
  : list string :=
  match s with
  | EmptyString =>
      match skip, matchAt r prev s with
      | O, Some m => [m]
      | _, _ => []
      end
  | String c s' =>
      match skip with
      | S skip' => matchAllFrom r (Some c) s' skip'
      | O =>
          match matchAt r prev s with
          | Some m => m :: matchAllFrom r (Some c) s' (String.length m - 1)
          | None => matchAllFrom r (Some c) s' 0
          end
      end
  end.

Definition matchAll (r : Regex) (text : string) : list string :=
  matchAllFrom r None text 0.

(** The literal [s]. *)
Fixpoint lit (s : string) : Regex :=
  match s with
  | EmptyString => Empty
  | String c s' => Seq (Class (Ascii.eqb c)) (lit s')
  end.

Definition plus (p : ascii -> bool) : Regex := Repeat p 1 None.

(** The strings a regular expression can match, the context of a word
    boundary left aside. *)
Fixpoint InLanguage (r : Regex) (m : string) : Prop :=
  match r with
  | Empty => m = EmptyString
  | Class p => exists c, m = String c EmptyString /\ p c = true
  | Seq r1 r2 => exists m1 m2, m = (m1 ++ m2)%string /\ InLanguage r1 m1 /\ InLanguage r2 m2
  | Alt r1 r2 => InLanguage r1 m \/ InLanguage r2 m
  | Repeat p min max =>
      Forall (fun c => p c = true) (list_ascii_of_string m)
      /\ (min <= String.length m)%nat
      /\ match max with Some n => (String.length m <= n)%nat | None => True end
  | WordBoundary => m = EmptyString
  end.

(* ----------------------------------------------------------------- *)
(** ** compaction-safeguard.ts: opaque identifiers *)

Fixpoint dropWhile (p : ascii -> bool) (s : string) : string :=
  match s with
  | EmptyString => EmptyString
  | String c s' => if p c then dropWhile p s' else s
  end.

(** Removes the longest suffix made of characters of [p]. *)
Fixpoint dropWhileEnd (p : ascii -> bool) (s : string) : string :=
  match s with
  | EmptyString => EmptyString
  | String c s' =>
      match dropWhileEnd p s' with
      | EmptyString => if p c then EmptyString else String c EmptyString
      | kept => String c kept
      end
  end.

(** [s.trim()] *)
Definition trim (s : string) : string :=
  dropWhileEnd isSpace (dropWhile isSpace s).

Definition charAmong (chars : string) (c : ascii) : bool :=
  existsb (Ascii.eqb c) (list_ascii_of_string chars).

(** The class of the first replacement: opening parenthesis, double quote
    (the character of code 34), single quote, backquote, opening bracket,
    opening brace and less-than sign. *)
Definition isLeadingWrap (c : ascii) : bool :=
  charAmong "('`[{<" c || Ascii.eqb c "034".

(** The class of the second replacement: closing parenthesis, closing
    bracket, double quote, single quote, backquote, comma, semicolon, colon,
    full stop, exclamation mark, question mark, less-than and greater-than
    signs. *)
Definition isTrailingWrap (c : ascii) : bool :=
  charAmong ")]'`,;:.!?<>" c || Ascii.eqb c "034".

Definition sanitizeExtractedIdentifier (value : string) : string :=
  dropWhileEnd isTrailingWrap (dropWhile isLeadingWrap (trim value)).

Definition isHexDigit (c : ascii) : bool :=
  charIn "A" "F" c || charIn "a" "f" c || isDigit c.
Definition isLetter (c : ascii) : bool := isUpper c || isLower c.

(** [[A-Fa-f0-9]{8,}] *)
Definition reHexRun : Regex := Repeat isHexDigit 8 None.
(** [https?:\/\/\S+] *)
Definition reUrl : Regex :=
  Seq (lit "http")
    (Seq (Repeat (Ascii.eqb "s") 0 (Some 1%nat))
       (Seq (lit "://") (plus (fun c => negb (isSpace c))))).
(** [\/[\w./-]+] *)
Definition rePosixPath : Regex :=
  Seq (lit "/") (plus (fun c => isWordChar c || charAmong "./-" c)).
(** [[A-Za-z]:\\[\w\\.-]+] *)
Definition reWindowsPath : Regex :=
  Seq (Class isLetter)
    (Seq (lit ":\") (plus (fun c => isWordChar c || charAmong "\.-" c))).
(** [[A-Za-z0-9._-]+\.[A-Za-z0-9._/-]+:\d{1,5}] *)
Definition reHostPort : Regex :=
  Seq (plus (fun c => isAlnum c || charAmong "._-" c))
    (Seq (lit ".")
       (Seq (plus (fun c => isAlnum c || charAmong "._/-" c))
          (Seq (lit ":") (Repeat isDigit 1 (Some 5%nat))))).
(** [\b\d{6,}\b] *)
Definition reLongNumber : Regex :=
  Seq WordBoundary (Seq (Repeat isDigit 6 None) WordBoundary).

Definition reOpaqueIdentifier : Regex :=
  Alt reHexRun
    (Alt reUrl (Alt rePosixPath (Alt reWindowsPath (Alt reHostPort reLongNumber)))).

Definition extractOpaqueIdentifiers (text : string) : list string :=
  let matches := matchAll reOpaqueIdentifier text in
  firstn MAX_EXTRACTED_IDENTIFIERS
    (Set_from
       (filter (fun value => (4 <=? String.length value)%nat)
          (map (fun value => sanitizeExtractedIdentifier value) matches))).

(** A string of digits only that has 4 or 5 of them. *)
Definition isShortBareInteger (s : string) : Prop :=
  Forall (fun c => isDigit c = true) (list_ascii_of_string s)
  /\ (String.length s = 4 \/ String.length s = 5)%nat.

Fixpoint lastChar (s : string) : option ascii :=
  match s with
  | EmptyString => None
  | String c s' =>
      match s' with
      | EmptyString => Some c
      | String _ _ => lastChar s'
      end
  end.

(* ----------------------------------------------------------------- *)
(** ** compaction-safeguard.ts: tool failures, file lists, message text *)

(** The line feed. *)
Definition nl : string := String "010" EmptyString.

Record ToolFailure := {
  f_toolCallId : string;
  f_toolName : string;
  f_summary : string;
  f_meta : option string
}.

(** [text.replace(/\s+/g, " ")]: [inRun] tells that the previous character
    was white space. *)
Fixpoint collapseSpaces (s : string) (inRun : bool) : string :=
  match s with
  | EmptyString => EmptyString
  | String c s' =>
      if isSpace c then
        if inRun then collapseSpaces s' true
        else String " " (collapseSpaces s' true)
      else String c (collapseSpaces s' false)
  end.

Definition normalizeFailureText (text : string) : string :=
  trim (collapseSpaces text false).

Definition truncateFailureText (text : string) (maxChars : nat) : string :=
  if (String.length text <=? maxChars)%nat then text
  else (sliceString (Nat.max 0 (maxChars - 3)) text ++ "...")%string.

Definition isEmptyString (s : string) : bool := (String.length s =? 0)%nat.

(** The printed form of an integer. *)
Definition showZ (z : Z) : string := NilZero.string_of_int (Z.to_int z).

Definition formatToolFailureMeta (details : option ToolDetails) : option string :=
  match details with
  | None => None
  | Some record =>
      let parts :=
        match status record with
        | Some status =>
            if isEmptyString status then [] else [("status=" ++ status)%string]
        | None => []
        end in
      let parts :=
        match exitCode record with
        | Some exitCode => parts ++ [("exitCode=" ++ showZ exitCode)%string]
        | None => parts
        end in
      if (0 <? List.length parts)%nat then Some (join " " parts) else None
  end.

Definition extractToolResultText (content : MessageContent) : string :=
  match content with
  | ContentBlocks blocks =>
      let parts :=
        flat_map (fun block =>
                    match block_type block, block_text block with
                    | Some type, Some text =>
                        if String.eqb type "text" then [text] else []
                    | _, _ => []
                    end)
                 blocks in
      join nl parts
  | _ => EmptyString
  end.

(** Body of the loop of [collectToolFailures] on the pair of [failures] and
    [seen]. *)
Definition collectToolFailureStep (state : list ToolFailure * list string)
    (message : AgentMessage) : list ToolFailure * list string :=
  let (failures, seen) := state in
  if negb (String.eqb (role message) "toolResult") then state
  else if negb (isError message) then state
  else
    let toolCallId :=
      match toolCallId message with Some id => id | None => EmptyString end in
    if isEmptyString toolCallId || Set_has toolCallId seen then state
    else
      let seen := Set_add toolCallId seen in
      let toolName :=
        match toolName message with
        | Some name => if isEmptyString (trim name) then "tool"%string else name
        | None => "tool"%string
        end in
      let rawText := extractToolResultText (content message) in
      let meta := formatToolFailureMeta (details message) in
      let normalized := normalizeFailureText rawText in
      let summary :=
        truncateFailureText
          (if isEmptyString normalized
           then match meta with
                | Some _ => "failed"%string
                | None => "failed (no output)"%string
                end
           else normalized)
          MAX_TOOL_FAILURE_CHARS in
      (failures ++ [{| f_toolCallId := toolCallId; f_toolName := toolName;
                       f_summary := summary; f_meta := meta |}], seen).

Definition collectToolFailures (messages : list AgentMessage) : list ToolFailure :=
  fst (fold_left collectToolFailureStep messages ([], [])).

Definition formatToolFailuresSection (failures : list ToolFailure) : string :=
  if (List.length failures =? 0)%nat then EmptyString
  else
    let lines :=
      map (fun failure =>
             let meta :=
               match f_meta failure with
               | Some meta => (" (" ++ meta ++ ")")%string
               | None => EmptyString
               end in
             ("- " ++ f_toolName failure ++ meta ++ ": " ++ f_summary failure)%string)
          (firstn MAX_TOOL_FAILURES failures) in
    let lines :=
      if (MAX_TOOL_FAILURES <? List.length failures)%nat
      then lines ++ [("- ...and " ++
                      showZ (Z.of_nat (List.length failures - MAX_TOOL_FAILURES)) ++
                      " more")%string]
      else lines in
    (nl ++ nl ++ "## Tool Failures" ++ nl ++ join nl lines)%string.

(** The three sets of [FileOperations], each in insertion order. *)
Record FileOperations := {
  fo_read : list string;
  fo_edited : list string;
  fo_written : list string
}.

(** The comparison of [toSorted()] without a comparator: by code units. *)
Definition compareStrings (a b : string) : Q :=
  match String.compare a b with
  | Lt => -1
  | Eq => 0
  | Gt => 1
  end.

Definition toSorted (l : list string) : list string := Array_sort compareStrings l.

Record FileLists := {
  readFiles : list string;
  modifiedFiles : list string
}.

Definition computeFileLists (fileOps : FileOperations) : FileLists :=
  let modified := Set_from (fo_edited fileOps ++ fo_written fileOps) in
  let readFiles :=
    toSorted (filter (fun f => negb (Set_has f modified)) (fo_read fileOps)) in
  let modifiedFiles := toSorted modified in
  {| readFiles := readFiles; modifiedFiles := modifiedFiles |}.

Definition formatFileOperations (readFiles modifiedFiles : list string) : string :=
  let sections :=
    if (0 <? List.length readFiles)%nat
    then [("<read-files>" ++ nl ++ join nl readFiles ++ nl ++ "</read-files>")%string]
    else [] in
  let sections :=
    if (0 <? List.length modifiedFiles)%nat
    then sections ++
         [("<modified-files>" ++ nl ++ join nl modifiedFiles ++ nl ++
           "</modified-files>")%string]
    else sections in
  if (List.length sections =? 0)%nat then EmptyString
  else (nl ++ nl ++ join (nl ++ nl) sections)%string.

Definition extractMessageText (message : AgentMessage) : string :=
  match content message with
  | ContentString text => trim text
  | ContentBlocks blocks =>
      let parts :=
        flat_map (fun block =>
                    match block_text block with
                    | Some text =>
                        if (0 <? String.length (trim text))%nat then [trim text] else []
                    | None => []
                    end)
                 blocks in
      trim (join nl parts)
  | ContentOther => EmptyString
  end.

Definition formatPreservedTurnsSection (messages : list AgentMessage) : string :=
  if (List.length messages =? 0)%nat then EmptyString
  else
    let lines :=
      flat_map (fun message =>
                  let role :=
                    if String.eqb (role message) "assistant"
                    then "Assistant"%string else "User"%string in
                  let text := extractMessageText message in
                  if isEmptyString text then []
                  else
                    let trimmed :=
                      if (MAX_RECENT_TURN_TEXT_CHARS <? String.length text)%nat
                      then (sliceString MAX_RECENT_TURN_TEXT_CHARS text ++ "...")%string
                      else text in
                    [("- " ++ role ++ ": " ++ trimmed)%string])
               messages in
    if (List.length lines =? 0)%nat then EmptyString
    else (nl ++ nl ++ "## Recent turns preserved verbatim" ++ nl ++ join nl lines)%string.

Definition buildCompactionStructureInstructions (customInstructions : option string)
  : string :=
  let sectionsTemplate :=
    join nl
      (["Produce a compact, factual summary with these exact section headings:"%string]
       ++ REQUIRED_SUMMARY_SECTIONS ++
       ["For ## Exact identifiers, preserve literal values exactly as seen (IDs, URLs, file paths, ports, hashes, dates, times)."%string;
        "Do not omit unresolved asks from the user."%string]) in
  match customInstructions with
  | Some text =>
      let custom := trim text in
      if isEmptyString custom then sectionsTemplate
      else (sectionsTemplate ++ nl ++ nl ++ "Additional focus:" ++ nl ++ custom)%string
  | None => sectionsTemplate
  end.

(** The loop of [extractLatestUserAsk] over the messages from the last to
    the first. *)
Fixpoint latestUserAskFrom (fromLast : list AgentMessage) : option string :=
  match fromLast with
  | [] => None
  | msg :: earlier =>
      if negb (String.eqb (role msg) "user") then latestUserAskFrom earlier
      else
        let text := extractMessageText msg in
        if isEmptyString text then latestUserAskFrom earlier else Some text
  end.

Definition extractLatestUserAsk (messages : list AgentMessage) : option string :=
  latestUserAskFrom (rev messages).

(* ----------------------------------------------------------------- *)
(** ** Calls that may throw *)

Inductive result (A : Type) : Type :=
| Ok (value : A)
| Thrown (error : string).
Arguments Ok {A} value.
Arguments Thrown {A} error.

Definition bind {A B : Type} (m : result A) (f : A -> result B) : result B :=
  match m with
  | Ok value => f value
  | Thrown error => Thrown error
  end.

Notation "x <- m ;; f" := (bind m (fun x => f))
  (at level 61, m at next level, right associativity).

(** [try { body } catch (error) { handler }] *)
Definition tryCatch {A : Type} (body : result A) (handler : string -> result A)
  : result A :=
  match body with
  | Ok value => Ok value
  | Thrown error => handler error
  end.

(* ----------------------------------------------------------------- *)
(** ** compaction-safeguard.ts: the [session_before_compact] handler *)

(** Modelled from the spec: [SAFETY_MARGIN] is imported from [compaction.js],
    which is not among the sources; the specification gives its value. *)
Definition SAFETY_MARGIN : Q := 1.2.

Definition MAX_SUMMARY_CONTEXT_CHARS : nat := 2000.

Record CompactionSettings := {
  reserveTokens : Q
}.

(** [preparation]; [tokensBefore] is [None] when it is not a finite number,
    and [turnPrefixMessages] is [None] when the field is undefined, which the
    handler itself provides for ([preparation.turnPrefixMessages ?? []]). *)
Record CompactionRequest := {
  messagesToSummarize : list AgentMessage;
  turnPrefixMessages : option (list AgentMessage);
  isSplitTurn : bool;
  firstKeptEntryId : string;
  tokensBefore : option Q;
  previousSummary : option string;
  settings : CompactionSettings;
  fileOps : FileOperations
}.

Record CompactionArtifact := {
  summary : string;
  a_firstKeptEntryId : string;
  a_tokensBefore : option Q;
  a_details : FileLists
}.

(** The value of the runtime registry for a session; a field is [None] when
    it is absent (for the two counters: when it is no finite number). *)
Record SafeguardRuntime := {
  rt_contextWindowTokens : option Q;
  rt_recentTurnsPreserve : option Q;
  rt_qualityGuardEnabled : option bool;
  rt_qualityGuardMaxRetries : option Q;
  rt_maxHistoryShare : option Q
}.

Record PruneResult := {
  pr_messages : list AgentMessage;
  droppedMessagesList : list AgentMessage;
  droppedChunks : Z;
  droppedMessages : Z
}.

(** [runtime?.field] *)
Definition runtimeField {A : Type} (runtime : option SafeguardRuntime)
    (field : SafeguardRuntime -> option A) : option A :=
  match runtime with
  | Some r => field r
  | None => None
  end.

(** [value ?? fallback] *)
Definition orElse {A : Type} (value : option A) (fallback : A) : A :=
  match value with
  | Some v => v
  | None => fallback
  end.

(** [[...value]]: spreading a value that is undefined throws a TypeError,
    whose message is the engine's. *)
Definition spread {T : Type} (value : option (list T)) : result (list T) :=
  match value with
  | Some elements => Ok elements
  | None => Thrown "TypeError"
  end.

(** [a.slice(-n)] *)
Definition sliceLast {T : Type} (n : nat) (l : list T) : list T :=
  skipn (List.length l - n) l.

Set Implicit Arguments.

Section Handler.

(** The model handle, the session manager and the cancellation signal are
    passed through to the collaborators. *)
Variables Model SessionManager AbortSignal : Type.

Record SummarizeParams := {
  sp_messages : list AgentMessage;
  sp_model : Model;
  sp_apiKey : string;
  sp_signal : AbortSignal;
  sp_reserveTokens : Z;
  sp_maxChunkTokens : Z;
  sp_contextWindow : Q;
  sp_customInstructions : option string;
  sp_previousSummary : option string
}.

(** The imported collaborators that run inside the [try] block; each may
    throw.  [summarizeInStages] calls the language model, so its answer
    depends on the number of calls made before, its first argument.
    [processCwd], [pathJoin], [existsSync] and [readFile] are [process.cwd],
    [path.join], [fs.existsSync] and [fs.promises.readFile]. *)
Record Collaborators := {
  getCompactionSafeguardRuntime : SessionManager -> result (option SafeguardRuntime);
  resolveContextWindowTokens : Model -> result Q;
  estimateMessagesTokens : list AgentMessage -> result Q;
  computeAdaptiveChunkRatio : list AgentMessage -> Q -> result Q;
  pruneHistoryForContextShare :
    list AgentMessage -> Q -> Q -> Z -> result PruneResult;
  summarizeInStages : nat -> SummarizeParams -> result string;
  processCwd : result string;
  pathJoin : string -> string -> string;
  existsSync : string -> result bool;
  readFile : string -> result string;
  extractSections : string -> list string -> result (list string)
}.

Record CompactEvent := {
  preparation : CompactionRequest;
  customInstructions : option string;
  signal : AbortSignal
}.

(** [ctx]; [getApiKey] is the lookup of [ctx.modelRegistry]: the promise
    resolves with a key or with none, or it rejects. *)
Record HandlerContext := {
  model : option Model;
  getApiKey : Model -> result (option string);
  sessionManager : SessionManager
}.

Record CompactResult := {
  compaction : CompactionArtifact
}.

Variable env : Collaborators.

(** The working directory is read before the inner [try] block, whose
    [catch] answers with the empty string. *)
Definition readWorkspaceContextForSummary : result string :=
  workspaceDir <- processCwd env ;;
  let agentsPath := pathJoin env workspaceDir "AGENTS.md" in
  tryCatch
    (found <- existsSync env agentsPath ;;
     if negb found then Ok EmptyString
     else
       content <- readFile env agentsPath ;;
       sections <- extractSections env content
                     ["Session Startup"; "Red Lines"]%string ;;
       if (List.length sections =? 0)%nat then Ok EmptyString
       else
         let combined := join (nl ++ nl) sections in
         let safeContent :=
           if (MAX_SUMMARY_CONTEXT_CHARS <? String.length combined)%nat
           then (sliceString MAX_SUMMARY_CONTEXT_CHARS combined ++
                 nl ++ "...[truncated]...")%string
           else combined in
         Ok (nl ++ nl ++ "<workspace-critical-rules>" ++ nl ++ safeContent ++ nl ++
             "</workspace-critical-rules>")%string)
    (fun _ => Ok EmptyString).

(** The pruning step: the messages left to summarize, the summary of the
    dropped ones and the number of calls to the model made so far. *)
Definition pruneStep (preparation : CompactionRequest) (customInstructions : option string)
    (signal : AbortSignal) (model : Model) (apiKey : string)
    (contextWindowTokens maxHistoryShare : Q) (turnPrefixMessages : list AgentMessage)
  : result (list AgentMessage * option string * nat) :=
  let messagesToSummarize := messagesToSummarize preparation in
  match tokensBefore preparation with
  | None => Ok (messagesToSummarize, None, O)
  | Some tokensBefore =>
      historyTokens <- estimateMessagesTokens env messagesToSummarize ;;
      prefixTokens <- estimateMessagesTokens env turnPrefixMessages ;;
      let summarizableTokens := historyTokens + prefixTokens in
      let newContentTokens := Z.max 0 (Qfloor (tokensBefore - summarizableTokens)) in
      let maxHistoryTokens :=
        Qfloor (contextWindowTokens * maxHistoryShare * SAFETY_MARGIN) in
      if (maxHistoryTokens <? newContentTokens)%Z then
        pruned <- pruneHistoryForContextShare env messagesToSummarize
                    contextWindowTokens maxHistoryShare 2 ;;
        if (0 <? droppedChunks pruned)%Z then
          let messagesToSummarize := pr_messages pruned in
          if (0 <? List.length (droppedMessagesList pruned))%nat then
            match computeAdaptiveChunkRatio env (droppedMessagesList pruned)
                    contextWindowTokens with
            | Thrown _ => Ok (messagesToSummarize, None, O)
            | Ok droppedChunkRatio =>
                let droppedMaxChunkTokens :=
                  Z.max 1 (Qfloor (contextWindowTokens * droppedChunkRatio)) in
                match summarizeInStages env O
                        {| sp_messages := droppedMessagesList pruned;
                           sp_model := model; sp_apiKey := apiKey; sp_signal := signal;
                           sp_reserveTokens :=
                             Z.max 1 (Qfloor (reserveTokens (settings preparation)));
                           sp_maxChunkTokens := droppedMaxChunkTokens;
                           sp_contextWindow := contextWindowTokens;
                           sp_customInstructions := customInstructions;
                           sp_previousSummary := previousSummary preparation |} with
                | Thrown _ => Ok (messagesToSummarize, None, 1%nat)
                | Ok droppedSummary => Ok (messagesToSummarize, Some droppedSummary, 1%nat)
                end
            end
          else Ok (messagesToSummarize, None, O)
        else Ok (messagesToSummarize, None, O)
      else Ok (messagesToSummarize, None, O)
  end.

(** The attempts of the summarization loop from [attempt] on; [remaining] is
    [totalAttempts - attempt] and [calls] counts the calls to the model. *)
Fixpoint summarizeAttempts (summarize : nat -> list AgentMessage -> option string ->
                                        option string -> result string)
    (isSplit : bool) (messagesToSummarize turnPrefixMessages : list AgentMessage)
    (effectivePreviousSummary : option string)
    (preservedTurnsSection structuredInstructions : string)
    (identifiers : list string) (latestUserAsk : option string)
    (qualityGuardEnabled : bool) (totalAttempts : Z)
    (remaining : nat) (attempt : Z) (calls : nat)
    (currentInstructions summary : string) : result string :=
  match remaining with
  | O => Ok summary
  | S remaining' =>
      historySummary <- summarize calls messagesToSummarize
                          (Some currentInstructions) effectivePreviousSummary ;;
      summaryAndCalls <-
        (if isSplit && (0 <? List.length turnPrefixMessages)%nat then
           prefixSummary <- summarize (S calls) turnPrefixMessages
                              (Some (TURN_PREFIX_INSTRUCTIONS ++ nl ++ nl ++
                                     currentInstructions)%string)
                              None ;;
           Ok ((historySummary ++ nl ++ nl ++ "---" ++ nl ++ nl ++
                "**Turn Context (split turn):**" ++ nl ++ nl ++ prefixSummary)%string,
               S (S calls))
         else Ok (historySummary, S calls)) ;;
      let summary := (fst summaryAndCalls ++ preservedTurnsSection)%string in
      let calls := snd summaryAndCalls in
      if negb qualityGuardEnabled then Ok summary
      else
        let quality := auditSummaryQuality summary identifiers latestUserAsk in
        if ok quality || (totalAttempts - 1 <=? attempt)%Z then Ok summary
        else
          let reasons := join ", " (reasons quality) in
          let currentInstructions :=
            (structuredInstructions ++ nl ++ nl ++
             "Previous summary failed quality checks (" ++ reasons ++
             "). Fix all issues and include every required section with exact identifiers preserved.")%string in
          summarizeAttempts summarize isSplit messagesToSummarize turnPrefixMessages
            effectivePreviousSummary preservedTurnsSection structuredInstructions
            identifiers latestUserAsk qualityGuardEnabled totalAttempts
            remaining' (attempt + 1)%Z calls currentInstructions summary
  end.

(** The [try] block of the handler. *)
Definition compactionBody (event : CompactEvent) (ctx : HandlerContext)
    (model : Model) (apiKey : string) (lists : FileLists)
    (toolFailureSection fileOpsSummary : string) : result CompactResult :=
  let preparation := preparation event in
  let customInstructions := customInstructions event in
  let signal := signal event in
  runtime <- getCompactionSafeguardRuntime env (sessionManager ctx) ;;
  modelContextWindow <- resolveContextWindowTokens env model ;;
  let contextWindowTokens :=
    orElse (runtimeField runtime rt_contextWindowTokens) modelContextWindow in
  let turnPrefixMessages := orElse (turnPrefixMessages preparation) [] in
  let recentTurnsPreserve :=
    resolveRecentTurnsPreserve (runtimeField runtime rt_recentTurnsPreserve) in
  let qualityGuardEnabled := orElse (runtimeField runtime rt_qualityGuardEnabled) true in
  let qualityGuardMaxRetries :=
    resolveQualityGuardMaxRetries (runtimeField runtime rt_qualityGuardMaxRetries) in
  let maxHistoryShare := orElse (runtimeField runtime rt_maxHistoryShare) 0.5 in
  pruned <- pruneStep preparation customInstructions signal model apiKey
              contextWindowTokens maxHistoryShare turnPrefixMessages ;;
  let messagesToSummarize := fst (fst pruned) in
  let droppedSummary := snd (fst pruned) in
  let calls := snd pruned in
  let split := splitPreservedRecentTurns messagesToSummarize (inject_Z recentTurnsPreserve) in
  let messagesToSummarize := summarizableMessages split in
  let preservedRecentMessages := preservedMessages split in
  let preservedTurnsSection := formatPreservedTurnsSection preservedRecentMessages in
  let latestUserAsk :=
    extractLatestUserAsk
      (messagesToSummarize ++ preservedRecentMessages ++ turnPrefixMessages) in
  let identifierSeedText :=
    join nl
      (filter (fun text => negb (isEmptyString text))
         (map extractMessageText
            (sliceLast 10 (messagesToSummarize ++ preservedRecentMessages)))) in
  let identifiers := extractOpaqueIdentifiers identifierSeedText in
  let structuredInstructions := buildCompactionStructureInstructions customInstructions in
  let allMessages := messagesToSummarize ++ turnPrefixMessages in
  adaptiveRatio <- computeAdaptiveChunkRatio env allMessages contextWindowTokens ;;
  let maxChunkTokens := Z.max 1 (Qfloor (contextWindowTokens * adaptiveRatio)) in
  let reserveTokens := Z.max 1 (Qfloor (reserveTokens (settings preparation))) in
  let effectivePreviousSummary :=
    match droppedSummary with
    | Some s => Some s
    | None => previousSummary preparation
    end in
  let totalAttempts := if qualityGuardEnabled then (qualityGuardMaxRetries + 1)%Z else 1%Z in
  let summarize calls messages instructions previous :=
    summarizeInStages env calls
      {| sp_messages := messages; sp_model := model; sp_apiKey := apiKey;
         sp_signal := signal; sp_reserveTokens := reserveTokens;
         sp_maxChunkTokens := maxChunkTokens; sp_contextWindow := contextWindowTokens;
         sp_customInstructions := instructions; sp_previousSummary := previous |} in
  summary <- summarizeAttempts summarize (isSplitTurn preparation)
               messagesToSummarize turnPrefixMessages effectivePreviousSummary
               preservedTurnsSection structuredInstructions identifiers latestUserAsk
               qualityGuardEnabled totalAttempts
               (Z.to_nat totalAttempts) 0%Z calls structuredInstructions EmptyString ;;
  let summary := (summary ++ toolFailureSection)%string in
  let summary := (summary ++ fileOpsSummary)%string in
  workspaceContext <- readWorkspaceContextForSummary ;;
  let summary :=
    if isEmptyString workspaceContext then summary
    else (summary ++ workspaceContext)%string in
  Ok {| compaction :=
          {| summary := summary;
             a_firstKeptEntryId := firstKeptEntryId preparation;
             a_tokensBefore := tokensBefore preparation;
             a_details := lists |} |}.

(** The artifact returned when there is no model, no key, or an error, for a
    request whose prefix messages are [prefix]. *)
Definition fallbackArtifact (preparation : CompactionRequest)
    (prefix : list AgentMessage) : CompactionArtifact :=
  let lists := computeFileLists (fileOps preparation) in
  let fileOpsSummary := formatFileOperations (readFiles lists) (modifiedFiles lists) in
  let toolFailureSection :=
    formatToolFailuresSection
      (collectToolFailures (messagesToSummarize preparation ++ prefix)) in
  {| summary := (FALLBACK_SUMMARY ++ toolFailureSection ++ fileOpsSummary)%string;
     a_firstKeptEntryId := firstKeptEntryId preparation;
     a_tokensBefore := tokensBefore preparation;
     a_details := lists |}.

(** The handler registered for [session_before_compact].  The array given to
    [collectToolFailures] is built, and [getApiKey] is awaited, before the
    [try] block: an error there leaves the handler.  The warnings written
    with [console.warn] do not change what it returns and are left out. *)
Definition compactionSafeguardExtension (event : CompactEvent) (ctx : HandlerContext)
  : result CompactResult :=
  let preparation := preparation event in
  let lists := computeFileLists (fileOps preparation) in
  let fileOpsSummary := formatFileOperations (readFiles lists) (modifiedFiles lists) in
  prefix <- spread (turnPrefixMessages preparation) ;;
  let toolFailures :=
    collectToolFailures (messagesToSummarize preparation ++ prefix) in
  let toolFailureSection := formatToolFailuresSection toolFailures in
  let fallbackSummary :=
    (FALLBACK_SUMMARY ++ toolFailureSection ++ fileOpsSummary)%string in
  let fallback :=
    {| compaction :=
         {| summary := fallbackSummary;
            a_firstKeptEntryId := firstKeptEntryId preparation;
            a_tokensBefore := tokensBefore preparation;
            a_details := lists |} |} in
  match model ctx with
  | None => Ok fallback
  | Some model =>
      apiKey <- getApiKey ctx model ;;
      match apiKey with
      | None => Ok fallback
      | Some apiKey =>
          if isEmptyString apiKey then Ok fallback
          else
            tryCatch
              (compactionBody event ctx model apiKey lists
                 toolFailureSection fileOpsSummary)
              (fun error => Ok fallback)
      end
  end.

End Handler.

Unset Implicit Arguments.

(* ----------------------------------------------------------------- *)
(** ** Sample data, after the test suites *)

Definition userMessage (text : string) : AgentMessage :=
  {| role := "user"; content := ContentString text; toolCallId := None;
     toolName := None; isError := false; details := None |}.

Definition assistantMessage (text : string) : AgentMessage :=
  {| role := "assistant";
     content := ContentBlocks [{| block_type := Some "text"%string;
                                  block_text := Some text |}];
     toolCallId := None; toolName := None; isError := false; details := None |}.

Definition toolResultMessage (id name : string) (failed : bool)
    (details : option ToolDetails) (texts : list string) : AgentMessage :=
  {| role := "toolResult";
     content := ContentBlocks
                  (map (fun text => {| block_type := Some "text"%string;
                                       block_text := Some text |}) texts);
     toolCallId := Some id; toolName := Some name; isError := failed;
     details := details |}.

(** A store with two rows of equal distance, the first one ten days old. *)
Definition sampleSearchEnv : SearchEnv :=
  {| Date_now := 1000000000;
     ensureVectorReady := fun _ => true;
     queryVectorTable := fun _ _ =>
       [ {| row_id := "old"; row_path := "/old"; row_start_line := 1; row_end_line := 2;
            row_text := "old text"; row_source := "memory"%string; row_dist := 0.2;
            row_updated_at := Some (1000000000 - 10 * 86400000) |};
         {| row_id := "new"; row_path := "/new"; row_start_line := 1; row_end_line := 2;
            row_text := "new text"; row_source := "memory"%string; row_dist := 0.2;
            row_updated_at := Some 1000000000 |} ];
     queryChunks := [];
     parseEmbedding := fun _ => [];
     cosineSimilarity := fun _ _ => NotANumber;
     truncateUtf16Safe := fun text _ => text |}.

Definition sampleSearchParams : SearchVectorParams :=
  {| queryVec := [1; 0]; limit := 5; snippetMaxChars := 100;
     recency := Some {| enabled := true; lambda := 0.08; windowDays := 14 |} |}.

(** Collaborators for a run of the handler: no runtime entry, a window of
    200 000 tokens, no pruning, no [AGENTS.md]; [summarize] stands for the
    model. *)
Definition sampleCollaborators (summarize : nat -> result string)
  : Collaborators unit unit unit :=
  {| getCompactionSafeguardRuntime := fun _ => Ok None;
     resolveContextWindowTokens := fun _ => Ok 200000;
     estimateMessagesTokens := fun messages =>
       Ok (inject_Z (Z.of_nat (List.length messages)) * 100);
     computeAdaptiveChunkRatio := fun _ _ => Ok 0.4;
     pruneHistoryForContextShare := fun messages _ _ _ =>
       Ok {| pr_messages := messages; droppedMessagesList := [];
             droppedChunks := 0; droppedMessages := 0 |};
     summarizeInStages := fun calls _ => summarize calls;
     processCwd := Ok "/work"%string;
     pathJoin := fun dir name => (dir ++ "/" ++ name)%string;
     existsSync := fun _ => Ok false;
     readFile := fun _ => Thrown "ENOENT";
     extractSections := fun _ _ => Ok [] |}.

Definition sampleEvent : CompactEvent unit :=
  {| preparation :=
       {| messagesToSummarize :=
            [userMessage "Please check /tmp/x.log";
             toolResultMessage "call-1" "exec" true
               (Some {| status := Some "failed"%string; exitCode := Some 1%Z |})
               ["ENOENT: missing file"%string];
             assistantMessage "The file is missing."];
          turnPrefixMessages := Some [];
          isSplitTurn := false;
          firstKeptEntryId := "entry-7";
          tokensBefore := Some 1000;
          previousSummary := None;
          settings := {| reserveTokens := 2000 |};
          fileOps := {| fo_read := ["b.ts"; "a.ts"]%string;
                        fo_edited := ["a.ts"]%string;
                        fo_written := [] |} |};
     customInstructions := None;
     signal := tt |}.

Definition sampleContext : HandlerContext unit unit :=
  {| model := Some tt; getApiKey := fun _ => Ok (Some "key"%string);
     sessionManager := tt |}.

(** A summary with every required section and the identifier of the sample. *)
Definition sampleGoodSummary : string :=
  join nl ["## Decisions"; "Check the log."; "## Open TODOs"; "None.";
           "## Constraints/Rules"; "None."; "## Pending user asks";
           "Please check the file."; "## Exact identifiers"; "/tmp/x.log"]%string.

(* ----------------------------------------------------------------- *)
(** ** Notions used by the statements *)

(** An order-preserving selection of elements of a list. *)
Inductive Subsequence {T : Type} : list T -> list T -> Prop :=
| Subsequence_nil : Subsequence [] []
| Subsequence_keep x s l : Subsequence s l -> Subsequence (x :: s) (x :: l)
| Subsequence_drop x s l : Subsequence s l -> Subsequence s (x :: l).

(** Every one-byte character. *)
Definition allAscii : list ascii := map ascii_of_nat (seq 0 256).

(** Every value of [byId] is stored under its own id. *)
Definition keyedById (m : list (string * MergeEntry)) : Prop :=
  forall k e, In (k, e) m -> e_id e = k.

(** The scores held by [byId] after the vector results [vs] and the keyword
    results [ks] have been processed. *)
Definition scoresRecorded (vs : list HybridVectorResult) (ks : list HybridKeywordResult)
    (m : list (string * MergeEntry)) : Prop :=
  forall id e, Map_get id m = Some e ->
    e_vectorScore e = vectorScoreOf id vs /\ e_textScore e = textScoreOf id ks.

(* ----------------------------------------------------------------- *)
(** ** hybrid.ts: full-text query and rank normalization *)

(** [/[A-Za-z0-9_]+/g] *)
Definition reFtsToken : Regex := plus isWordChar.

(** [s.replaceAll(c, "")] for a character [c]. *)
Fixpoint removeChar (c : ascii) (s : string) : string :=
  match s with
  | EmptyString => EmptyString
  | String d s' => if Ascii.eqb d c then removeChar c s' else String d (removeChar c s')
  end.

(** The double quote. *)
Definition doubleQuote : string := String "034" EmptyString.

Definition buildFtsQuery (raw : string) : option string :=
  let tokens :=
    filter (fun t => negb (isEmptyString t))
      (map (fun t => trim t) (matchAll reFtsToken raw)) in
  if (List.length tokens =? 0)%nat then None
  else
    let quoted :=
      map (fun t => (doubleQuote ++ removeChar "034" t ++ doubleQuote)%string) tokens in
    Some (join " AND " quoted).

(** [rank] need not be finite. *)
Definition bm25RankToScore (rank : JsNumber) : Q :=
  let normalized := if isFinite rank then Qmax 0 (finiteValue rank) else 999 in
  1 / (1 + normalized).

(* ----------------------------------------------------------------- *)
(** ** manager-search.ts: keyword search *)

(** A row of the query against the full-text table. *)
Record KeywordRow := {
  krow_id : string;
  krow_path : string;
  krow_source : SearchSource;
  krow_start_line : Z;
  krow_end_line : Z;
  krow_text : string;
  krow_rank : JsNumber
}.

(** [SearchRowResult & { textScore: number }] *)
Record KeywordSearchResult := {
  ks_id : string;
  ks_path : string;
  ks_startLine : Z;
  ks_endLine : Z;
  ks_score : Q;
  ks_textScore : Q;
  ks_snippet : string;
  ks_source : SearchSource
}.

(** The parameters of [searchKeyword] that it reads itself; [kw_queryFtsTable]
    stands for the prepared statement on [db], [ftsTable], [providerModel] and
    [sourceFilter], run with the full-text query and the limit. *)
Record SearchKeywordParams := {
  kw_queryFtsTable : string -> Z -> list KeywordRow;
  kw_query : string;
  kw_limit : Z;
  kw_snippetMaxChars : Z;
  kw_buildFtsQuery : string -> option string;
  kw_bm25RankToScore : JsNumber -> Q
}.

Definition searchKeyword (truncate : string -> Z -> string)
    (params : SearchKeywordParams) : list KeywordSearchResult :=
  if (kw_limit params <=? 0)%Z then []
  else
    match kw_buildFtsQuery params (kw_query params) with
    | None => []
    | Some ftsQuery =>
        if isEmptyString ftsQuery then []
        else
          let rows := kw_queryFtsTable params ftsQuery (kw_limit params) in
          map (fun row =>
                 let textScore := kw_bm25RankToScore params (krow_rank row) in
                 {| ks_id := krow_id row; ks_path := krow_path row;
                    ks_startLine := krow_start_line row;
                    ks_endLine := krow_end_line row;
                    ks_score := textScore; ks_textScore := textScore;
                    ks_snippet := truncate (krow_text row) (kw_snippetMaxChars params);
                    ks_source := krow_source row |})
              rows
    end.

(** The words of a text: its non-empty pieces between the runs of characters
    that are no word characters. *)
Definition wordsOf (text : string) : list string :=
  filter (fun t => negb (isEmptyString t))
    (splitOn (fun c => negb (isWordChar c)) text).

(** The parameter object of a call of the merge. *)
Definition mergeParams (vector : list HybridVectorResult)
    (keyword : list HybridKeywordResult) (vectorWeight textWeight : Q)
    (dynamicThreshold : option bool) : MergeParams :=
  {| vector := vector; keyword := keyword; vectorWeight := vectorWeight;
     textWeight := textWeight; dynamicThreshold := dynamicThreshold |}.

(** The longest prefix made of characters of [p]. *)
Fixpoint takeWhile (p : ascii -> bool) (s : string) : string :=
  match s with
  | EmptyString => EmptyString
  | String c s' => if p c then String c (takeWhile p s') else EmptyString
  end.

(** The full-text query for a list of words. *)
Definition ftsQueryOf (words : list string) : string :=
  join " AND " (map (fun w => (doubleQuote ++ w ++ doubleQuote)%string) words).

(** The rows of a full-text query stand in ascending order of a finite rank,
    as [ORDER BY rank ASC] returns them. *)
Definition rankAscending (rows : list KeywordRow) : Prop :=
  Sorted (fun a b => exists ra rb,
            krow_rank a = Finite ra /\ krow_rank b = Finite rb /\ ra <= rb) rows.

(** The parameters of a keyword search that uses the two helpers of
    [hybrid.ts]. *)
Definition keywordParams (queryFtsTable : string -> Z -> list KeywordRow)
    (query : string) (limit snippetMaxChars : Z) : SearchKeywordParams :=
  {| kw_queryFtsTable := queryFtsTable; kw_query := query; kw_limit := limit;
     kw_snippetMaxChars := snippetMaxChars;
     kw_buildFtsQuery := buildFtsQuery; kw_bm25RankToScore := bm25RankToScore |}.

(** A full-text table with two rows. *)
Definition sampleFtsTable (ftsQuery : string) (limit : Z) : list KeywordRow :=
  [ {| krow_id := "a"; krow_path := "/a"; krow_source := "memory"%string;
       krow_start_line := 1; krow_end_line := 2; krow_text := "alpha";
       krow_rank := Finite 0.5 |};
    {| krow_id := "b"; krow_path := "/b"; krow_source := "memory"%string;
       krow_start_line := 3; krow_end_line := 4; krow_text := "beta";
       krow_rank := Finite 2 |} ].

(** [message] is a failed tool result that carries the call id [id]. *)
Definition isFailedToolResult (message : AgentMessage) (id : string) : Prop :=
  role message = "toolResult"%string /\ isError message = true
  /\ toolCallId message = Some id /\ id <> EmptyString.

(** The order of [toSorted()] on strings: by code units. *)
Definition stringLe (a b : string) : Prop := String.leb a b = true.

(** The elements that a scan from the last one reads until it has met [k]
    elements of [p]: what the loop of [splitPreservedRecentTurns] visits. *)
Fixpoint takeRecent {T : Type} (p : T -> bool) (fromLast : list T) (k : nat) : list T :=
  match fromLast with
  | [] => []
  | x :: earlier =>
      match k with
      | O => []
      | S k' => x :: takeRecent p earlier (if p x then k' else k)
      end
  end.

(** The last [k] elements of a list. *)
Definition lastN {T : Type} (k : nat) (l : list T) : list T :=
  skipn (List.length l - k) l.

(* ----------------------------------------------------------------- *)
(** ** hybrid.ts: what a merged entry carries besides its scores *)

(** The last vector result with the id, the first keyword result with it. *)
Definition lastVector (id : string) (vector : list HybridVectorResult)
  : option HybridVectorResult :=
  fold_left (fun acc r => if String.eqb (v_id r) id then Some r else acc) vector None.

Definition firstKeyword (id : string) (keyword : list HybridKeywordResult)
  : option HybridKeywordResult :=
  find (fun r => String.eqb (k_id r) id) keyword.

(** The snippet of the last keyword result with the id that has one, and
    [initial] when there is none. *)
Definition snippetOf (id : string) (keyword : list HybridKeywordResult)
    (initial : string) : string :=
  fold_left (fun acc r =>
               if String.eqb (k_id r) id && (0 <? String.length (k_snippet r))%nat
               then k_snippet r else acc)
            keyword initial.

Definition entryPlace (e : MergeEntry) : string * Z * Z * HybridSource :=
  (e_path e, e_startLine e, e_endLine e, e_source e).
Definition vectorPlace (r : HybridVectorResult) : string * Z * Z * HybridSource :=
  (v_path r, v_startLine r, v_endLine r, v_source r).
Definition keywordPlace (r : HybridKeywordResult) : string * Z * Z * HybridSource :=
  (k_path r, k_startLine r, k_endLine r, k_source r).

(** The entry [e] stored under [id] has the place of the last vector result
    with this id, or of the first keyword result when no vector result has
    it, and the snippet that the keyword results leave. *)
Definition metadataRecorded (id : string) (vector : list HybridVectorResult)
    (keyword : list HybridKeywordResult) (e : MergeEntry) : Prop :=
  match lastVector id vector with
  | Some v =>
      entryPlace e = vectorPlace v
      /\ e_snippet e = snippetOf id keyword (v_snippet v)
  | None =>
      match firstKeyword id keyword with
      | Some k =>
          entryPlace e = keywordPlace k
          /\ e_snippet e = snippetOf id keyword (k_snippet k)
      | None => False
      end
  end.

(** Every white-space character of [s] is a space, and no two of them are
    adjacent; [afterSpace] tells that a white-space character stands just
    before [s]. *)
Fixpoint singleSpaced (s : string) (afterSpace : bool) : bool :=
  match s with
  | EmptyString => true
  | String c s' =>
      if isSpace c
      then negb afterSpace && Ascii.eqb c " " && singleSpaced s' true
      else singleSpaced s' false
  end.

(* ----------------------------------------------------------------- *)
(** ** Failing summarization calls *)




(* ================================================================= *)
(** * Part II: properties *)
(* ================================================================= *)

(** ** Dynamic threshold *)

Lemma Qle_bool_false (x y : Q) : Qle_bool x y = false <-> y < x.
Proof.
  split; intro H.
  - apply Qnot_le_lt. intro Hle. apply Qle_bool_iff in Hle. congruence.
  - destruct (Qle_bool x y) eqn:E; [|reflexivity].
    apply Qle_bool_iff in E. exfalso. eapply Qlt_not_le; eauto.
Qed.

Ltac qbool :=
  repeat match goal with
  | H : Qle_bool _ _ = true |- _ => apply Qle_bool_iff in H
  | H : Qle_bool _ _ = false |- _ => apply Qle_bool_false in H
  | |- Qle_bool _ _ = true => apply Qle_bool_iff
  | |- Qle_bool _ _ = false => apply Qle_bool_false
  end.

Lemma calculateDynamicThreshold_high (top : Q) :
  0.7 <= top -> calculateDynamicThreshold top = top * 0.5.
Proof.
  intro H. unfold calculateDynamicThreshold.
  destruct (Qle_bool 0.7 top) eqn:E; [reflexivity|]. qbool. lra.
Qed.

Lemma calculateDynamicThreshold_medium (top : Q) :
  0.3 <= top -> top < 0.7 -> calculateDynamicThreshold top = top * 0.6.
Proof.
  intros H1 H2. unfold calculateDynamicThreshold.
  destruct (Qle_bool 0.7 top) eqn:E; qbool; [lra|].
  destruct (Qle_bool 0.3 top) eqn:E'; qbool; [reflexivity|lra].
Qed.

Lemma calculateDynamicThreshold_low (top : Q) :
  top < 0.3 -> calculateDynamicThreshold top = 0.15.
Proof.
  intro H. unfold calculateDynamicThreshold.
  destruct (Qle_bool 0.7 top) eqn:E; qbool; [lra|].
  destruct (Qle_bool 0.3 top) eqn:E'; qbool; [lra|reflexivity].
Qed.

Lemma calculateDynamicThreshold_floor (top : Q) :
  0.15 <= calculateDynamicThreshold top.
Proof.
  unfold calculateDynamicThreshold.
  destruct (Qle_bool 0.7 top) eqn:E; qbool; [lra|].
  destruct (Qle_bool 0.3 top) eqn:E'; qbool; lra.
Qed.

(** C4.  For every [topScore] the threshold is at least 0.15; it is
    0.5 × topScore from 0.7 upwards, 0.6 × topScore on [0.3, 0.7), and 0.15 in
    every other case, which includes every negative [topScore]. *)
Theorem calculateDynamicThreshold_tiers (topScore : Q) :
  0.15 <= calculateDynamicThreshold topScore
  /\ (0.7 <= topScore -> calculateDynamicThreshold topScore == 0.5 * topScore)
  /\ (0.3 <= topScore /\ topScore < 0.7 ->
      calculateDynamicThreshold topScore == 0.6 * topScore)
  /\ (~ 0.7 <= topScore /\ ~ (0.3 <= topScore /\ topScore < 0.7) ->
      calculateDynamicThreshold topScore == 0.15)
  /\ (topScore < 0 -> calculateDynamicThreshold topScore == 0.15).
Proof.
  split; [apply calculateDynamicThreshold_floor|].
  split; [intro H; rewrite calculateDynamicThreshold_high by assumption; ring|].
  split; [intros [H1 H2]; rewrite calculateDynamicThreshold_medium by assumption; ring|].
  split.
  - intros [H1 H2]. rewrite calculateDynamicThreshold_low; [reflexivity|].
    apply Qnot_le_lt. intro H3. apply H2. split; [assumption|].
    apply Qnot_le_lt. assumption.
  - intro H. rewrite calculateDynamicThreshold_low; [reflexivity|lra].
Qed.

Lemma filter_Subsequence {T : Type} (p : T -> bool) (l : list T) :
  Subsequence (filter p l) l.
Proof.
  induction l as [|x l IH]; simpl.
  - constructor.
  - destruct (p x); constructor; assumption.
Qed.

Lemma filter_idempotent {T : Type} (p : T -> bool) (l : list T) :
  filter p (filter p l) = filter p l.
Proof.
  induction l as [|x l IH]; simpl; [reflexivity|].
  destruct (p x) eqn:E; simpl; [rewrite E, IH; reflexivity|assumption].
Qed.

Lemma filter_none {T : Type} (p : T -> bool) (l : list T) :
  (forall x, In x l -> p x = false) -> filter p l = [].
Proof.
  induction l as [|x l IH]; simpl; intro H; [reflexivity|].
  rewrite (H x) by (left; reflexivity). apply IH. intros y Hy. apply H. right. assumption.
Qed.

Section DynamicThreshold.
Variable T : Type.
Variable score : T -> Q.

Lemma sortedDesc_head_max (r0 : T) (rest : list T) :
  sortedDesc score (r0 :: rest) ->
  forall r, In r (r0 :: rest) -> score r <= score r0.
Proof.
  intros Hs r Hin. destruct Hin as [<-|Hin]; [apply Qle_refl|].
  apply Sorted_StronglySorted in Hs.
  - apply StronglySorted_inv in Hs. destruct Hs as [_ Hall].
    rewrite Forall_forall in Hall. apply Hall. assumption.
  - intros a b c Hab Hbc. eapply Qle_trans; eassumption.
Qed.

Lemma applyDynamicThreshold_cons (r0 : T) (rest : list T) :
  applyDynamicThreshold score (r0 :: rest) true =
  filter (fun r => Qle_bool (calculateDynamicThreshold (score r0)) (score r))
         (r0 :: rest).
Proof. reflexivity. Qed.

Lemma applyDynamicThreshold_nil (b : bool) :
  applyDynamicThreshold score [] b = [].
Proof. destruct b; reflexivity. Qed.

Lemma threshold_below_top (top : Q) :
  0.15 <= top -> calculateDynamicThreshold top <= top.
Proof.
  intro H. unfold calculateDynamicThreshold.
  destruct (Qle_bool 0.7 top) eqn:E; qbool; [lra|].
  destruct (Qle_bool 0.3 top) eqn:E'; qbool; lra.
Qed.

(** C5.  On a list in descending score order the enabled filter is
    idempotent. *)
Theorem applyDynamicThreshold_idempotent (r : list T) :
  sortedDesc score r ->
  applyDynamicThreshold score (applyDynamicThreshold score r true) true =
  applyDynamicThreshold score r true.
Proof.
  intro Hs. destruct r as [|r0 rest]; [reflexivity|].
  rewrite applyDynamicThreshold_cons.
  set (tau := calculateDynamicThreshold (score r0)).
  destruct (Qle_bool tau (score r0)) eqn:Etop.
  - assert (Hf : filter (fun x => Qle_bool tau (score x)) (r0 :: rest) =
                 r0 :: filter (fun x => Qle_bool tau (score x)) rest)
      by (simpl; rewrite Etop; reflexivity).
    rewrite Hf, applyDynamicThreshold_cons. fold tau.
    rewrite <- Hf. apply filter_idempotent.
  - rewrite filter_none; [reflexivity|].
    intros x Hx. pose proof (sortedDesc_head_max r0 rest Hs x Hx) as Hle.
    qbool. lra.
Qed.

(** C10.  On a non-empty list in descending score order whose first score
    is at least 0.15, the enabled filter keeps the first element, and its
    output is the subsequence of the input made of exactly the records whose
    score reaches the threshold of the first score; the records are the
    input's own. *)
Theorem applyDynamicThreshold_keeps_top (r0 : T) (rest : list T) :
  sortedDesc score (r0 :: rest) ->
  0.15 <= score r0 ->
  let results := r0 :: rest in
  let threshold := calculateDynamicThreshold (score r0) in
  let out := applyDynamicThreshold score results true in
  out <> []
  /\ hd_error out = Some r0
  /\ Subsequence out results
  /\ out = filter (fun r => Qle_bool threshold (score r)) results
  /\ (forall r, In r out <-> In r results /\ threshold <= score r).
Proof.
  intros Hs Htop results threshold out.
  assert (Hout : out = filter (fun r => Qle_bool threshold (score r)) results)
    by reflexivity.
  assert (Hkeep : Qle_bool threshold (score r0) = true)
    by (qbool; apply threshold_below_top; assumption).
  assert (Hhd : out = r0 :: filter (fun r => Qle_bool threshold (score r)) rest).
  { rewrite Hout. unfold results. simpl. rewrite Hkeep. reflexivity. }
  split; [rewrite Hhd; discriminate|].
  split; [rewrite Hhd; reflexivity|].
  split; [rewrite Hout; apply filter_Subsequence|].
  split; [assumption|].
  intro r. rewrite Hout, filter_In, Qle_bool_iff. reflexivity.
Qed.

End DynamicThreshold.

Lemma applyDynamicThreshold_idempotent_witness :
  let r := [ {| scored_tag := 0; scored_score := 0.2 |};
             {| scored_tag := 1; scored_score := 0.15 |};
             {| scored_tag := 2; scored_score := 0.14 |} ] in
  sortedDesc scored_score r /\
  applyDynamicThreshold scored_score (applyDynamicThreshold scored_score r true) true =
  applyDynamicThreshold scored_score r true.
Proof.
  intro r.
  assert (Hs : sortedDesc scored_score r).
  { unfold sortedDesc, r. repeat constructor; simpl; lra. }
  split; [exact Hs|].
  exact (applyDynamicThreshold_idempotent Scored scored_score r Hs).
Defined.

Lemma applyDynamicThreshold_keeps_top_witness :
  let r0 := {| scored_tag := 0; scored_score := 0.8 |} in
  let r1 := {| scored_tag := 1; scored_score := 0.5 |} in
  let r2 := {| scored_tag := 2; scored_score := 0.3 |} in
  sortedDesc scored_score [r0; r1; r2] /\ 0.15 <= scored_score r0 /\
  applyDynamicThreshold scored_score [r0; r1; r2] true = [r0; r1].
Proof.
  intros r0 r1 r2.
  assert (Hs : sortedDesc scored_score [r0; r1; r2]).
  { unfold sortedDesc, r0, r1, r2. repeat constructor; simpl; lra. }
  assert (Htop : 0.15 <= scored_score r0) by (simpl; lra).
  split; [exact Hs|]. split; [exact Htop|].
  destruct (applyDynamicThreshold_keeps_top Scored scored_score r0 [r1; r2] Hs Htop)
    as (_ & _ & _ & Hout & _).
  rewrite Hout. reflexivity.
Defined.

(** ** Recency penalty *)

Lemma msPerDay_value : msPerDay == 86400000.
Proof. reflexivity. Qed.

Lemma msPerDay_pos : 0 < msPerDay.
Proof. reflexivity. Qed.

(** The two divisions of the code are one division by the window in
    milliseconds. *)
Lemma recency_ratio_eq (age windowDays : Q) :
  1 <= windowDays ->
  age / msPerDay / windowDays == age / (windowDays * 86400000).
Proof.
  intro HW. rewrite msPerDay_value. field. lra.
Qed.

Lemma calculateRecencyPenalty_past (u now lambda windowDays : Q) :
  u <= now ->
  calculateRecencyPenalty (Some u) now lambda windowDays =
  lambda * Qmin 1 ((now - u) / msPerDay / windowDays).
Proof.
  intro H. unfold calculateRecencyPenalty.
  destruct (Qle_bool u now) eqn:E; [reflexivity|]. qbool. lra.
Qed.

Lemma recency_ratio_nonneg (age windowDays : Q) :
  0 <= age -> 1 <= windowDays -> 0 <= age / msPerDay / windowDays.
Proof.
  intros Ha HW.
  apply Qle_shift_div_l; [lra|].
  apply Qle_shift_div_l; [apply msPerDay_pos|]. lra.
Qed.

Lemma recency_ratio_mono (age1 age2 windowDays : Q) :
  age1 <= age2 -> 1 <= windowDays ->
  age1 / msPerDay / windowDays <= age2 / msPerDay / windowDays.
Proof.
  intros Ha HW. unfold Qdiv.
  apply Qmult_le_compat_r; [|apply Qlt_le_weak, Qinv_lt_0_compat; lra].
  apply Qmult_le_compat_r; [assumption|].
  apply Qlt_le_weak, Qinv_lt_0_compat, msPerDay_pos.
Qed.

Lemma recency_ratio_full (age windowDays : Q) :
  1 <= windowDays -> windowDays * 86400000 <= age ->
  1 <= age / msPerDay / windowDays.
Proof.
  intros HW Ha.
  apply Qle_shift_div_l; [lra|].
  apply Qle_shift_div_l; [apply msPerDay_pos|].
  rewrite msPerDay_value. lra.
Qed.

(** C3.  For a timestamp not after [now], a [lambda] in [0,1] and a window of
    at least one day, the penalty is lambda × min(1, age / (windowDays ×
    86 400 000)); it lies in [0, lambda], does not decrease when the age grows,
    and is lambda once the age reaches the window.  For an absent timestamp or
    one after [now] the penalty is 0. *)
Theorem calculateRecencyPenalty_spec (lambda windowDays : Q) :
  (0 <= lambda /\ lambda <= 1 -> 1 <= windowDays ->
     (forall updatedAt now, updatedAt <= now ->
        let penalty := calculateRecencyPenalty (Some updatedAt) now lambda windowDays in
        penalty == lambda * Qmin 1 ((now - updatedAt) / (windowDays * 86400000))
        /\ 0 <= penalty /\ penalty <= lambda
        /\ (windowDays * 86400000 <= now - updatedAt -> penalty == lambda))
     /\ (forall u1 now1 u2 now2, u1 <= now1 -> u2 <= now2 ->
           now1 - u1 <= now2 - u2 ->
           calculateRecencyPenalty (Some u1) now1 lambda windowDays <=
           calculateRecencyPenalty (Some u2) now2 lambda windowDays))
  /\ (forall now, calculateRecencyPenalty None now lambda windowDays = 0)
  /\ (forall updatedAt now, now < updatedAt ->
        calculateRecencyPenalty (Some updatedAt) now lambda windowDays = 0).
Proof.
  split; [intros [Hl0 Hl1] HW; split|split].
  - intros u now Hu penalty. unfold penalty.
    rewrite calculateRecencyPenalty_past by assumption.
    assert (Hage : 0 <= now - u) by lra.
    pose proof (recency_ratio_nonneg (now - u) windowDays Hage HW) as Hr0.
    pose proof (Q.le_min_l 1 ((now - u) / msPerDay / windowDays)) as Hm1.
    assert (Hm0 : 0 <= Qmin 1 ((now - u) / msPerDay / windowDays))
      by (apply Q.min_glb; [lra|assumption]).
    split; [rewrite recency_ratio_eq by assumption; reflexivity|].
    split; [apply Qmult_le_0_compat; assumption|].
    split.
    + rewrite <- (Qmult_1_r lambda) at 2.
      rewrite !(Qmult_comm lambda). apply Qmult_le_compat_r; assumption.
    + intro Hfull. rewrite Q.min_l; [ring|].
      apply recency_ratio_full; assumption.
  - intros u1 now1 u2 now2 H1 H2 Hage.
    rewrite !calculateRecencyPenalty_past by assumption.
    rewrite !(Qmult_comm lambda). apply Qmult_le_compat_r; [|assumption].
    apply Q.min_le_compat_l. apply recency_ratio_mono; assumption.
  - reflexivity.
  - intros u now Hu. unfold calculateRecencyPenalty.
    destruct (Qle_bool u now) eqn:E; [|reflexivity]. qbool. lra.
Qed.

Lemma calculateRecencyPenalty_spec_witness :
  calculateRecencyPenalty (Some 395200000) 1000000000 0.08 14 == 0.04.
Proof.
  destruct (calculateRecencyPenalty_spec 0.08 14) as [H _].
  destruct H as [H _]; [split; lra|lra|].
  destruct (H 395200000 1000000000) as [Heq _]; [lra|].
  rewrite Heq. reflexivity.
Defined.

(** ** The stable sort in descending score order *)

Section SortDesc.
Variable T : Type.
Variable sc : T -> Q.

Lemma sortInsert_perm (x : T) (l : list T) :
  Permutation (sortInsert (fun a b => sc b - sc a) x l) (x :: l).
Proof.
  induction l as [|y l IH]; simpl; [reflexivity|].
  destruct (Qle_bool (sc y - sc x) 0); [reflexivity|].
  rewrite IH. apply perm_swap.
Qed.

Lemma Array_sort_perm (l : list T) :
  Permutation (Array_sort (fun a b => sc b - sc a) l) l.
Proof.
  induction l as [|x l IH]; simpl; [reflexivity|].
  rewrite sortInsert_perm. constructor. assumption.
Qed.

Lemma sortInsert_sorted (x : T) (l : list T) :
  StronglySorted (fun a b => sc b <= sc a) l ->
  StronglySorted (fun a b => sc b <= sc a)
                 (sortInsert (fun a b => sc b - sc a) x l).
Proof.
  induction l as [|y l IH]; simpl; intro Hs.
  - constructor; constructor.
  - apply StronglySorted_inv in Hs. destruct Hs as [Hl Hy].
    destruct (Qle_bool (sc y - sc x) 0) eqn:E; qbool.
    + constructor; [constructor; assumption|].
      constructor; [lra|].
      rewrite Forall_forall in *. intros z Hz. specialize (Hy z Hz). lra.
    + constructor; [apply IH; assumption|].
      rewrite Forall_forall in *. intros z Hz.
      apply (Permutation_in _ (sortInsert_perm x l)) in Hz.
      destruct Hz as [<-|Hz]; [lra|apply Hy; assumption].
Qed.

Lemma Array_sort_strongly_sorted (l : list T) :
  StronglySorted (fun a b => sc b <= sc a) (Array_sort (fun a b => sc b - sc a) l).
Proof.
  induction l as [|x l IH]; simpl; [constructor|].
  apply sortInsert_sorted. assumption.
Qed.

Lemma Array_sort_sorted (l : list T) :
  sortedDesc sc (Array_sort (fun a b => sc b - sc a) l).
Proof. apply StronglySorted_Sorted, Array_sort_strongly_sorted. Qed.

(** Stability: among the records of one score the order is the input's. *)
Lemma sortInsert_stable (q : Q) (x : T) (l : list T) :
  filter (fun r => Qeq_bool (sc r) q) (sortInsert (fun a b => sc b - sc a) x l) =
  filter (fun r => Qeq_bool (sc r) q) (x :: l).
Proof.
  induction l as [|y l IH]; [reflexivity|].
  simpl sortInsert.
  destruct (Qle_bool (sc y - sc x) 0) eqn:E; [reflexivity|]. qbool.
  change (filter (fun r => Qeq_bool (sc r) q) (y :: sortInsert (fun a b => sc b - sc a) x l))
    with (if Qeq_bool (sc y) q
          then y :: filter (fun r => Qeq_bool (sc r) q) (sortInsert (fun a b => sc b - sc a) x l)
          else filter (fun r => Qeq_bool (sc r) q) (sortInsert (fun a b => sc b - sc a) x l)).
  rewrite IH. simpl.
  destruct (Qeq_bool (sc x) q) eqn:Ex; destruct (Qeq_bool (sc y) q) eqn:Ey;
    try reflexivity.
  apply Qeq_bool_iff in Ex, Ey. lra.
Qed.

Lemma Array_sort_stable (q : Q) (l : list T) :
  filter (fun r => Qeq_bool (sc r) q) (Array_sort (fun a b => sc b - sc a) l) =
  filter (fun r => Qeq_bool (sc r) q) l.
Proof.
  induction l as [|x l IH]; [reflexivity|].
  simpl Array_sort. rewrite sortInsert_stable. simpl. rewrite IH. reflexivity.
Qed.

End SortDesc.

(** ** Insertion-ordered maps and sets *)

Lemma Map_keys_set {V : Type} (k : string) (v : V) (m : list (string * V)) :
  Map_keys (Map_set k v m) = Set_add k (Map_keys m).
Proof.
  unfold Set_add, Set_has.
  induction m as [|[k' v'] m IH]; simpl; [reflexivity|].
  rewrite (String.eqb_sym k k').
  destruct (String.eqb k' k) eqn:E; simpl; [reflexivity|].
  rewrite IH. destruct (existsb (String.eqb k) (Map_keys m)); reflexivity.
Qed.

Lemma Map_get_set_same {V : Type} (k : string) (v : V) (m : list (string * V)) :
  Map_get k (Map_set k v m) = Some v.
Proof.
  induction m as [|[k' v'] m IH]; simpl.
  - rewrite String.eqb_refl. reflexivity.
  - destruct (String.eqb k' k) eqn:E; simpl; rewrite E; [reflexivity|assumption].
Qed.

Lemma Map_get_set_other {V : Type} (k k0 : string) (v : V) (m : list (string * V)) :
  k0 <> k -> Map_get k0 (Map_set k v m) = Map_get k0 m.
Proof.
  intro Hne. induction m as [|[k' v'] m IH]; simpl.
  - destruct (String.eqb k k0) eqn:E; [|reflexivity].
    apply String.eqb_eq in E. congruence.
  - destruct (String.eqb k' k) eqn:E; simpl.
    + apply String.eqb_eq in E. subst k'.
      destruct (String.eqb k k0) eqn:E0; [|reflexivity].
      apply String.eqb_eq in E0. congruence.
    + rewrite IH. reflexivity.
Qed.

Lemma Map_get_In {V : Type} (k : string) (v : V) (m : list (string * V)) :
  Map_get k m = Some v -> In (k, v) m.
Proof.
  induction m as [|[k' v'] m IH]; simpl; [discriminate|].
  destruct (String.eqb k' k) eqn:E.
  - apply String.eqb_eq in E. intro H. inversion H. subst. left. reflexivity.
  - intro H. right. apply IH. assumption.
Qed.

Lemma Map_In_get {V : Type} (k : string) (v : V) (m : list (string * V)) :
  NoDup (Map_keys m) -> In (k, v) m -> Map_get k m = Some v.
Proof.
  induction m as [|[k' v'] m IH]; simpl; intros Hnd Hin; [contradiction|].
  inversion Hnd as [|? ? Hnotin Hnd']; subst.
  destruct Hin as [Heq|Hin].
  - inversion Heq; subst. rewrite String.eqb_refl. reflexivity.
  - destruct (String.eqb k' k) eqn:E.
    + apply String.eqb_eq in E. subst k'. exfalso. apply Hnotin.
      change k with (fst (k, v)). apply in_map. assumption.
    + apply IH; assumption.
Qed.

Lemma Map_get_None {V : Type} (k : string) (m : list (string * V)) :
  Map_get k m = None <-> ~ In k (Map_keys m).
Proof.
  induction m as [|[k' v'] m IH]; simpl.
  - split; [intros _ []|reflexivity].
  - destruct (String.eqb k' k) eqn:E.
    + apply String.eqb_eq in E. split; [discriminate|]. intro H. exfalso. apply H. left. assumption.
    + apply String.eqb_neq in E. rewrite IH. split.
      * intros H [H'|H']; [congruence|contradiction].
      * intros H H'. apply H. right. assumption.
Qed.

Lemma Set_has_In (x : string) (s : list string) :
  Set_has x s = true <-> In x s.
Proof.
  unfold Set_has. rewrite existsb_exists. split.
  - intros (y & Hy & E). apply String.eqb_eq in E. subst. assumption.
  - intro H. exists x. split; [assumption|apply String.eqb_refl].
Qed.

Lemma Set_add_NoDup (x : string) (s : list string) :
  NoDup s -> NoDup (Set_add x s).
Proof.
  intro H. unfold Set_add. destruct (Set_has x s) eqn:E; [assumption|].
  apply NoDup_app; [assumption|repeat constructor; intros []|].
  intros y Hy [<-|[]]. apply Set_has_In in Hy. congruence.
Qed.

Lemma Set_add_In (x y : string) (s : list string) :
  In y (Set_add x s) <-> y = x \/ In y s.
Proof.
  unfold Set_add. destruct (Set_has x s) eqn:E.
  - apply Set_has_In in E. split; [intro H; right; assumption|].
    intros [->|H]; assumption.
  - rewrite in_app_iff. simpl. split.
    + intros [H|[H|[]]]; [right; assumption|left; congruence].
    + intros [->|H]; [right; left; reflexivity|left; assumption].
Qed.

Lemma Map_set_In {V : Type} (k k' : string) (v v' : V) (m : list (string * V)) :
  In (k', v') (Map_set k v m) -> (k' = k /\ v' = v) \/ In (k', v') m.
Proof.
  induction m as [|[k0 v0] m IH]; simpl.
  - intros [H|[]]. inversion H. left. split; reflexivity.
  - destruct (String.eqb k0 k) eqn:E; simpl.
    + apply String.eqb_eq in E. subst k0.
      intros [H|H]; [inversion H; left; split; reflexivity|right; right; assumption].
    + intros [H|H]; [right; left; assumption|].
      destruct (IH H) as [H'|H']; [left; assumption|right; right; assumption].
Qed.

Lemma filter_filter_and {T : Type} (p q : T -> bool) (l : list T) :
  filter p (filter q l) = filter (fun x => q x && p x) l.
Proof.
  induction l as [|x l IH]; simpl; [reflexivity|].
  destruct (q x); simpl; [destruct (p x); rewrite IH; reflexivity|assumption].
Qed.

Lemma Set_has_app (x : string) (s t : list string) :
  Set_has x (s ++ t) = Set_has x s || Set_has x t.
Proof. unfold Set_has. apply existsb_app. Qed.

(** Adding the elements of [l] to the set [acc] appends, in the order of
    their first occurrence, those that [acc] does not hold. *)
Lemma Set_add_fold (l acc : list string) :
  fold_left (fun s x => Set_add x s) l acc =
  acc ++ filter (fun y => negb (Set_has y acc)) (firstOccurrences l).
Proof.
  revert acc. induction l as [|x l IH]; intro acc; simpl.
  - rewrite app_nil_r. reflexivity.
  - rewrite IH. unfold Set_add. destruct (Set_has x acc) eqn:E; simpl.
    + f_equal. rewrite filter_filter_and. apply filter_ext. intro y.
      destruct (String.eqb x y) eqn:Exy; simpl; [|reflexivity].
      apply String.eqb_eq in Exy. subst y. rewrite E. reflexivity.
    + rewrite <- app_assoc. simpl. f_equal. f_equal.
      rewrite filter_filter_and. apply filter_ext. intro y.
      rewrite Set_has_app. unfold Set_has at 2. simpl.
      rewrite (String.eqb_sym y x), orb_false_r, negb_orb.
      apply andb_comm.
Qed.

Lemma Set_from_firstOccurrences (l : list string) :
  Set_from l = firstOccurrences l.
Proof.
  unfold Set_from. rewrite Set_add_fold. simpl.
  induction (firstOccurrences l) as [|x f IH]; simpl; [reflexivity|].
  f_equal. assumption.
Qed.

Lemma Set_add_fold_NoDup (l acc : list string) :
  NoDup acc -> NoDup (fold_left (fun s x => Set_add x s) l acc).
Proof.
  revert acc. induction l as [|x l IH]; intros acc H; simpl; [assumption|].
  apply IH. apply Set_add_NoDup. assumption.
Qed.

Lemma Set_add_fold_In (y : string) (l acc : list string) :
  In y (fold_left (fun s x => Set_add x s) l acc) <-> In y l \/ In y acc.
Proof.
  revert acc. induction l as [|x l IH]; intro acc; simpl.
  - split; [intro H; right; assumption|intros [[]|H]; assumption].
  - rewrite IH, Set_add_In. split.
    + intros [H|[H|H]]; [left; right; assumption|left; left; congruence|right; assumption].
    + intros [[H|H]|H]; [right; left; congruence|left; assumption|right; right; assumption].
Qed.

Lemma firstOccurrences_NoDup (l : list string) : NoDup (firstOccurrences l).
Proof.
  rewrite <- Set_from_firstOccurrences. apply Set_add_fold_NoDup. constructor.
Qed.

Lemma firstOccurrences_In (y : string) (l : list string) :
  In y (firstOccurrences l) <-> In y l.
Proof.
  rewrite <- Set_from_firstOccurrences. unfold Set_from.
  rewrite Set_add_fold_In. simpl. split; [intros [H|[]]; assumption|intro H; left; assumption].
Qed.

Lemma firstOccurrences_app (a b : list string) :
  firstOccurrences (a ++ b) =
  firstOccurrences a ++ filter (fun y => negb (Set_has y a)) (firstOccurrences b).
Proof.
  rewrite <- (Set_from_firstOccurrences (a ++ b)), <- (Set_from_firstOccurrences a).
  unfold Set_from. rewrite fold_left_app, (Set_add_fold b). f_equal.
  apply filter_ext_in. intros y _. f_equal.
  destruct (Set_has y a) eqn:E.
  - apply Set_has_In. apply Set_add_fold_In. left. apply Set_has_In. assumption.
  - destruct (Set_has y (fold_left _ a [])) eqn:E'; [|reflexivity].
    apply Set_has_In, Set_add_fold_In in E'. destruct E' as [E'|[]].
    apply Set_has_In in E'. congruence.
Qed.

(** ** Merge of vector and keyword results *)

Lemma mergeVectorStep_keys (m : list (string * MergeEntry)) (r : HybridVectorResult) :
  Map_keys (mergeVectorStep m r) = Set_add (v_id r) (Map_keys m).
Proof. apply Map_keys_set. Qed.

Lemma mergeKeywordStep_keys (m : list (string * MergeEntry)) (r : HybridKeywordResult) :
  Map_keys (mergeKeywordStep m r) = Set_add (k_id r) (Map_keys m).
Proof.
  unfold mergeKeywordStep. destruct (Map_get (k_id r) m); apply Map_keys_set.
Qed.

Lemma mergeVector_keys (vs : list HybridVectorResult) (m : list (string * MergeEntry)) :
  Map_keys (fold_left mergeVectorStep vs m) =
  fold_left (fun s x => Set_add x s) (map v_id vs) (Map_keys m).
Proof.
  revert m. induction vs as [|r vs IH]; intro m; simpl; [reflexivity|].
  rewrite IH, mergeVectorStep_keys. reflexivity.
Qed.

Lemma mergeKeyword_keys (ks : list HybridKeywordResult) (m : list (string * MergeEntry)) :
  Map_keys (fold_left mergeKeywordStep ks m) =
  fold_left (fun s x => Set_add x s) (map k_id ks) (Map_keys m).
Proof.
  revert m. induction ks as [|r ks IH]; intro m; simpl; [reflexivity|].
  rewrite IH, mergeKeywordStep_keys. reflexivity.
Qed.

Lemma mergeById_keys (vs : list HybridVectorResult) (ks : list HybridKeywordResult) :
  Map_keys (mergeById vs ks) = firstOccurrences (map v_id vs ++ map k_id ks).
Proof.
  unfold mergeById. rewrite mergeKeyword_keys, mergeVector_keys.
  rewrite <- Set_from_firstOccurrences. unfold Set_from.
  rewrite fold_left_app. reflexivity.
Qed.

Lemma mergeVectorStep_keyed (m : list (string * MergeEntry)) (r : HybridVectorResult) :
  keyedById m -> keyedById (mergeVectorStep m r).
Proof.
  intros H k e Hin. apply Map_set_In in Hin.
  destruct Hin as [[-> ->]|Hin]; [reflexivity|apply H; assumption].
Qed.

Lemma mergeKeywordStep_keyed (m : list (string * MergeEntry)) (r : HybridKeywordResult) :
  keyedById m -> keyedById (mergeKeywordStep m r).
Proof.
  intros H k e Hin. unfold mergeKeywordStep in Hin.
  destruct (Map_get (k_id r) m) as [existing|] eqn:G;
    apply Map_set_In in Hin; destruct Hin as [[-> ->]|Hin];
    try (apply H; assumption); simpl; [|reflexivity].
  apply H. apply Map_get_In. assumption.
Qed.

Lemma mergeById_keyed (vs : list HybridVectorResult) (ks : list HybridKeywordResult) :
  keyedById (mergeById vs ks).
Proof.
  unfold mergeById.
  assert (Hv : forall m, keyedById m -> keyedById (fold_left mergeVectorStep vs m)).
  { induction vs as [|r vs IH]; intros m Hm; simpl; [assumption|].
    apply IH. apply mergeVectorStep_keyed. assumption. }
  assert (Hk : forall m, keyedById m -> keyedById (fold_left mergeKeywordStep ks m)).
  { induction ks as [|r ks IH]; intros m Hm; simpl; [assumption|].
    apply IH. apply mergeKeywordStep_keyed. assumption. }
  apply Hk, Hv. intros k e [].
Qed.

Lemma vectorScoreOf_snoc (id : string) (vs : list HybridVectorResult) (r : HybridVectorResult) :
  vectorScoreOf id (vs ++ [r]) =
  if String.eqb (v_id r) id then vectorScore r else vectorScoreOf id vs.
Proof. unfold vectorScoreOf. rewrite fold_left_app. reflexivity. Qed.

Lemma textScoreOf_snoc (id : string) (ks : list HybridKeywordResult) (r : HybridKeywordResult) :
  textScoreOf id (ks ++ [r]) =
  if String.eqb (k_id r) id then textScore r else textScoreOf id ks.
Proof. unfold textScoreOf. rewrite fold_left_app. reflexivity. Qed.

Lemma vectorScoreOf_absent (id : string) (vs : list HybridVectorResult) :
  ~ In id (map v_id vs) -> vectorScoreOf id vs = 0.
Proof.
  induction vs as [|r vs IH] using rev_ind; intro H; [reflexivity|].
  rewrite vectorScoreOf_snoc. rewrite map_app, in_app_iff in H. simpl in H.
  destruct (String.eqb (v_id r) id) eqn:E.
  - apply String.eqb_eq in E. exfalso. apply H. right. left. assumption.
  - apply IH. intro H'. apply H. left. assumption.
Qed.

Lemma textScoreOf_absent (id : string) (ks : list HybridKeywordResult) :
  ~ In id (map k_id ks) -> textScoreOf id ks = 0.
Proof.
  induction ks as [|r ks IH] using rev_ind; intro H; [reflexivity|].
  rewrite textScoreOf_snoc. rewrite map_app, in_app_iff in H. simpl in H.
  destruct (String.eqb (k_id r) id) eqn:E.
  - apply String.eqb_eq in E. exfalso. apply H. right. left. assumption.
  - apply IH. intro H'. apply H. left. assumption.
Qed.

Lemma mergeVector_scores (vs : list HybridVectorResult) :
  scoresRecorded vs [] (fold_left mergeVectorStep vs []).
Proof.
  induction vs as [|r vs IH] using rev_ind; [intros id e H; discriminate|].
  rewrite fold_left_app. simpl. intros id e H. unfold mergeVectorStep in H.
  rewrite vectorScoreOf_snoc.
  destruct (String.eqb (v_id r) id) eqn:E.
  - apply String.eqb_eq in E. subst id. rewrite Map_get_set_same in H.
    inversion H. split; reflexivity.
  - apply String.eqb_neq in E. rewrite Map_get_set_other in H by congruence.
    apply IH. assumption.
Qed.

Lemma mergeKeyword_scores (vs : list HybridVectorResult) (ks : list HybridKeywordResult) :
  scoresRecorded vs ks (mergeById vs ks).
Proof.
  unfold mergeById.
  induction ks as [|r ks IH] using rev_ind; [apply mergeVector_scores|].
  rewrite fold_left_app. simpl. intros id e H.
  rewrite textScoreOf_snoc.
  set (m := fold_left mergeKeywordStep ks (fold_left mergeVectorStep vs [])) in *.
  unfold mergeKeywordStep in H.
  destruct (String.eqb (k_id r) id) eqn:E.
  - apply String.eqb_eq in E. subst id.
    destruct (Map_get (k_id r) m) as [existing|] eqn:G;
      rewrite Map_get_set_same in H; inversion H; simpl.
    + split; [apply (IH _ _ G)|reflexivity].
    + split; [|reflexivity]. symmetry. apply vectorScoreOf_absent.
      apply Map_get_None in G. intro Hin. apply G.
      unfold m. rewrite mergeKeyword_keys, mergeVector_keys.
      apply Set_add_fold_In. right. apply Set_add_fold_In. left. assumption.
  - apply String.eqb_neq in E.
    destruct (Map_get (k_id r) m) as [existing|] eqn:G;
      rewrite Map_get_set_other in H by congruence; apply IH; assumption.
Qed.

Lemma Map_values_keys (m : list (string * MergeEntry)) :
  keyedById m -> map e_id (Map_values m) = Map_keys m.
Proof.
  intro H. unfold Map_values, Map_keys. rewrite map_map.
  apply map_ext_in. intros [k e] Hin. simpl. apply H. assumption.
Qed.

(** C2.  With [dynamicThreshold] false or omitted, [byId] holds one entry per
    distinct id of the two inputs, in insertion order (the vector ids first,
    then the ids found only in the keyword input, each in input order); the
    score of an entry is vectorWeight × vectorScore + textWeight × textScore,
    a side without the id counting 0; and the result is these entries in
    descending order of score, entries of equal score in insertion order. *)
Theorem mergeHybridResults_no_threshold
    (vector : list HybridVectorResult) (keyword : list HybridKeywordResult)
    (vectorWeight textWeight : Q) (dynamicThreshold : option bool) :
  dynamicThreshold = None \/ dynamicThreshold = Some false ->
  let entries := Map_values (mergeById vector keyword) in
  let merged := map (mergedResult vectorWeight textWeight) entries in
  let out := mergeHybridResults
               {| vector := vector; keyword := keyword;
                  vectorWeight := vectorWeight; textWeight := textWeight;
                  dynamicThreshold := dynamicThreshold |} in
  map e_id entries =
    firstOccurrences (map v_id vector) ++
    filter (fun id => negb (Set_has id (map v_id vector)))
           (firstOccurrences (map k_id keyword))
  /\ NoDup (map e_id entries)
  /\ (forall id, In id (map e_id entries) <->
                 In id (map v_id vector) \/ In id (map k_id keyword))
  /\ (forall e, In e entries ->
        score (mergedResult vectorWeight textWeight e) =
        vectorWeight * vectorScoreOf (e_id e) vector +
        textWeight * textScoreOf (e_id e) keyword)
  /\ List.length out = List.length entries
  /\ Permutation out merged
  /\ (forall r, In r out ->
        exists e, In e entries /\ r = mergedResult vectorWeight textWeight e /\
          score r = vectorWeight * vectorScoreOf (e_id e) vector +
                    textWeight * textScoreOf (e_id e) keyword)
  /\ sortedDesc score out
  /\ (forall q, filter (fun r => Qeq_bool (score r) q) out =
                filter (fun r => Qeq_bool (score r) q) merged).
Proof.
  intros Hdt entries merged out.
  assert (Hout : out = Array_sort (fun a b => score b - score a) merged).
  { unfold out, mergeHybridResults. simpl.
    destruct Hdt as [-> | ->]; reflexivity. }
  assert (Hids : map e_id entries = firstOccurrences (map v_id vector ++ map k_id keyword)).
  { unfold entries. rewrite Map_values_keys by apply mergeById_keyed.
    apply mergeById_keys. }
  assert (Hnd : NoDup (Map_keys (mergeById vector keyword))).
  { rewrite mergeById_keys. apply firstOccurrences_NoDup. }
  split; [rewrite Hids; apply firstOccurrences_app|].
  split; [rewrite Hids; apply firstOccurrences_NoDup|].
  split; [intro id; rewrite Hids, firstOccurrences_In, in_app_iff; reflexivity|].
  assert (Hscore : forall e, In e entries ->
            score (mergedResult vectorWeight textWeight e) =
            vectorWeight * vectorScoreOf (e_id e) vector +
            textWeight * textScoreOf (e_id e) keyword).
  { intros e He. unfold entries, Map_values in He. apply in_map_iff in He.
    destruct He as ([k e'] & He' & Hin). simpl in He'. subst e'.
    assert (Hk : e_id e = k) by (apply (mergeById_keyed vector keyword); assumption).
    apply Map_In_get in Hin; [|assumption].
    destruct (mergeKeyword_scores vector keyword k e Hin) as [Hv Ht].
    simpl. rewrite Hv, Ht, Hk. reflexivity. }
  split; [exact Hscore|].
  rewrite Hout.
  split.
  { rewrite (Permutation_length (Array_sort_perm HybridResult score merged)).
    unfold merged. apply length_map. }
  split; [apply Array_sort_perm|].
  split.
  { intros r Hr. apply (Permutation_in _ (Array_sort_perm _ score merged)) in Hr.
    unfold merged in Hr. apply in_map_iff in Hr. destruct Hr as (e & <- & He).
    exists e. split; [assumption|]. split; [reflexivity|apply Hscore; assumption]. }
  split; [apply Array_sort_sorted|].
  intro q. apply Array_sort_stable.
Qed.

Lemma mergeHybridResults_no_threshold_witness :
  let vector := [makeVectorResult "a" 0.8; makeVectorResult "b" 0.3] in
  let keyword := [makeKeywordResult "b" 0.5; makeKeywordResult "c" 0.2] in
  let out := mergeHybridResults
               {| vector := vector; keyword := keyword;
                  vectorWeight := 0.7; textWeight := 0.3;
                  dynamicThreshold := None |} in
  map e_id (Map_values (mergeById vector keyword)) = ["a"; "b"; "c"]%string
  /\ sortedDesc score out
  /\ map path out = ["/path/a"; "/path/b"; "/path/c"]%string.
Proof.
  intros vector keyword out.
  destruct (mergeHybridResults_no_threshold vector keyword 0.7 0.3 None
              (or_introl eq_refl)) as (Hids & _ & _ & _ & _ & _ & _ & Hs & _).
  split; [rewrite Hids; reflexivity|].
  split; [exact Hs|reflexivity].
Defined.

(** The merge scenario of the test suite: with the threshold enabled only the
    two best documents remain. *)
Example mergeHybridResults_pipeline :
  map path
    (mergeHybridResults
       {| vector := [makeVectorResult "doc1" 0.85; makeVectorResult "doc2" 0.6;
                     makeVectorResult "doc3" 0.4; makeVectorResult "doc4" 0.2];
          keyword := [makeKeywordResult "doc1" 0.7; makeKeywordResult "doc2" 0.3;
                      makeKeywordResult "doc5" 0.5];
          vectorWeight := 0.7; textWeight := 0.3;
          dynamicThreshold := Some true |})
  = ["/path/doc1"; "/path/doc2"]%string.
Proof. reflexivity. Qed.

Example applyDynamicThreshold_high_confidence :
  map scored_score
    (applyDynamicThreshold scored_score
       (map (fun s => {| scored_tag := 0; scored_score := s |}) [0.8; 0.5; 0.4; 0.3; 0.1])
       true)
  = [0.8; 0.5; 0.4].
Proof. reflexivity. Qed.

Example applyDynamicThreshold_low_confidence :
  map scored_score
    (applyDynamicThreshold scored_score
       (map (fun s => {| scored_tag := 0; scored_score := s |}) [0.2; 0.15; 0.14; 0.1])
       true)
  = [0.2; 0.15].
Proof. reflexivity. Qed.

(** ** Vector search with the recency penalty *)

Lemma In_firstn {T : Type} (x : T) (n : nat) (l : list T) :
  In x (firstn n l) -> In x l.
Proof.
  revert n. induction l as [|y l IH]; intros n H.
  - rewrite firstn_nil in H. assumption.
  - destruct n as [|n]; simpl in H; [contradiction|].
    destruct H as [H|H]; [left; assumption|right; eapply IH; eassumption].
Qed.

Lemma StronglySorted_firstn {T : Type} (R : T -> T -> Prop) (n : nat) (l : list T) :
  StronglySorted R l -> StronglySorted R (firstn n l).
Proof.
  revert n. induction l as [|x l IH]; intros n Hs.
  - rewrite firstn_nil. constructor.
  - destruct n as [|n]; simpl; [constructor|].
    apply StronglySorted_inv in Hs. destruct Hs as [Hl Hx].
    constructor; [apply IH; assumption|].
    rewrite Forall_forall in *. intros y Hy. apply Hx.
    eapply In_firstn; eassumption.
Qed.

Lemma StronglySorted_map {A B : Type} (f : A -> B) (R : B -> B -> Prop) (l : list A) :
  StronglySorted (fun a b => R (f a) (f b)) l -> StronglySorted R (map f l).
Proof.
  induction 1 as [|x l Hl IH Hx]; simpl; constructor; [assumption|].
  rewrite Forall_forall in *. intros y Hy. apply in_map_iff in Hy.
  destruct Hy as (a & <- & Ha). apply Hx. assumption.
Qed.

Lemma vectorRowScore_enabled (now : Q) (cfg : RecencyConfig) (row : VectorRow) :
  enabled cfg = true ->
  vectorRowScore now (Some cfg) row =
  Qmax 0 ((1 - row_dist row) -
          calculateRecencyPenalty (row_updated_at row) now (lambda cfg) (windowDays cfg)).
Proof. intro H. unfold vectorRowScore. rewrite H. reflexivity. Qed.

Lemma penalized_finite (score : JsNumber) (penalty s : Q) :
  penalized score penalty = Finite s ->
  0 <= s /\ (forall raw, score = Finite raw -> s = Qmax 0 (raw - penalty)).
Proof.
  destruct score as [q| | |]; simpl; intro H; try discriminate; inversion H.
  - split; [apply Q.le_max_l|]. intros raw Hraw. inversion Hraw. reflexivity.
  - split; [apply Qle_refl|]. intros raw Hraw. discriminate.
Qed.

(** C6.  With [recency.enabled] every returned score is
    max(0, rawScore - penalty), hence not negative, where the raw score is
    1 - dist in the branch of the vector index and the cosine similarity in
    the fallback branch, and the returned list is in descending order of
    these scores. *)
Theorem searchVector_recency_scores
    (env : SearchEnv) (params : SearchVectorParams) (cfg : RecencyConfig) :
  recency params = Some cfg ->
  enabled cfg = true ->
  let now := Date_now env in
  let penalty updatedAt :=
    calculateRecencyPenalty updatedAt now (lambda cfg) (windowDays cfg) in
  let out := searchVector env params in
  sortedDesc r_score out
  /\ (forall r, In r out -> 0 <= r_score r)
  /\ (ensureVectorReady env (List.length (queryVec params)) = true ->
      forall r, In r out ->
        exists row,
          In row (queryVectorTable env (queryVec params) (limit params))
          /\ r_id r = row_id row
          /\ r_score r = Qmax 0 ((1 - row_dist row) - penalty (row_updated_at row)))
  /\ (ensureVectorReady env (List.length (queryVec params)) = false ->
      forall r, In r out ->
        exists chunk,
          In chunk (listChunks env)
          /\ r_id r = c_id chunk
          /\ Finite (r_score r) =
             penalized (cosineSimilarity env (queryVec params) (c_embedding chunk))
                       (penalty (c_updatedAt chunk))
          /\ (forall raw,
                cosineSimilarity env (queryVec params) (c_embedding chunk) = Finite raw ->
                r_score r = Qmax 0 (raw - penalty (c_updatedAt chunk)))).
Proof.
  intros Hrec Hen now penalty out.
  assert (Hshape :
    (ensureVectorReady env (List.length (queryVec params)) = true ->
      forall r, In r out ->
        exists row,
          In row (queryVectorTable env (queryVec params) (limit params))
          /\ r_id r = row_id row
          /\ r_score r = Qmax 0 ((1 - row_dist row) - penalty (row_updated_at row)))
    /\ (ensureVectorReady env (List.length (queryVec params)) = false ->
      forall r, In r out ->
        0 <= r_score r /\
        exists chunk,
          In chunk (listChunks env)
          /\ r_id r = c_id chunk
          /\ Finite (r_score r) =
             penalized (cosineSimilarity env (queryVec params) (c_embedding chunk))
                       (penalty (c_updatedAt chunk))
          /\ (forall raw,
                cosineSimilarity env (queryVec params) (c_embedding chunk) = Finite raw ->
                r_score r = Qmax 0 (raw - penalty (c_updatedAt chunk))))).
  { unfold out, searchVector. rewrite Hrec.
    destruct ((List.length (queryVec params) =? 0)%nat || (limit params <=? 0)%Z);
      [split; intros _ r []|].
    split; intros Hready r Hin; rewrite Hready in Hin.
    - simpl recencyEnabled in Hin. rewrite Hen in Hin.
      apply (Permutation_in _ (Array_sort_perm _ r_score _)) in Hin.
      apply in_map_iff in Hin. destruct Hin as (row & <- & Hrow).
      exists row. simpl. split; [assumption|]. split; [reflexivity|].
      apply vectorRowScore_enabled. assumption.
    - apply in_map_iff in Hin. destruct Hin as ([chunk s] & <- & Hin).
      unfold slice0 in Hin. apply In_firstn in Hin.
      apply (Permutation_in _ (Array_sort_perm _ (fun e => finiteValue (snd e)) _)) in Hin.
      apply filter_In in Hin. destruct Hin as [Hin Hfin].
      apply in_map_iff in Hin. destruct Hin as (chunk' & Heq & Hchunk).
      injection Heq as Hc Hs. subst chunk'.
      rewrite Hen in Hs.
      cbn [fst snd] in *.
      destruct s as [s| | |]; try discriminate.
      destruct (penalized_finite _ _ _ Hs) as [Hpos Hraw].
      cbn [r_score r_id finiteValue].
      split; [assumption|].
      exists chunk. split; [assumption|]. split; [reflexivity|].
      split; [symmetry; exact Hs|exact Hraw]. }
  destruct Hshape as [Ha Hf].
  split; [|split; [|split; [exact Ha|]]].
  - unfold out, searchVector. rewrite Hrec.
    destruct ((List.length (queryVec params) =? 0)%nat || (limit params <=? 0)%Z);
      [constructor|].
    destruct (ensureVectorReady env (List.length (queryVec params))).
    + simpl recencyEnabled. rewrite Hen. apply Array_sort_sorted.
    + apply StronglySorted_Sorted.
      apply StronglySorted_map with (R := fun a b => r_score b <= r_score a).
      simpl. apply StronglySorted_firstn.
      apply (Array_sort_strongly_sorted _ (fun e => finiteValue (snd e))).
  - intros r Hin.
    destruct (ensureVectorReady env (List.length (queryVec params))) eqn:E.
    + destruct (Ha eq_refl r Hin) as (row & _ & _ & ->). apply Q.le_max_l.
    + apply (Hf eq_refl r Hin).
  - intros Hready r Hin. apply (Hf Hready r Hin).
Qed.

(** ** The preserved tail of recent turns *)

Lemma filteri_from_Interleaved {T : Type} (p : nat -> T -> bool) (i : nat) (l : list T) :
  Interleaved (filteri_from (fun idx x => negb (p idx x)) i l) (filteri_from p i l) l.
Proof.
  revert i. induction l as [|x l IH]; intro i; simpl; [constructor|].
  destruct (p i x); simpl; constructor; apply IH.
Qed.

Lemma filteri_from_Forall {T : Type} (P : T -> Prop) (p : nat -> T -> bool)
    (i : nat) (l : list T) :
  (forall j x, nth_error l j = Some x -> p (i + j)%nat x = true -> P x) ->
  Forall P (filteri_from p i l).
Proof.
  revert i. induction l as [|x l IH]; intros i H; simpl; [constructor|].
  assert (Hrest : Forall P (filteri_from p (S i) l)).
  { apply IH. intros j y Hj Hp. apply (H (S j) y); [assumption|].
    rewrite Nat.add_succ_r. assumption. }
  destruct (p i x) eqn:E; [|assumption].
  constructor; [|assumption].
  apply (H 0%nat x); [reflexivity|]. rewrite Nat.add_0_r. assumption.
Qed.

Lemma filteri_from_length {T : Type} (q : nat -> bool) (i : nat) (l : list T) :
  List.length (filteri_from (fun idx _ => q idx) i l) =
  List.length (filter q (seq i (List.length l))).
Proof.
  revert i. induction l as [|x l IH]; intro i; simpl; [reflexivity|].
  destruct (q i); simpl; rewrite IH; reflexivity.
Qed.

Lemma indexSetHas_In (idx : nat) (s : list nat) :
  indexSetHas idx s = true <-> In idx s.
Proof.
  unfold indexSetHas. rewrite existsb_exists. split.
  - intros (y & Hy & E). apply Nat.eqb_eq in E. subst. assumption.
  - intro H. exists idx. split; [assumption|apply Nat.eqb_refl].
Qed.

Lemma filteri_indexSet_length {T : Type} (s : list nat) (l : list T) :
  (List.length (filteri (fun idx _ => indexSetHas idx s) l) <= List.length s)%nat.
Proof.
  unfold filteri.
  rewrite (filteri_from_length (fun idx => indexSetHas idx s)).
  apply NoDup_incl_length.
  - apply NoDup_filter, seq_NoDup.
  - intros j Hj. apply filter_In in Hj. apply indexSetHas_In. apply Hj.
Qed.

Lemma filter_all {T : Type} (p : T -> bool) (l : list T) :
  Forall (fun x => p x = true) l -> filter p l = l.
Proof.
  induction 1 as [|x l Hx Hl IH]; simpl; [reflexivity|].
  rewrite Hx, IH. reflexivity.
Qed.

(** Every collected index is that of a user or assistant message of the
    walked list, and the loop stops once [preserveMessages] are collected. *)
Lemma collectCandidateIndexes_sound (fromLast : list (nat * AgentMessage))
    (preserveMessages : Z) (acc : list nat) (P : nat -> Prop) :
  (forall i m, In (i, m) fromLast -> isUserOrAssistant m = true -> P i) ->
  Forall P acc ->
  Forall P (collectCandidateIndexes fromLast preserveMessages acc).
Proof.
  revert acc. induction fromLast as [|[i m] rest IH]; intros acc Hl Hacc; simpl;
    [assumption|].
  assert (Hacc' : Forall P (if isUserOrAssistant m then acc ++ [i] else acc)).
  { destruct (isUserOrAssistant m) eqn:E; [|assumption].
    apply Forall_app. split; [assumption|].
    constructor; [|constructor]. apply (Hl i m); [left; reflexivity|assumption]. }
  destruct (preserveMessages <=?
            Z.of_nat (List.length (if isUserOrAssistant m then acc ++ [i] else acc)))%Z;
    [assumption|].
  apply IH; [|assumption].
  intros j m' Hin. apply Hl. right. assumption.
Qed.

Lemma collectCandidateIndexes_length (fromLast : list (nat * AgentMessage))
    (preserveMessages : Z) (acc : list nat) :
  (Z.of_nat (List.length acc) < preserveMessages)%Z ->
  (Z.of_nat (List.length (collectCandidateIndexes fromLast preserveMessages acc))
   <= preserveMessages)%Z.
Proof.
  revert acc. induction fromLast as [|[i m] rest IH]; intros acc Hacc; simpl; [lia|].
  set (acc' := if isUserOrAssistant m then acc ++ [i] else acc).
  assert (Hlen : (Z.of_nat (List.length acc') <= Z.of_nat (List.length acc) + 1)%Z).
  { unfold acc'. destruct (isUserOrAssistant m); [|lia].
    rewrite length_app. simpl. lia. }
  destruct (preserveMessages <=? Z.of_nat (List.length acc'))%Z eqn:E.
  - lia.
  - apply IH. apply Z.leb_gt in E. assumption.
Qed.

Lemma indexed_nth_error {T : Type} (l : list T) (i : nat) (x : T) :
  In (i, x) (rev (combine (seq 0 (List.length l)) l)) -> nth_error l i = Some x.
Proof.
  rewrite <- in_rev. intro Hin.
  assert (Hgen : forall (k : nat) (l0 : list T),
            In (i, x) (combine (seq k (List.length l0)) l0) ->
            exists j, i = (k + j)%nat /\ nth_error l0 j = Some x).
  { intros k l0. revert k. induction l0 as [|y l0 IH]; intros k H; simpl in H;
      [contradiction|].
    destruct H as [H|H].
    - inversion H. subst. exists 0%nat. split; [lia|reflexivity].
    - destruct (IH (S k) H) as (j & -> & Hj). exists (S j). split; [lia|assumption]. }
  destruct (Hgen 0%nat l Hin) as (j & -> & Hj). assumption.
Qed.

Lemma clampNonNegativeInt_le (n : Q) :
  inject_Z (clampNonNegativeInt (Some n) 0) <= Qmax 0 n.
Proof.
  unfold clampNonNegativeInt.
  destruct (Z.max_spec 0 (Qfloor n)) as [[Hlt ->]|[Hle ->]].
  - eapply Qle_trans; [apply Qfloor_le|apply Q.le_max_r].
  - apply Q.le_max_l.
Qed.

Lemma preserveTurns_bound (n : Q) :
  inject_Z (2 * Z.min MAX_RECENT_TURNS_PRESERVE (clampNonNegativeInt (Some n) 0))
  <= 2 * Qmin 12 (Qmax 0 n).
Proof.
  unfold MAX_RECENT_TURNS_PRESERVE. rewrite inject_Z_mult.
  assert (Hm : inject_Z (Z.min 12 (clampNonNegativeInt (Some n) 0))
               <= Qmin 12 (Qmax 0 n)).
  { apply Q.min_glb.
    - change 12 with (inject_Z 12). rewrite <- Zle_Qle. apply Z.le_min_l.
    - eapply Qle_trans; [|apply clampNonNegativeInt_le].
      rewrite <- Zle_Qle. apply Z.le_min_r. }
  change (inject_Z 2) with 2. lra.
Qed.

(** C9, as the code has it.  The two returned lists are a partition of the
    input that keeps the input's order on each side: the input is an
    order-preserving merge of [summarizableMessages] and [preservedMessages].
    Every preserved message has role user or assistant, there are at most
    2 × min(12, max(0, recentTurnsPreserve)) of them, a negative
    [recentTurnsPreserve] counting as 0, and for [recentTurnsPreserve] = 0 the
    result is (messages, []). *)
Theorem splitPreservedRecentTurns_partition
    (messages : list AgentMessage) (recentTurnsPreserve : Q) :
  let split := splitPreservedRecentTurns messages recentTurnsPreserve in
  Interleaved (summarizableMessages split) (preservedMessages split) messages
  /\ (forall m, In m (preservedMessages split) ->
        role m = "user"%string \/ role m = "assistant"%string)
  /\ inject_Z (Z.of_nat (List.length (preservedMessages split)))
     <= 2 * Qmin 12 (Qmax 0 recentTurnsPreserve)
  /\ (recentTurnsPreserve == 0 ->
      split = {| summarizableMessages := messages; preservedMessages := [] |}).
Proof.
  intros split.
  assert (Hnone : forall l : list AgentMessage, Interleaved l [] l).
  { induction l as [|x l IH]; constructor; assumption. }
  assert (Hb0 : 0 <= 2 * Qmin 12 (Qmax 0 recentTurnsPreserve)).
  { assert (0 <= Qmin 12 (Qmax 0 recentTurnsPreserve))
      by (apply Q.min_glb; [lra|apply Q.le_max_l]).
    lra. }
  pose proof (preserveTurns_bound recentTurnsPreserve) as Hbound.
  unfold split, splitPreservedRecentTurns.
  set (preserveTurns :=
         Z.min MAX_RECENT_TURNS_PRESERVE
               (clampNonNegativeInt (Some recentTurnsPreserve) 0)) in *.
  destruct (preserveTurns <=? 0)%Z eqn:Ept; simpl.
  { split; [apply Hnone|]. split; [intros m []|]. split; [exact Hb0|reflexivity]. }
  apply Z.leb_gt in Ept.
  set (cands := collectCandidateIndexes _ _ _).
  assert (Hsound : Forall (fun i => exists m, nth_error messages i = Some m /\
                                              isUserOrAssistant m = true) cands).
  { apply collectCandidateIndexes_sound; [|constructor].
    intros i m Hin Hrole. exists m. split; [|assumption].
    apply indexed_nth_error. assumption. }
  assert (Hlen : (Z.of_nat (List.length cands) <= preserveTurns * 2)%Z).
  { apply collectCandidateIndexes_length. simpl. lia. }
  assert (Hzero : recentTurnsPreserve == 0 -> False).
  { intro H0. unfold preserveTurns, clampNonNegativeInt in Ept.
    rewrite (Qfloor_comp _ _ H0) in Ept.
    change (Qfloor 0) with 0%Z in Ept.
    unfold MAX_RECENT_TURNS_PRESERVE in Ept. lia. }
  destruct (List.length cands =? 0)%nat eqn:Ec; simpl.
  { split; [apply Hnone|]. split; [intros m []|].
    split; [exact Hb0|intro H0; reflexivity]. }
  assert (Hroles : Forall (fun m => isUserOrAssistant m = true)
                          (filteri (fun idx _ => indexSetHas idx cands) messages)).
  { apply filteri_from_Forall. intros j x Hj Hp. simpl in Hp.
    apply indexSetHas_In in Hp. rewrite Forall_forall in Hsound.
    destruct (Hsound j Hp) as (m & Hm & Hrole). congruence. }
  rewrite (filter_all _ _ Hroles).
  split; [apply (filteri_from_Interleaved (fun idx _ => indexSetHas idx cands))|].
  split.
  { intros m Hm. rewrite Forall_forall in Hroles. specialize (Hroles m Hm).
    unfold isUserOrAssistant in Hroles. apply orb_true_iff in Hroles.
    destruct Hroles as [H|H]; apply String.eqb_eq in H; [left|right]; assumption. }
  split; [|intro H0; destruct (Hzero H0)].
  eapply Qle_trans; [|exact Hbound].
  rewrite <- Zle_Qle.
  pose proof (filteri_indexSet_length cands messages) as Hle.
  fold preserveTurns. lia.
Qed.

(** C9 as stated fails for a negative [recentTurnsPreserve]: the code clamps
    it to 0 and preserves nothing, while 2 × min(12, recentTurnsPreserve) is
    negative. *)
Lemma splitPreservedRecentTurns_negative_counterexample :
  ~ (inject_Z (Z.of_nat (List.length
        (preservedMessages
           (splitPreservedRecentTurns [userMessage "ask"; assistantMessage "answer"]
                                      (-1)))))
     <= 2 * Qmin 12 (-1)).
Proof. vm_compute. intro H. apply H. reflexivity. Qed.

(** ** Substrings *)

Lemma startsWith_spec (s p : string) :
  startsWith s p = true <-> exists after : string, s = (p ++ after)%string.
Proof.
  revert s. induction p as [|c p IH]; intro s; simpl.
  - split; [intros _; exists s; reflexivity|intros _; destruct s; reflexivity].
  - destruct s as [|d s].
    + split; [discriminate|intros [after H]; discriminate].
    + simpl. rewrite andb_true_iff, Ascii.eqb_eq, IH. split.
      * intros [-> [after ->]]. exists after. reflexivity.
      * intros [after H]. inversion H. split; [reflexivity|exists after; reflexivity].
Qed.

Lemma includes_empty (sub : string) :
  includes EmptyString sub = startsWith EmptyString sub.
Proof. simpl. apply orb_false_r. Qed.

Lemma includes_String (c : ascii) (s sub : string) :
  includes (String c s) sub = startsWith (String c s) sub || includes s sub.
Proof. reflexivity. Qed.

Lemma includes_spec (s sub : string) :
  includes s sub = true <-> isSubstringOf sub s.
Proof.
  unfold isSubstringOf. split.
  - induction s as [|c s IH].
    + rewrite includes_empty. intro H.
      apply startsWith_spec in H. destruct H as [after ->].
      exists EmptyString, after. reflexivity.
    + rewrite includes_String, orb_true_iff. intros [H|H].
      * apply startsWith_spec in H. destruct H as [after H].
        exists EmptyString, after. assumption.
      * destruct (IH H) as (before & after & ->).
        exists (String c before), after. reflexivity.
  - intros (before & after & ->).
    induction before as [|c before IH].
    + assert (H : startsWith (sub ++ after) sub = true)
        by (apply startsWith_spec; exists after; reflexivity).
      change (EmptyString ++ sub ++ after)%string with (sub ++ after)%string.
      destruct (sub ++ after)%string.
      * rewrite includes_empty. assumption.
      * rewrite includes_String, H. reflexivity.
    + change (String c before ++ sub ++ after)%string
        with (String c (before ++ sub ++ after)).
      rewrite includes_String, IH. apply orb_true_r.
Qed.

(** ** Summary quality audit *)

Lemma length_zero_nil {T : Type} (l : list T) :
  (List.length l =? 0)%nat = true <-> l = [].
Proof.
  destruct l; simpl; split; intro H; try reflexivity; discriminate.
Qed.

Lemma missing_sections_nil (summary : string) (sections : list string) :
  flat_map (fun section =>
              if negb (includes summary section)
              then [("missing_section:" ++ section)%string] else [])
           sections = []
  <-> forall section, In section sections -> includes summary section = true.
Proof.
  induction sections as [|x l IH]; simpl.
  - split; [intros _ section []|reflexivity].
  - destruct (includes summary x) eqn:E; simpl.
    + rewrite IH. split.
      * intros H section [<-|Hin]; [assumption|apply H; assumption].
      * intros H section Hin. apply H. right. assumption.
    + split; [discriminate|]. intro H. specialize (H x (or_introl eq_refl)). congruence.
Qed.

Lemma missing_identifiers_nil (summary : string) (identifiers : list string) :
  filter (fun id => negb (includes summary id)) identifiers = []
  <-> forall id, In id identifiers -> includes summary id = true.
Proof.
  induction identifiers as [|x l IH]; simpl.
  - split; [intros _ id []|reflexivity].
  - destruct (includes summary x) eqn:E; simpl.
    + rewrite IH. split.
      * intros H id [<-|Hin]; [assumption|apply H; assumption].
      * intros H id Hin. apply H. right. assumption.
    + split; [discriminate|]. intro H. specialize (H x (or_introl eq_refl)). congruence.
Qed.

Lemma hasAskOverlap_Some (summary ask : string) :
  hasAskOverlap summary (Some ask) =
  if (String.length ask =? 0)%nat then true
  else if (List.length (firstn 8 (askTokens ask)) =? 0)%nat then true
  else existsb (fun token => includes (toLowerCase summary) token)
               (firstn 8 (askTokens ask)).
Proof. reflexivity. Qed.

Lemma hasAskOverlap_spec (summary : string) (latestAsk : option string) :
  hasAskOverlap summary latestAsk = true <->
  latestAsk = None
  \/ (exists ask, latestAsk = Some ask /\ askTokens ask = [])
  \/ (exists ask token,
        latestAsk = Some ask /\ In token (firstn 8 (askTokens ask)) /\
        isSubstringOf token (toLowerCase summary)).
Proof.
  destruct latestAsk as [ask|].
  2:{ split; [intros _; left; reflexivity|reflexivity]. }
  rewrite hasAskOverlap_Some.
  destruct (String.length ask =? 0)%nat eqn:Elen.
  { split; [intros _|reflexivity]. right. left. exists ask. split; [reflexivity|].
    destruct ask; [reflexivity|discriminate]. }
  destruct (List.length (firstn 8 (askTokens ask)) =? 0)%nat eqn:Etok.
  { split; [intros _|reflexivity]. right. left. exists ask. split; [reflexivity|].
    apply length_zero_nil in Etok. destruct (askTokens ask); [reflexivity|discriminate]. }
  rewrite existsb_exists. split.
  - intros (token & Hin & Hinc). right. right. exists ask, token.
    split; [reflexivity|]. split; [assumption|apply includes_spec; assumption].
  - intros [H|[(ask' & H & Hnil)|(ask' & token & H & Hin & Hsub)]];
      [discriminate| |]; inversion H; subst ask'.
    + rewrite Hnil in Etok. discriminate.
    + exists token. split; [assumption|apply includes_spec; assumption].
Qed.

(** C7.  The audit answers [ok] exactly when the summary contains the five
    required headings and every seed identifier, and the latest ask is null,
    or has no lowercase alphanumeric token of at least 5 characters, or has
    one of its first 8 such tokens inside the lowercased summary. *)
Theorem auditSummaryQuality_ok_iff
    (summary : string) (identifiers : list string) (latestAsk : option string) :
  ok (auditSummaryQuality summary identifiers latestAsk) = true <->
  (forall section, In section REQUIRED_SUMMARY_SECTIONS -> isSubstringOf section summary)
  /\ (forall id, In id identifiers -> isSubstringOf id summary)
  /\ (latestAsk = None
      \/ (exists ask, latestAsk = Some ask /\ askTokens ask = [])
      \/ (exists ask token,
            latestAsk = Some ask /\ In token (firstn 8 (askTokens ask)) /\
            isSubstringOf token (toLowerCase summary))).
Proof.
  rewrite <- hasAskOverlap_spec.
  assert (Hsec : (forall section, In section REQUIRED_SUMMARY_SECTIONS ->
                                  isSubstringOf section summary) <->
                 (forall section, In section REQUIRED_SUMMARY_SECTIONS ->
                                  includes summary section = true)).
  { split; intros H x Hx; apply includes_spec || apply (proj1 (includes_spec _ _));
      apply H; assumption. }
  assert (Hid : (forall id, In id identifiers -> isSubstringOf id summary) <->
                (forall id, In id identifiers -> includes summary id = true)).
  { split; intros H x Hx; apply includes_spec || apply (proj1 (includes_spec _ _));
      apply H; assumption. }
  rewrite Hsec, Hid, <- missing_sections_nil, <- missing_identifiers_nil.
  unfold auditSummaryQuality. cbv zeta. unfold ok.
  set (sections := flat_map _ REQUIRED_SUMMARY_SECTIONS).
  set (missing := filter _ identifiers).
  rewrite length_zero_nil.
  destruct (hasAskOverlap summary latestAsk) eqn:Eask; simpl negb; cbv iota.
  - destruct missing as [|id0 missing']; simpl.
    + split; [intro H; repeat split; assumption|intros (H & _ & _); assumption].
    + split; [|intros (_ & H & _); discriminate].
      intro H. apply app_eq_nil in H. destruct H as [_ H]. discriminate.
  - split; [|intros (_ & _ & H); discriminate].
    intro H. apply app_eq_nil in H. destruct H as [_ H]. discriminate.
Qed.

Example extractOpaqueIdentifiers_test1 :
  extractOpaqueIdentifiers
    "Track id a1b2c3d4e5f6 and URL https://example.com/a and /tmp/x.log plus port host.local:18789"
  = ["a1b2c3d4e5f6"; "https://example.com/a"; "/tmp/x.log"; "host.local:18789"]%string.
Proof. vm_compute. reflexivity. Qed.

Example extractOpaqueIdentifiers_test2 :
  extractOpaqueIdentifiers
    "Year 2026 count 42 port 18789 ticket 123456 URL https://example.com/a, path /tmp/x.log."
  = ["123456"; "https://example.com/a"; "/tmp/x.log"]%string.
Proof. vm_compute. reflexivity. Qed.

(** ** Soundness of the matcher *)

Lemma matchRepeat_sound {R : Type} (p : ascii -> bool) (s : string) :
  forall (min : nat) (max : option nat) (prev : option ascii)
         (k : option ascii -> string -> option R) (res : R),
  matchRepeat p min max prev s k = Some res ->
  exists (m rest : string) (prev' : option ascii),
    s = (m ++ rest)%string /\ InLanguage (Repeat p min max) m /\ k prev' rest = Some res.
Proof.
  induction s as [|c s IH]; intros min max prev k res H.
  - simpl in H. destruct (min =? 0)%nat eqn:E; [|discriminate].
    apply Nat.eqb_eq in E. subst min.
    exists EmptyString, EmptyString, prev. split; [reflexivity|]. split; [|assumption].
    simpl. split; [constructor|]. split; [lia|]. destruct max; [lia|exact I].
  - assert (Hstop : (if (min =? 0)%nat then k prev (String c s) else None) = Some res ->
              exists (m rest : string) (prev' : option ascii),
                String c s = (m ++ rest)%string /\ InLanguage (Repeat p min max) m /\
                k prev' rest = Some res).
    { intro Hs. destruct (min =? 0)%nat eqn:E; [|discriminate].
      apply Nat.eqb_eq in E. subst min.
      exists EmptyString, (String c s), prev. split; [reflexivity|]. split; [|assumption].
      simpl. split; [constructor|]. split; [lia|]. destruct max; [lia|exact I]. }
    simpl in H. destruct (p c && canRepeat max) eqn:Ec; [|apply Hstop; assumption].
    destruct (matchRepeat p (Nat.pred min) (option_map Nat.pred max) (Some c) s k)
      as [r|] eqn:Er; [|apply Hstop; assumption].
    inversion H. subst r.
    destruct (IH _ _ _ _ _ Er) as (m & rest & prev' & -> & (Hall & Hmin & Hmax) & Hk).
    apply andb_true_iff in Ec. destruct Ec as [Hpc Hcan].
    exists (String c m), rest, prev'. split; [reflexivity|]. split; [|assumption].
    simpl. split; [constructor; assumption|]. split; [lia|].
    destruct max as [[|n]|]; simpl in *; [discriminate|lia|exact I].
Qed.

Lemma matchRegex_sound {R : Type} (r : Regex) :
  forall (prev : option ascii) (s : string)
         (k : option ascii -> string -> option R) (res : R),
  matchRegex r prev s k = Some res ->
  exists (m rest : string) (prev' : option ascii),
    s = (m ++ rest)%string /\ InLanguage r m /\ k prev' rest = Some res.
Proof.
  induction r as [|p|r1 IH1 r2 IH2|r1 IH1 r2 IH2|p min max|];
    intros prev s k res H; simpl in H.
  - exists EmptyString, s, prev. repeat split; assumption.
  - destruct s as [|c s]; [discriminate|].
    destruct (p c) eqn:E; [|discriminate].
    exists (String c EmptyString), s, (Some c). split; [reflexivity|].
    split; [|assumption]. exists c. split; [reflexivity|assumption].
  - destruct (IH1 _ _ _ _ H) as (m1 & rest1 & prev1 & -> & H1 & Hk1).
    destruct (IH2 _ _ _ _ Hk1) as (m2 & rest2 & prev2 & -> & H2 & Hk2).
    exists (m1 ++ m2)%string, rest2, prev2.
    split; [|split; [exists m1, m2; repeat split; assumption|assumption]].
    clear. induction m1 as [|c m1 IH]; simpl; [reflexivity|]. rewrite IH. reflexivity.
  - destruct (matchRegex r1 prev s k) as [x|] eqn:E1.
    + inversion H. subst x.
      destruct (IH1 _ _ _ _ E1) as (m & rest & prev' & -> & Hm & Hk).
      exists m, rest, prev'. repeat split; [left|]; assumption.
    + destruct (IH2 _ _ _ _ H) as (m & rest & prev' & -> & Hm & Hk).
      exists m, rest, prev'. repeat split; [right|]; assumption.
  - apply matchRepeat_sound in H. exact H.
  - destruct (xorb (isWordAt prev) (isWordAt (headChar s))); [|discriminate].
    exists EmptyString, s, prev. repeat split; assumption.
Qed.

Lemma string_length_app (a b : string) :
  String.length (a ++ b) = (String.length a + String.length b)%nat.
Proof. induction a as [|c a IH]; simpl; [reflexivity|]. rewrite IH. reflexivity. Qed.

Lemma sliceString_app (m rest : string) :
  sliceString (String.length (m ++ rest) - String.length rest) (m ++ rest) = m.
Proof.
  rewrite string_length_app, Nat.add_sub.
  induction m as [|c m IH]; simpl.
  - destruct rest; reflexivity.
  - rewrite IH. reflexivity.
Qed.

Lemma matchAt_sound (r : Regex) (prev : option ascii) (s m : string) :
  matchAt r prev s = Some m -> InLanguage r m.
Proof.
  unfold matchAt.
  destruct (matchRegex r prev s (fun _ rest => Some rest)) as [rest|] eqn:E;
    [|discriminate].
  intro H. inversion H. subst m.
  destruct (matchRegex_sound _ _ _ _ _ E) as (m & rest' & _ & -> & Hm & Hk).
  inversion Hk. subst rest'. rewrite sliceString_app. assumption.
Qed.

Lemma matchAllFrom_sound (r : Regex) (s : string) :
  forall (prev : option ascii) (skip : nat) (m : string),
  In m (matchAllFrom r prev s skip) -> InLanguage r m.
Proof.
  induction s as [|c s IH]; intros prev skip m Hin; simpl in Hin.
  - destruct skip; [|contradiction].
    destruct (matchAt r prev EmptyString) as [m'|] eqn:E; [|contradiction].
    destruct Hin as [<-|[]]. eapply matchAt_sound; eassumption.
  - destruct skip as [|skip]; [|eapply IH; eassumption].
    destruct (matchAt r prev (String c s)) as [m'|] eqn:E; [|eapply IH; eassumption].
    destruct Hin as [<-|Hin]; [eapply matchAt_sound; eassumption|eapply IH; eassumption].
Qed.

Lemma matchAll_sound (r : Regex) (text m : string) :
  In m (matchAll r text) -> InLanguage r m.
Proof. apply matchAllFrom_sound. Qed.

Lemma InLanguage_lit (s m : string) : InLanguage (lit s) m -> m = s.
Proof.
  revert m. induction s as [|c s IH]; intros m H; simpl in H; [assumption|].
  destruct H as (m1 & m2 & -> & (c' & -> & Hc) & H2).
  apply Ascii.eqb_eq in Hc. subst c'. rewrite (IH _ H2). reflexivity.
Qed.

(** ** Characters and trimming *)

Lemma ascii_forall (P : ascii -> bool) :
  forallb P allAscii = true -> forall c, P c = true.
Proof.
  intros H c. rewrite forallb_forall in H. apply H.
  unfold allAscii. rewrite <- (ascii_nat_embedding c).
  apply in_map. apply in_seq. pose proof (nat_ascii_bounded c). lia.
Qed.

Lemma alnum_plain (c : ascii) :
  isAlnum c = true ->
  isSpace c = false /\ isLeadingWrap c = false /\ isTrailingWrap c = false.
Proof.
  intro H.
  pose proof (ascii_forall
    (fun c => implb (isAlnum c)
                (negb (isSpace c) && negb (isLeadingWrap c) && negb (isTrailingWrap c)))
    eq_refl c) as Hc.
  simpl in Hc. rewrite H in Hc. simpl in Hc.
  apply andb_true_iff in Hc. destruct Hc as [Hc H3].
  apply andb_true_iff in Hc. destruct Hc as [H1 H2].
  rewrite negb_true_iff in H1, H2, H3. repeat split; assumption.
Qed.

Lemma hex_alnum (c : ascii) : isHexDigit c = true -> isAlnum c = true.
Proof.
  intro H.
  pose proof (ascii_forall (fun c => implb (isHexDigit c) (isAlnum c)) eq_refl c) as Hc.
  simpl in Hc. rewrite H in Hc. exact Hc.
Qed.

Lemma digit_alnum (c : ascii) : isDigit c = true -> isAlnum c = true.
Proof. intro H. unfold isAlnum. rewrite H. reflexivity. Qed.

Lemma letter_plain (c : ascii) :
  isLetter c = true ->
  isDigit c = false /\ isSpace c = false /\ isLeadingWrap c = false.
Proof.
  intro H.
  pose proof (ascii_forall
    (fun c => implb (isLetter c)
                (negb (isDigit c) && negb (isSpace c) && negb (isLeadingWrap c)))
    eq_refl c) as Hc.
  simpl in Hc. rewrite H in Hc. simpl in Hc.
  apply andb_true_iff in Hc. destruct Hc as [Hc H3].
  apply andb_true_iff in Hc. destruct Hc as [H1 H2].
  rewrite negb_true_iff in H1, H2, H3. repeat split; assumption.
Qed.

Lemma host_char_plain (c : ascii) :
  isAlnum c || charAmong "._-" c = true ->
  isSpace c = false /\ isLeadingWrap c = false.
Proof.
  intro H.
  pose proof (ascii_forall
    (fun c => implb (isAlnum c || charAmong "._-" c)
                (negb (isSpace c) && negb (isLeadingWrap c)))
    eq_refl c) as Hc.
  simpl in Hc. rewrite H in Hc. simpl in Hc.
  apply andb_true_iff in Hc. destruct Hc as [H1 H2].
  rewrite negb_true_iff in H1, H2. split; assumption.
Qed.

Lemma dropWhile_keep (p : ascii -> bool) (c : ascii) (s : string) :
  p c = false -> dropWhile p (String c s) = String c s.
Proof. intro H. simpl. rewrite H. reflexivity. Qed.

Lemma dropWhile_head (p : ascii -> bool) (s : string) (c : ascii) :
  headChar (dropWhile p s) = Some c -> p c = false.
Proof.
  induction s as [|d s IH]; simpl; [discriminate|].
  destruct (p d) eqn:E; [assumption|]. simpl. intro H. inversion H. subst. assumption.
Qed.

Lemma dropWhileEnd_String (p : ascii -> bool) (c : ascii) (s : string) :
  dropWhileEnd p (String c s) = EmptyString
  \/ exists kept, dropWhileEnd p (String c s) = String c kept.
Proof.
  simpl. destruct (dropWhileEnd p s) as [|d kept].
  - destruct (p c); [left; reflexivity|right; exists EmptyString; reflexivity].
  - right. exists (String d kept). reflexivity.
Qed.

Lemma dropWhileEnd_headChar (p : ascii -> bool) (s : string) (c : ascii) :
  headChar (dropWhileEnd p s) = Some c -> headChar s = Some c.
Proof.
  destruct s as [|d s]; [simpl; discriminate|].
  destruct (dropWhileEnd_String p d s) as [->|[kept ->]]; simpl; [discriminate|].
  intro H. assumption.
Qed.

Lemma dropWhileEnd_last (p : ascii -> bool) (s : string) (c : ascii) :
  lastChar (dropWhileEnd p s) = Some c -> p c = false.
Proof.
  induction s as [|d s IH]; simpl; [discriminate|].
  destruct (dropWhileEnd p s) as [|e kept] eqn:E.
  - destruct (p d) eqn:Ed; simpl; [discriminate|].
    intro H. inversion H. subst. assumption.
  - intro H. apply IH. simpl in H. exact H.
Qed.

Lemma dropWhileEnd_id (p : ascii -> bool) (s : string) :
  (forall c, lastChar s = Some c -> p c = false) -> dropWhileEnd p s = s.
Proof.
  induction s as [|d s IH]; intro H; [reflexivity|].
  simpl. destruct s as [|e s].
  - simpl. rewrite (H d eq_refl). reflexivity.
  - rewrite IH; [reflexivity|]. intros c Hc. apply H. exact Hc.
Qed.

Lemma sanitize_stripped (value : string) :
  (forall c, headChar (sanitizeExtractedIdentifier value) = Some c ->
             isLeadingWrap c = false)
  /\ (forall c, lastChar (sanitizeExtractedIdentifier value) = Some c ->
                isTrailingWrap c = false).
Proof.
  unfold sanitizeExtractedIdentifier. split; intros c H.
  - apply dropWhileEnd_headChar in H. eapply dropWhile_head. eassumption.
  - eapply dropWhileEnd_last. eassumption.
Qed.

Lemma sanitize_id (m : string) :
  (forall c, headChar m = Some c -> isSpace c = false /\ isLeadingWrap c = false) ->
  (forall c, lastChar m = Some c -> isSpace c = false /\ isTrailingWrap c = false) ->
  sanitizeExtractedIdentifier m = m.
Proof.
  intros Hh Hl. destruct m as [|c0 m']; [reflexivity|].
  destruct (Hh c0 eq_refl) as [Hs Hw].
  unfold sanitizeExtractedIdentifier, trim.
  rewrite (dropWhile_keep _ _ _ Hs).
  rewrite (dropWhileEnd_id isSpace) by (intros c Hc; apply (Hl c Hc)).
  rewrite (dropWhile_keep _ _ _ Hw).
  apply dropWhileEnd_id. intros c Hc. apply (Hl c Hc).
Qed.

Lemma sanitize_first (c0 : ascii) (m' : string) :
  isSpace c0 = false -> isLeadingWrap c0 = false ->
  sanitizeExtractedIdentifier (String c0 m') = EmptyString
  \/ exists kept, sanitizeExtractedIdentifier (String c0 m') = String c0 kept.
Proof.
  intros Hs Hw. unfold sanitizeExtractedIdentifier, trim.
  rewrite (dropWhile_keep _ _ _ Hs).
  destruct (dropWhileEnd_String isSpace c0 m') as [->|[kept ->]];
    [left; reflexivity|].
  rewrite (dropWhile_keep _ _ _ Hw). apply dropWhileEnd_String.
Qed.

Lemma chars_app (a b : string) :
  list_ascii_of_string (a ++ b) = list_ascii_of_string a ++ list_ascii_of_string b.
Proof. induction a as [|c a IH]; simpl; [reflexivity|]. rewrite IH. reflexivity. Qed.

Lemma headChar_app (a b : string) (c : ascii) :
  headChar a = Some c -> headChar (a ++ b) = Some c.
Proof. destruct a; simpl; [discriminate|intro H; exact H]. Qed.

Lemma lastChar_app (a b : string) (c : ascii) :
  lastChar b = Some c -> lastChar (a ++ b) = Some c.
Proof.
  intro H. induction a as [|d a IH]; [assumption|].
  change (String d a ++ b)%string with (String d (a ++ b)).
  simpl. destruct (a ++ b)%string; [discriminate|assumption].
Qed.

Lemma Forall_headChar (P : ascii -> Prop) (s : string) (c : ascii) :
  Forall P (list_ascii_of_string s) -> headChar s = Some c -> P c.
Proof.
  destruct s; simpl; [discriminate|]. intros H E. inversion E. subst.
  inversion H. assumption.
Qed.

Lemma Forall_lastChar (P : ascii -> Prop) (s : string) (c : ascii) :
  Forall P (list_ascii_of_string s) -> lastChar s = Some c -> P c.
Proof.
  induction s as [|d s IH]; simpl; [discriminate|]. intros H E.
  inversion H; subst. destruct s; [inversion E; subst; assumption|].
  apply IH; assumption.
Qed.

Lemma nonempty_headChar (s : string) :
  (1 <= String.length s)%nat -> exists c, headChar s = Some c.
Proof. destruct s; simpl; [lia|]. intros _. eexists. reflexivity. Qed.

Lemma nonempty_lastChar (s : string) :
  (1 <= String.length s)%nat -> exists c, lastChar s = Some c.
Proof.
  induction s as [|d s IH]; simpl; [lia|]. intros _.
  destruct s; [eexists; reflexivity|]. apply IH. simpl. lia.
Qed.

(** ** Opaque identifiers *)

(** A run of plain characters is left as it is by the sanitizer. *)
Lemma sanitize_alnum_run (m : string) :
  Forall (fun c => isAlnum c = true) (list_ascii_of_string m) ->
  sanitizeExtractedIdentifier m = m.
Proof.
  intro H. apply sanitize_id; intros c Hc.
  - pose proof (Forall_headChar _ _ _ H Hc) as Ha. apply alnum_plain in Ha. tauto.
  - pose proof (Forall_lastChar _ _ _ H Hc) as Ha. apply alnum_plain in Ha. tauto.
Qed.

(** What a match of the identifier pattern looks like once sanitized: either
    it is unchanged and is a run of at least 6 characters or holds a colon, or
    it starts with a character that is no digit and that the sanitizer keeps. *)
Lemma opaque_match_shape (m : string) :
  InLanguage reOpaqueIdentifier m ->
  (sanitizeExtractedIdentifier m = m /\
   ((6 <= String.length m)%nat \/ In ":"%char (list_ascii_of_string m)))
  \/ (exists c0 m', m = String c0 m' /\ isDigit c0 = false /\
                    isSpace c0 = false /\ isLeadingWrap c0 = false).
Proof.
  intros [H|[H|[H|[H|[H|H]]]]].
  - (* hexadecimal run *)
    destruct H as (Hall & Hlen & _). left. split; [|left; lia].
    apply sanitize_alnum_run. eapply Forall_impl; [|exact Hall].
    intros c Hc. apply hex_alnum. assumption.
  - (* URL *)
    destruct H as (m1 & m2 & -> & H1 & _). apply InLanguage_lit in H1. subst m1.
    right. eexists. eexists. split; [reflexivity|]. repeat split; reflexivity.
  - (* POSIX path *)
    destruct H as (m1 & m2 & -> & H1 & _). apply InLanguage_lit in H1. subst m1.
    right. eexists. eexists. split; [reflexivity|]. repeat split; reflexivity.
  - (* Windows path *)
    destruct H as (m1 & m2 & -> & (c & -> & Hc) & _).
    right. exists c, m2. split; [reflexivity|]. apply letter_plain. assumption.
  - (* host and port *)
    destruct H as (a & m2 & -> & (Ha & Hla & _) & m3 & m4 & -> & Hdot &
                   b & m6 & -> & _ & m7 & d & -> & Hcolon & (Hd & Hld & _)).
    apply InLanguage_lit in Hdot, Hcolon. subst m3 m7.
    left. split.
    + apply sanitize_id; intros c Hc.
      * destruct (nonempty_headChar a Hla) as [c' Hc'].
        rewrite (headChar_app _ _ _ Hc') in Hc. inversion Hc. subst c'.
        apply host_char_plain. apply (Forall_headChar _ _ _ Ha Hc').
      * destruct (nonempty_lastChar d Hld) as [c' Hc'].
        rewrite (lastChar_app a _ _ (lastChar_app "." _ _
                   (lastChar_app b _ _ (lastChar_app ":" _ _ Hc')))) in Hc.
        inversion Hc. subst c'.
        pose proof (Forall_lastChar _ _ _ Hd Hc') as Hdig.
        apply digit_alnum, alnum_plain in Hdig. tauto.
    + right. rewrite !chars_app, !in_app_iff. right. right. right. left.
      left. reflexivity.
  - (* long number *)
    destruct H as (m1 & m2 & -> & -> & d & m3 & -> & (Hd & Hld & _) & ->).
    left. simpl append.
    assert (Hnil : (d ++ "")%string = d).
    { clear. induction d as [|c d IH]; simpl; [reflexivity|]. rewrite IH. reflexivity. }
    rewrite Hnil. split; [|left; assumption].
    apply sanitize_alnum_run. eapply Forall_impl; [|exact Hd].
    intros c Hc. apply digit_alnum. assumption.
Qed.

Lemma NoDup_firstn {T : Type} (n : nat) (l : list T) :
  NoDup l -> NoDup (firstn n l).
Proof.
  revert n. induction l as [|x l IH]; intros n H.
  - rewrite firstn_nil. constructor.
  - destruct n as [|n]; simpl; [constructor|].
    inversion H as [|? ? Hx Hl]; subst. constructor; [|apply IH; assumption].
    intro Hin. apply Hx. eapply In_firstn. eassumption.
Qed.

(** C8.  The extracted identifiers are at most 12, each has at least 4
    characters, they are pairwise distinct and stand in the order of their
    first occurrence among the sanitized matches; each is a sanitized match,
    so starts with no opening wrapper and ends with no closing punctuation;
    and none is a bare integer of 4 or 5 digits. *)
Theorem extractOpaqueIdentifiers_spec (text : string) :
  let candidates :=
    filter (fun value => (4 <=? String.length value)%nat)
      (map sanitizeExtractedIdentifier (matchAll reOpaqueIdentifier text)) in
  let out := extractOpaqueIdentifiers text in
  (List.length out <= 12)%nat
  /\ (forall e, In e out -> (4 <= String.length e)%nat)
  /\ NoDup out
  /\ out = firstn 12 (firstOccurrences candidates)
  /\ (forall e, In e out ->
        (exists m, In m (matchAll reOpaqueIdentifier text) /\
                   e = sanitizeExtractedIdentifier m)
        /\ (forall c, headChar e = Some c -> isLeadingWrap c = false)
        /\ (forall c, lastChar e = Some c -> isTrailingWrap c = false))
  /\ (forall e, In e out -> ~ isShortBareInteger e).
Proof.
  intros candidates out.
  assert (Hout : out = firstn 12 (firstOccurrences candidates)).
  { unfold out, extractOpaqueIdentifiers. cbv zeta.
    rewrite Set_from_firstOccurrences. reflexivity. }
  assert (Hcand : forall e, In e out ->
            (4 <= String.length e)%nat /\
            exists m, In m (matchAll reOpaqueIdentifier text) /\
                      e = sanitizeExtractedIdentifier m).
  { intros e He. rewrite Hout in He. apply In_firstn in He.
    apply (proj1 (firstOccurrences_In _ _)) in He. unfold candidates in He.
    apply filter_In in He. destruct He as [He Hlen].
    apply Nat.leb_le in Hlen. split; [assumption|].
    apply in_map_iff in He. destruct He as (m & <- & Hm). exists m.
    split; [assumption|reflexivity]. }
  split; [rewrite Hout; apply firstn_le_length|].
  split; [intros e He; apply (Hcand e He)|].
  split; [rewrite Hout; apply NoDup_firstn, firstOccurrences_NoDup|].
  split; [exact Hout|].
  split.
  - intros e He. destruct (Hcand e He) as [_ (m & Hm & ->)].
    split; [exists m; split; [assumption|reflexivity]|].
    apply sanitize_stripped.
  - intros e He [Hdigits Hlen].
    destruct (Hcand e He) as [Hlen4 (m & Hm & ->)].
    apply matchAll_sound in Hm.
    destruct (opaque_match_shape m Hm) as [[Hid [Hlong|Hcolon]]|(c0 & m' & -> & Hnd & Hs & Hw)].
    + rewrite Hid in Hlen. lia.
    + rewrite Hid in Hdigits. rewrite Forall_forall in Hdigits.
      specialize (Hdigits _ Hcolon). discriminate.
    + destruct (sanitize_first c0 m' Hs Hw) as [E|[kept E]]; rewrite E in *.
      * simpl in Hlen4. lia.
      * simpl in Hdigits. inversion Hdigits. congruence.
Qed.

(** ** The handler always answers with an artifact *)

Section HandlerFacts.

Variables Model SessionManager AbortSignal : Type.
Variable env : Collaborators Model SessionManager AbortSignal.





End HandlerFacts.

(** ** Errors of the summarization calls *)

Section HandlerFaults.

Variables Model SessionManager AbortSignal : Type.






End HandlerFaults.

(** ** Runs on the data of the test suites *)

Lemma searchVector_recency_scores_witness :
  recency sampleSearchParams =
    Some {| enabled := true; lambda := 0.08; windowDays := 14 |}
  /\ sortedDesc r_score (searchVector sampleSearchEnv sampleSearchParams)
  /\ map r_id (searchVector sampleSearchEnv sampleSearchParams) = ["new"; "old"]%string.
Proof.
  destruct (searchVector_recency_scores sampleSearchEnv sampleSearchParams
              {| enabled := true; lambda := 0.08; windowDays := 14 |}
              eq_refl eq_refl) as (Hsorted & _).
  split; [reflexivity|]. split; [exact Hsorted|reflexivity].
Defined.

Example splitPreservedRecentTurns_recent_pair :
  let messages := [userMessage "older ask"; assistantMessage "older answer";
                   userMessage "recent ask"; assistantMessage "recent answer"] in
  splitPreservedRecentTurns messages 1 =
  {| summarizableMessages := [userMessage "older ask"; assistantMessage "older answer"];
     preservedMessages := [userMessage "recent ask"; assistantMessage "recent answer"] |}.
Proof. reflexivity. Qed.

Example collectToolFailures_section :
  formatToolFailuresSection
    (collectToolFailures
       [toolResultMessage "call-1" "exec" true
          (Some {| status := Some "failed"%string; exitCode := Some 1%Z |})
          ["ENOENT: missing file"%string];
        toolResultMessage "call-2" "read" false None ["ok"%string]])
  = (nl ++ nl ++ "## Tool Failures" ++ nl ++
     "- exec (status=failed exitCode=1): ENOENT: missing file")%string.
Proof. reflexivity. Qed.

Example auditSummaryQuality_missing_sections :
  ok (auditSummaryQuality "Short summary without structure" ["abc12345"%string]
        (Some "Need a status update"%string)) = false.
Proof. reflexivity. Qed.

Example auditSummaryQuality_structured :
  let identifiers :=
    extractOpaqueIdentifiers
      "Track id a1b2c3d4e5f6 and URL https://example.com/a and /tmp/x.log plus port host.local:18789" in
  let summary :=
    join nl ["## Decisions"; "Keep current flow."; "## Open TODOs"; "None.";
             "## Constraints/Rules"; "Preserve identifiers.";
             "## Pending user asks"; "Explain post-compaction behavior.";
             "## Exact identifiers"; join ", " identifiers]%string in
  ok (auditSummaryQuality summary identifiers
        (Some "Explain post-compaction behavior for memory indexing"%string)) = true.
Proof. vm_compute. reflexivity. Qed.

Example extractOpaqueIdentifiers_dedupes_before_cap :
  let identifiers :=
    extractOpaqueIdentifiers
      ("a0b0c0d0 a0b0c0d0 a0b0c0d0 a0b0c0d0 a0b0c0d0 a0b0c0d0 a0b0c0d0 a0b0c0d0 a0b0c0d0 a0b0c0d0 " ++
       "b0000000 b0000001 b0000002 b0000003 b0000004 b0000005 " ++
       "b0000006 b0000007 b0000008 b0000009 b000000a b000000b") in
  List.length identifiers = 12%nat
  /\ hd_error identifiers = Some "a0b0c0d0"%string
  /\ In "b000000a"%string identifiers
  /\ ~ In "b000000b"%string identifiers.
Proof.
  vm_compute. repeat split; [tauto|].
  intro H. repeat (destruct H as [H|H]; [discriminate|]). exact H.
Qed.



(** An undefined [turnPrefixMessages] makes the handler throw as well, before
    it looks at the model. *)
Example handler_prefix_undefined :
  compactionSafeguardExtension
    (sampleCollaborators (fun _ => Ok sampleGoodSummary))
    {| preparation :=
         {| messagesToSummarize := [userMessage "Please check /tmp/x.log"];
            turnPrefixMessages := None;
            isSplitTurn := false;
            firstKeptEntryId := "entry-7";
            tokensBefore := None;
            previousSummary := None;
            settings := {| reserveTokens := 2000 |};
            fileOps := {| fo_read := []; fo_edited := []; fo_written := [] |} |};
       customInstructions := None;
       signal := tt |}
    sampleContext
  = Thrown "TypeError".
Proof. reflexivity. Qed.

(** The model fails: the handler answers with the fallback artifact. *)
Example handler_model_failure :
  compactionSafeguardExtension
    (sampleCollaborators (fun _ => Thrown "model call failed")) sampleEvent sampleContext
  = Ok {| compaction :=
            {| summary :=
                 (FALLBACK_SUMMARY ++ nl ++ nl ++ "## Tool Failures" ++ nl ++
                  "- exec (status=failed exitCode=1): ENOENT: missing file" ++
                  nl ++ nl ++ "<read-files>" ++ nl ++ "b.ts" ++ nl ++ "</read-files>" ++
                  nl ++ nl ++ "<modified-files>" ++ nl ++ "a.ts" ++ nl ++
                  "</modified-files>")%string;
               a_firstKeptEntryId := "entry-7";
               a_tokensBefore := Some 1000;
               a_details := {| readFiles := ["b.ts"]%string;
                               modifiedFiles := ["a.ts"]%string |} |} |}.
Proof. vm_compute. reflexivity. Qed.

(** The first summary fails the audit and the second one passes: the handler
    returns the second one, followed by the preserved turns, the tool
    failures and the file lists. *)
Example handler_quality_retry :
  let model (calls : nat) :=
    match calls with
    | O => Ok "Short summary without structure"%string
    | _ => Ok sampleGoodSummary
    end in
  match compactionSafeguardExtension (sampleCollaborators model) sampleEvent sampleContext with
  | Ok answer =>
      startsWith (summary (compaction answer)) sampleGoodSummary = true
      /\ includes (summary (compaction answer)) "## Recent turns preserved verbatim" = true
      /\ includes (summary (compaction answer)) "## Tool Failures" = true
      /\ a_firstKeptEntryId (compaction answer) = "entry-7"%string
  | Thrown _ => False
  end.
Proof. vm_compute. repeat split. Qed.

(* ================================================================= *)
(** * Part III: further properties of the sources *)
(* ================================================================= *)

Example buildFtsQuery_words :
  buildFtsQuery "hello, wor-ld  (x_1)"
  = Some (doubleQuote ++ "hello" ++ doubleQuote ++ " AND " ++
          doubleQuote ++ "wor" ++ doubleQuote ++ " AND " ++
          doubleQuote ++ "ld" ++ doubleQuote ++ " AND " ++
          doubleQuote ++ "x_1" ++ doubleQuote)%string
  /\ buildFtsQuery " ?! " = None.
Proof. split; reflexivity. Qed.

(** ** The threshold filter on any list *)

Lemma Subsequence_In {T : Type} (s l : list T) (x : T) :
  Subsequence s l -> In x s -> In x l.
Proof.
  induction 1 as [|y s l Hs IH|y s l Hs IH]; intro Hin.
  - assumption.
  - destruct Hin as [<-|Hin]; [left; reflexivity|right; apply IH; assumption].
  - right. apply IH. assumption.
Qed.

Lemma Subsequence_refl {T : Type} (l : list T) : Subsequence l l.
Proof. induction l; constructor; assumption. Qed.

Lemma applyDynamicThreshold_disabled {T : Type} (score : T -> Q) (results : list T) :
  applyDynamicThreshold score results false = results.
Proof. reflexivity. Qed.

Lemma applyDynamicThreshold_enabled {T : Type} (score : T -> Q) (results : list T) :
  applyDynamicThreshold score results true =
  match results with
  | [] => []
  | r0 :: _ =>
      filter (fun r => Qle_bool (calculateDynamicThreshold (score r0)) (score r)) results
  end.
Proof. destruct results; reflexivity. Qed.

(** X1.  Whatever the order of the input, the filter returns a subsequence of
    it; disabled, it returns the input itself; enabled, it returns no record
    whose score is below the floor 0.15. *)
Theorem applyDynamicThreshold_floor {T : Type} (score : T -> Q)
    (results : list T) (dynamicThreshold : bool) :
  let out := applyDynamicThreshold score results dynamicThreshold in
  Subsequence out results
  /\ (dynamicThreshold = false -> out = results)
  /\ (dynamicThreshold = true -> forall r, In r out -> 0.15 <= score r).
Proof.
  intro out. unfold out. destruct dynamicThreshold.
  - rewrite applyDynamicThreshold_enabled.
    split; [|split; [discriminate|]].
    + destruct results; [constructor|apply filter_Subsequence].
    + intros _ r Hr. destruct results as [|r0 rest]; [destruct Hr|].
      apply filter_In in Hr. destruct Hr as [_ Hr]. apply Qle_bool_iff in Hr.
      eapply Qle_trans; [apply calculateDynamicThreshold_floor|exact Hr].
  - rewrite applyDynamicThreshold_disabled.
    split; [apply Subsequence_refl|]. split; [reflexivity|discriminate].
Qed.

Lemma filter_sorted_prefix {T : Type} (score : T -> Q) (tau : Q) (l : list T) :
  sortedDesc score l ->
  exists k, filter (fun r => Qle_bool tau (score r)) l = firstn k l.
Proof.
  induction l as [|x l IH]; intro Hs; [exists 0%nat; reflexivity|].
  simpl. destruct (Qle_bool tau (score x)) eqn:E.
  - assert (Hl : sortedDesc score l) by (inversion Hs; assumption).
    destruct (IH Hl) as [k Hk]. exists (S k). simpl. rewrite Hk. reflexivity.
  - exists 0%nat. simpl. apply filter_none. intros y Hy.
    pose proof (sortedDesc_head_max T score x l Hs y (or_intror Hy)) as Hle.
    qbool. lra.
Qed.

(** X2.  On a list in descending score order the enabled filter cuts a tail
    off: its output is a prefix of the input. *)
Theorem applyDynamicThreshold_prefix {T : Type} (score : T -> Q) (results : list T) :
  sortedDesc score results ->
  exists k, applyDynamicThreshold score results true = firstn k results.
Proof.
  intro Hs. rewrite applyDynamicThreshold_enabled.
  destruct results as [|r0 rest]; [exists 0%nat; reflexivity|].
  apply filter_sorted_prefix. assumption.
Qed.

Lemma applyDynamicThreshold_prefix_witness :
  let r := [ {| scored_tag := 0; scored_score := 0.8 |};
             {| scored_tag := 1; scored_score := 0.5 |};
             {| scored_tag := 2; scored_score := 0.3 |} ] in
  sortedDesc scored_score r /\
  exists k, applyDynamicThreshold scored_score r true = firstn k r.
Proof.
  intro r.
  assert (Hs : sortedDesc scored_score r).
  { unfold sortedDesc, r. repeat constructor; simpl; lra. }
  split; [exact Hs|].
  exact (applyDynamicThreshold_prefix scored_score r Hs).
Defined.

(** ** The merge with the threshold, and the range of its scores *)


Lemma applyDynamicThreshold_In {T : Type} (score : T -> Q) (results : list T)
    (b : bool) (r : T) :
  In r (applyDynamicThreshold score results b) -> In r results.
Proof.
  destruct b; [|rewrite applyDynamicThreshold_disabled; trivial].
  rewrite applyDynamicThreshold_enabled.
  destruct results; [trivial|]. intro H. apply filter_In in H. apply H.
Qed.

Lemma mergeHybridResults_as_filter (vector : list HybridVectorResult)
    (keyword : list HybridKeywordResult) (vectorWeight textWeight : Q)
    (dynamicThreshold : option bool) :
  mergeHybridResults (mergeParams vector keyword vectorWeight textWeight dynamicThreshold)
  = applyDynamicThreshold score
      (mergeHybridResults (mergeParams vector keyword vectorWeight textWeight None))
      (match dynamicThreshold with Some b => b | None => false end).
Proof. reflexivity. Qed.

Lemma mergeHybridResults_full_sorted (vector : list HybridVectorResult)
    (keyword : list HybridKeywordResult) (vectorWeight textWeight : Q) :
  sortedDesc score
    (mergeHybridResults (mergeParams vector keyword vectorWeight textWeight None)).
Proof. apply (Array_sort_sorted HybridResult score). Qed.

(** X3.  With [dynamicThreshold] true the merge returns a prefix of what it
    returns without it, cut by the threshold of the best merged score: the
    best result is kept when its score reaches 0.15, nothing is returned when
    it does not, and no returned score is below 0.15. *)
Theorem mergeHybridResults_threshold (vector : list HybridVectorResult)
    (keyword : list HybridKeywordResult) (vectorWeight textWeight : Q) :
  let full :=
    mergeHybridResults (mergeParams vector keyword vectorWeight textWeight None) in
  let out :=
    mergeHybridResults (mergeParams vector keyword vectorWeight textWeight (Some true)) in
  (exists n, out = firstn n full)
  /\ (forall r, In r out -> 0.15 <= score r)
  /\ (full = [] -> out = [])
  /\ (forall r0 rest, full = r0 :: rest ->
        out = filter (fun r => Qle_bool (calculateDynamicThreshold (score r0)) (score r))
                     full
        /\ (0.15 <= score r0 -> hd_error out = Some r0)
        /\ (score r0 < 0.15 -> out = [])).
Proof.
  intros full out.
  assert (Hout : out = applyDynamicThreshold score full true)
    by apply mergeHybridResults_as_filter.
  assert (Hs : sortedDesc score full) by apply mergeHybridResults_full_sorted.
  rewrite Hout, applyDynamicThreshold_enabled.
  split.
  { destruct full as [|r0 rest]; [exists 0%nat; reflexivity|].
    apply filter_sorted_prefix. assumption. }
  split.
  { intros r Hr. destruct full as [|r0 rest]; [destruct Hr|].
    apply filter_In in Hr. destruct Hr as [_ Hr]. apply Qle_bool_iff in Hr.
    eapply Qle_trans; [apply calculateDynamicThreshold_floor|exact Hr]. }
  split; [intros ->; reflexivity|].
  intros r0 rest Hfull. rewrite Hfull in *.
  split; [reflexivity|]. split.
  - intro Htop. simpl.
    assert (Hk : Qle_bool (calculateDynamicThreshold (score r0)) (score r0) = true)
      by (apply Qle_bool_iff, threshold_below_top; assumption).
    rewrite Hk. reflexivity.
  - intro Hlow. apply filter_none. intros y Hy.
    pose proof (sortedDesc_head_max _ score r0 rest Hs y Hy) as Hle.
    pose proof (calculateDynamicThreshold_floor (score r0)) as Hfl.
    qbool. lra.
Qed.

Lemma mergedEntry_scores (vector : list HybridVectorResult)
    (keyword : list HybridKeywordResult) (e : MergeEntry) :
  In e (Map_values (mergeById vector keyword)) ->
  e_vectorScore e = vectorScoreOf (e_id e) vector
  /\ e_textScore e = textScoreOf (e_id e) keyword.
Proof.
  intro He. unfold Map_values in He. apply in_map_iff in He.
  destruct He as ([k e'] & He' & Hin). simpl in He'. subst e'.
  assert (Hk : e_id e = k) by (apply (mergeById_keyed vector keyword); assumption).
  apply Map_In_get in Hin.
  - rewrite Hk. apply (mergeKeyword_scores vector keyword k e Hin).
  - rewrite mergeById_keys. apply firstOccurrences_NoDup.
Qed.

Lemma mergeHybridResults_In (vector : list HybridVectorResult)
    (keyword : list HybridKeywordResult) (vectorWeight textWeight : Q)
    (dynamicThreshold : option bool) (r : HybridResult) :
  In r (mergeHybridResults
          (mergeParams vector keyword vectorWeight textWeight dynamicThreshold)) ->
  exists e, In e (Map_values (mergeById vector keyword))
            /\ r = mergedResult vectorWeight textWeight e.
Proof.
  rewrite mergeHybridResults_as_filter. intro Hr.
  apply applyDynamicThreshold_In in Hr.
  apply (Permutation_in _ (Array_sort_perm _ score _)) in Hr.
  apply in_map_iff in Hr. destruct Hr as (e & <- & He).
  exists e. split; [assumption|reflexivity].
Qed.

Lemma vectorScoreOf_range (id : string) (vector : list HybridVectorResult) :
  (forall r, In r vector -> 0 <= vectorScore r /\ vectorScore r <= 1) ->
  0 <= vectorScoreOf id vector /\ vectorScoreOf id vector <= 1.
Proof.
  induction vector as [|r vs IH] using rev_ind; intro H.
  - unfold vectorScoreOf. simpl. split; lra.
  - rewrite vectorScoreOf_snoc. destruct (String.eqb (v_id r) id).
    + apply H. apply in_or_app. right. left. reflexivity.
    + apply IH. intros x Hx. apply H. apply in_or_app. left. assumption.
Qed.

Lemma textScoreOf_range (id : string) (keyword : list HybridKeywordResult) :
  (forall r, In r keyword -> 0 <= textScore r /\ textScore r <= 1) ->
  0 <= textScoreOf id keyword /\ textScoreOf id keyword <= 1.
Proof.
  induction keyword as [|r ks IH] using rev_ind; intro H.
  - unfold textScoreOf. simpl. split; lra.
  - rewrite textScoreOf_snoc. destruct (String.eqb (k_id r) id).
    + apply H. apply in_or_app. right. left. reflexivity.
    + apply IH. intros x Hx. apply H. apply in_or_app. left. assumption.
Qed.

(** X4.  When the weights are not negative and the input scores lie in
    [0, 1], every merged score lies between 0 and vectorWeight + textWeight,
    with or without the threshold. *)
Theorem mergeHybridResults_score_range (vector : list HybridVectorResult)
    (keyword : list HybridKeywordResult) (vectorWeight textWeight : Q)
    (dynamicThreshold : option bool) :
  0 <= vectorWeight -> 0 <= textWeight ->
  (forall r, In r vector -> 0 <= vectorScore r /\ vectorScore r <= 1) ->
  (forall r, In r keyword -> 0 <= textScore r /\ textScore r <= 1) ->
  forall r,
    In r (mergeHybridResults
            (mergeParams vector keyword vectorWeight textWeight dynamicThreshold)) ->
    0 <= score r /\ score r <= vectorWeight + textWeight.
Proof.
  intros Hvw Htw Hv Hk r Hr.
  destruct (mergeHybridResults_In _ _ _ _ _ _ Hr) as (e & He & ->).
  destruct (mergedEntry_scores _ _ _ He) as [Hev Het].
  simpl. rewrite Hev, Het.
  destruct (vectorScoreOf_range (e_id e) vector Hv) as [Hv0 Hv1].
  destruct (textScoreOf_range (e_id e) keyword Hk) as [Ht0 Ht1].
  split; nra.
Qed.

Lemma mergeHybridResults_score_range_witness :
  let vector := [makeVectorResult "a" 0.8; makeVectorResult "b" 0.3] in
  let keyword := [makeKeywordResult "b" 0.5; makeKeywordResult "c" 0.2] in
  exists r,
    In r (mergeHybridResults (mergeParams vector keyword 0.7 0.3 (Some true)))
    /\ 0 <= score r /\ score r <= 0.7 + 0.3.
Proof.
  intros vector keyword.
  remember (mergeHybridResults (mergeParams vector keyword 0.7 0.3 (Some true)))
    as out eqn:E.
  destruct out as [|r rest]; [vm_compute in E; discriminate E|].
  exists r. split; [left; reflexivity|].
  apply (mergeHybridResults_score_range vector keyword 0.7 0.3 (Some true)).
  - lra.
  - lra.
  - intros x [<-|[<-|[]]]; simpl; split; lra.
  - intros x [<-|[<-|[]]]; simpl; split; lra.
  - rewrite <- E. left. reflexivity.
Defined.

(** ** Rank normalization *)

Lemma inverse_antitone (x y : Q) : 0 < x -> x <= y -> 1 / y <= 1 / x.
Proof.
  intros Hx Hxy. apply Qle_shift_div_r; [lra|].
  setoid_replace (1 / x * y) with (y / x) by (field; lra).
  apply Qle_shift_div_l; lra.
Qed.

Lemma bm25RankToScore_finite (r : Q) :
  bm25RankToScore (Finite r) = 1 / (1 + Qmax 0 r).
Proof. reflexivity. Qed.

(** X5.  The score of a rank lies in (0, 1].  It is 1 for every rank that is
    not positive, 1 / (1 + rank) for a positive rank, so it does not grow
    with the rank, and 1 / 1000 for a rank that is not finite. *)
Theorem bm25RankToScore_range :
  (forall rank, 0 < bm25RankToScore rank /\ bm25RankToScore rank <= 1)
  /\ (forall r, r <= 0 -> bm25RankToScore (Finite r) == 1)
  /\ (forall r, 0 <= r -> bm25RankToScore (Finite r) == 1 / (1 + r))
  /\ (forall r1 r2, r1 <= r2 ->
        bm25RankToScore (Finite r2) <= bm25RankToScore (Finite r1))
  /\ (forall rank, isFinite rank = false -> bm25RankToScore rank == 1 / 1000).
Proof.
  split; [|split; [|split; [|split]]].
  - intro rank.
    assert (H : exists n, 0 <= n /\ bm25RankToScore rank = 1 / (1 + n)).
    { destruct rank as [r| | |];
        [exists (Qmax 0 r); split; [apply Q.le_max_l|reflexivity]| | |];
        (exists 999; split; [lra|reflexivity]). }
    destruct H as (n & Hn & ->). split.
    + apply Qlt_shift_div_l; lra.
    + apply Qle_shift_div_r; lra.
  - intros r Hr. rewrite bm25RankToScore_finite, (Q.max_l 0 r Hr). reflexivity.
  - intros r Hr. rewrite bm25RankToScore_finite, (Q.max_r 0 r Hr). reflexivity.
  - intros r1 r2 H12. rewrite !bm25RankToScore_finite.
    pose proof (Q.le_max_l 0 r1) as H1.
    pose proof (Q.max_le_compat_l r1 r2 0 H12) as Hm.
    apply inverse_antitone; lra.
  - intros rank H. destruct rank; [discriminate| | |]; reflexivity.
Qed.

(** ** The words of a full-text query *)

Lemma string_app_nil_r (s : string) : (s ++ "")%string = s.
Proof. induction s as [|c s IH]; simpl; [reflexivity|]. rewrite IH. reflexivity. Qed.

Lemma string_app_assoc (a b c : string) :
  ((a ++ b) ++ c)%string = (a ++ b ++ c)%string.
Proof. induction a as [|x a IH]; simpl; [reflexivity|]. rewrite IH. reflexivity. Qed.

Lemma takeWhile_dropWhile (p : ascii -> bool) (s : string) :
  (takeWhile p s ++ dropWhile p s)%string = s.
Proof.
  induction s as [|c s IH]; simpl; [reflexivity|].
  destruct (p c); simpl; [rewrite IH|]; reflexivity.
Qed.

Lemma dropWhile_length (p : ascii -> bool) (s : string) :
  (String.length (dropWhile p s) <= String.length s)%nat.
Proof.
  induction s as [|c s IH]; simpl; [lia|]. destruct (p c); simpl; lia.
Qed.

Lemma matchRepeat_zero (p : ascii -> bool) (s : string) (prev : option ascii) :
  matchRepeat p 0 None prev s (fun _ rest => Some rest) = Some (dropWhile p s).
Proof.
  revert prev. induction s as [|c s IH]; intro prev; simpl; [reflexivity|].
  destruct (p c); simpl; [|reflexivity]. rewrite IH. reflexivity.
Qed.

Lemma matchAt_plus_hit (p : ascii -> bool) (prev : option ascii) (c : ascii)
    (s : string) :
  p c = true ->
  matchAt (plus p) prev (String c s) = Some (String c (takeWhile p s)).
Proof.
  intro Hc. unfold matchAt, plus. simpl matchRegex. simpl matchRepeat.
  rewrite Hc. cbn [andb canRepeat Nat.pred option_map]. rewrite matchRepeat_zero.
  f_equal.
  pose proof (sliceString_app (String c (takeWhile p s)) (dropWhile p s)) as H.
  change (String c (takeWhile p s) ++ dropWhile p s)%string
    with (String c (takeWhile p s ++ dropWhile p s)) in H.
  rewrite takeWhile_dropWhile in H. exact H.
Qed.

Lemma matchAt_plus_miss (p : ascii -> bool) (prev : option ascii) (c : ascii)
    (s : string) :
  p c = false -> matchAt (plus p) prev (String c s) = None.
Proof.
  intro Hc. unfold matchAt, plus. simpl matchRegex. simpl matchRepeat.
  rewrite Hc. reflexivity.
Qed.

Lemma matchAllFrom_skip_run (r : Regex) (p : ascii -> bool) (s : string) :
  forall prev, exists prev',
    matchAllFrom r prev s (String.length (takeWhile p s)) =
    matchAllFrom r prev' (dropWhile p s) 0.
Proof.
  induction s as [|c s IH]; intro prev.
  - exists prev. reflexivity.
  - simpl takeWhile. simpl dropWhile. destruct (p c).
    + simpl. apply IH.
    + exists prev. reflexivity.
Qed.

Lemma splitRuns_run (p : ascii -> bool) (s : string) :
  forall cur b,
    splitRuns (fun c => negb (p c)) s cur b =
    splitRuns (fun c => negb (p c)) (dropWhile p s) (cur ++ takeWhile p s)
      (if isEmptyString (takeWhile p s) then b else false).
Proof.
  induction s as [|c s IH]; intros cur b.
  - simpl. rewrite string_app_nil_r. reflexivity.
  - simpl. destruct (p c) eqn:Hc; simpl.
    + rewrite IH, string_app_assoc. simpl.
      destruct (isEmptyString (takeWhile p s)); reflexivity.
    + rewrite Hc. simpl. rewrite string_app_nil_r. reflexivity.
Qed.

Lemma matchAll_plus_words (p : ascii -> bool) (n : nat) :
  forall s, (String.length s <= n)%nat ->
  forall prev b,
    matchAllFrom (plus p) prev s 0 =
    filter (fun t => negb (isEmptyString t))
           (splitRuns (fun c => negb (p c)) s EmptyString b).
Proof.
  induction n as [|n IH]; intros s Hlen prev b.
  - destruct s; [reflexivity|simpl in Hlen; lia].
  - destruct s as [|c s]; [reflexivity|].
    simpl in Hlen.
    destruct (p c) eqn:Hc.
    + simpl matchAllFrom. rewrite (matchAt_plus_hit p prev c s Hc).
      change (String.length (String c (takeWhile p s)) - 1)%nat
        with (String.length (takeWhile p s) - 0)%nat.
      rewrite Nat.sub_0_r.
      destruct (matchAllFrom_skip_run (plus p) p s (Some c)) as [prev' ->].
      rewrite (IH (dropWhile p s)) with (b := true)
        by (pose proof (dropWhile_length p s); lia).
      simpl splitRuns. rewrite Hc. simpl negb. cbv iota.
      rewrite (splitRuns_run p s). simpl append.
      assert (Hflag : (if isEmptyString (takeWhile p s) then false else false) = false)
        by (destruct (isEmptyString (takeWhile p s)); reflexivity).
      rewrite Hflag.
      destruct (dropWhile p s) as [|e d] eqn:Hd; [reflexivity|].
      assert (He : p e = false)
        by (apply (dropWhile_head p s); rewrite Hd; reflexivity).
      simpl splitRuns. rewrite He. simpl. reflexivity.
    + simpl matchAllFrom. rewrite (matchAt_plus_miss p prev c s Hc).
      rewrite (IH s) with (b := true) by lia.
      simpl splitRuns. rewrite Hc. simpl negb. cbv iota.
      destruct b; reflexivity.
Qed.

Lemma matchAll_reFtsToken (raw : string) :
  matchAll reFtsToken raw = wordsOf raw.
Proof.
  unfold matchAll, reFtsToken, wordsOf, splitOn.
  apply (matchAll_plus_words isWordChar (String.length raw)). lia.
Qed.

Lemma word_char_plain (c : ascii) :
  isWordChar c = true -> isSpace c = false /\ Ascii.eqb c "034" = false.
Proof.
  intro H.
  pose proof (ascii_forall
    (fun c => implb (isWordChar c) (negb (isSpace c) && negb (Ascii.eqb c "034")))
    eq_refl c) as Hc.
  simpl in Hc. rewrite H in Hc. simpl in Hc.
  apply andb_true_iff in Hc. destruct Hc as [H1 H2].
  rewrite negb_true_iff in H1, H2. split; assumption.
Qed.

Lemma trim_plain (s : string) :
  Forall (fun c => isSpace c = false) (list_ascii_of_string s) -> trim s = s.
Proof.
  intro H. unfold trim. destruct s as [|c s]; [reflexivity|].
  rewrite dropWhile_keep by (inversion H; assumption).
  apply dropWhileEnd_id. intros d Hd. apply (Forall_lastChar _ _ _ H Hd).
Qed.

Lemma removeChar_absent (q : ascii) (s : string) :
  Forall (fun c => Ascii.eqb c q = false) (list_ascii_of_string s) ->
  removeChar q s = s.
Proof.
  induction s as [|c s IH]; simpl; intro H; [reflexivity|].
  inversion H as [|? ? Hc Hs]; subst. rewrite Hc, IH by assumption. reflexivity.
Qed.

Lemma fts_token_shape (raw t : string) :
  In t (matchAll reFtsToken raw) ->
  (1 <= String.length t)%nat
  /\ Forall (fun c => isWordChar c = true) (list_ascii_of_string t).
Proof.
  intro H. apply matchAll_sound in H. destruct H as (Hall & Hlen & _).
  split; assumption.
Qed.

Lemma map_id_in {T : Type} (f : T -> T) (l : list T) :
  (forall x, In x l -> f x = x) -> map f l = l.
Proof.
  induction l as [|x l IH]; simpl; intro H; [reflexivity|].
  rewrite (H x) by (left; reflexivity). rewrite IH; [reflexivity|].
  intros y Hy. apply H. right. assumption.
Qed.

Lemma matchAll_plus_none (p : ascii -> bool) (s : string) :
  forall prev,
    matchAllFrom (plus p) prev s 0 = [] <->
    Forall (fun c => p c = false) (list_ascii_of_string s).
Proof.
  induction s as [|c s IH]; intro prev.
  - split; [constructor|reflexivity].
  - simpl matchAllFrom. simpl list_ascii_of_string. destruct (p c) eqn:Hc.
    + rewrite (matchAt_plus_hit p prev c s Hc). split; [discriminate|].
      intro H. inversion H; congruence.
    + rewrite (matchAt_plus_miss p prev c s Hc), IH. split.
      * intro H. constructor; assumption.
      * intro H. inversion H; assumption.
Qed.

Lemma buildFtsQuery_tokens (raw : string) :
  filter (fun t => negb (isEmptyString t)) (map (fun t => trim t) (matchAll reFtsToken raw))
  = wordsOf raw.
Proof.
  rewrite map_id_in.
  - rewrite filter_all; [apply matchAll_reFtsToken|].
    apply Forall_forall. intros t Ht.
    destruct (fts_token_shape raw t Ht) as [Hlen _].
    destruct t; [simpl in Hlen; lia|reflexivity].
  - intros t Ht. destruct (fts_token_shape raw t Ht) as [_ Hall].
    apply trim_plain. eapply Forall_impl; [|exact Hall].
    intros c Hc. apply (word_char_plain c Hc).
Qed.

Lemma buildFtsQuery_eq (raw : string) :
  buildFtsQuery raw =
  match wordsOf raw with
  | [] => None
  | _ :: _ => Some (ftsQueryOf (wordsOf raw))
  end.
Proof.
  unfold buildFtsQuery. cbv zeta. rewrite buildFtsQuery_tokens.
  destruct (wordsOf raw) as [|w ws] eqn:Hw; [reflexivity|].
  cbn [List.length Nat.eqb]. unfold ftsQueryOf. f_equal. f_equal.
  apply map_ext_in. intros t Ht. rewrite removeChar_absent; [reflexivity|].
  rewrite <- Hw, <- matchAll_reFtsToken in Ht.
  destruct (fts_token_shape raw t Ht) as [_ Hall].
  eapply Forall_impl; [|exact Hall]. intros c Hc. apply (word_char_plain c Hc).
Qed.

(** X6.  The full-text query of a text is absent exactly when the text has no
    word character (letter, digit or underscore); otherwise it is the words of
    the text, each between double quotes, joined by AND.  The words are the
    non-empty pieces between the other characters, so none holds a quote or a
    space. *)
Theorem buildFtsQuery_words_spec (raw : string) :
  buildFtsQuery raw =
    match wordsOf raw with
    | [] => None
    | _ :: _ => Some (ftsQueryOf (wordsOf raw))
    end
  /\ (forall w, In w (wordsOf raw) ->
        (1 <= String.length w)%nat
        /\ Forall (fun c => isWordChar c = true) (list_ascii_of_string w))
  /\ (buildFtsQuery raw = None <->
      Forall (fun c => isWordChar c = false) (list_ascii_of_string raw)).
Proof.
  split; [apply buildFtsQuery_eq|]. split.
  - intros w Hw. rewrite <- matchAll_reFtsToken in Hw.
    apply (fts_token_shape raw w Hw).
  - rewrite buildFtsQuery_eq, <- (matchAll_plus_none isWordChar raw None).
    fold (matchAll (plus isWordChar) raw). fold reFtsToken.
    rewrite matchAll_reFtsToken.
    destruct (wordsOf raw); split; intro H; try reflexivity; discriminate.
Qed.

(** ** Keyword search *)

Lemma ftsQueryOf_nonempty (w : string) (ws : list string) :
  isEmptyString (ftsQueryOf (w :: ws)) = false.
Proof. unfold ftsQueryOf. simpl. destruct (map _ ws); reflexivity. Qed.

Lemma searchKeyword_rows (truncate : string -> Z -> string)
    (queryFtsTable : string -> Z -> list KeywordRow) (query : string)
    (limit snippetMaxChars : Z) :
  (0 < limit)%Z -> wordsOf query <> [] ->
  searchKeyword truncate (keywordParams queryFtsTable query limit snippetMaxChars) =
  map (fun row =>
         {| ks_id := krow_id row; ks_path := krow_path row;
            ks_startLine := krow_start_line row; ks_endLine := krow_end_line row;
            ks_score := bm25RankToScore (krow_rank row);
            ks_textScore := bm25RankToScore (krow_rank row);
            ks_snippet := truncate (krow_text row) snippetMaxChars;
            ks_source := krow_source row |})
      (queryFtsTable (ftsQueryOf (wordsOf query)) limit).
Proof.
  intros Hlimit Hwords. unfold searchKeyword, keywordParams. cbn -[buildFtsQuery ftsQueryOf wordsOf].
  apply Z.leb_gt in Hlimit. rewrite Hlimit, buildFtsQuery_eq.
  destruct (wordsOf query) as [|w ws]; [congruence|].
  rewrite ftsQueryOf_nonempty. reflexivity.
Qed.

Lemma searchKeyword_empty (truncate : string -> Z -> string)
    (queryFtsTable : string -> Z -> list KeywordRow) (query : string)
    (limit snippetMaxChars : Z) :
  (limit <= 0)%Z \/ wordsOf query = [] ->
  searchKeyword truncate (keywordParams queryFtsTable query limit snippetMaxChars) = [].
Proof.
  intro H. unfold searchKeyword, keywordParams. cbn -[buildFtsQuery ftsQueryOf wordsOf].
  destruct (limit <=? 0)%Z eqn:E; [reflexivity|].
  destruct H as [H|H]; [apply Z.leb_gt in E; lia|].
  rewrite buildFtsQuery_eq, H. reflexivity.
Qed.

(** X7.  A keyword search with the helpers of [hybrid.ts] returns nothing when
    the limit is not positive or the query has no word; otherwise it returns
    one result per row that the store gives for the words of the query,
    quoted and joined by AND, in the order of the rows.  Every result has its
    score equal to its text score, in (0, 1]. *)
Theorem searchKeyword_results (truncate : string -> Z -> string)
    (queryFtsTable : string -> Z -> list KeywordRow) (query : string)
    (limit snippetMaxChars : Z) :
  let out :=
    searchKeyword truncate (keywordParams queryFtsTable query limit snippetMaxChars) in
  ((limit <= 0)%Z \/ wordsOf query = [] -> out = [])
  /\ ((0 < limit)%Z -> wordsOf query <> [] ->
      map ks_id out = map krow_id (queryFtsTable (ftsQueryOf (wordsOf query)) limit)
      /\ map ks_snippet out =
         map (fun row => truncate (krow_text row) snippetMaxChars)
             (queryFtsTable (ftsQueryOf (wordsOf query)) limit)
      /\ map ks_score out =
         map (fun row => bm25RankToScore (krow_rank row))
             (queryFtsTable (ftsQueryOf (wordsOf query)) limit))
  /\ (forall r, In r out ->
        ks_score r = ks_textScore r /\ 0 < ks_score r /\ ks_score r <= 1).
Proof.
  intro out. split; [apply searchKeyword_empty|]. split.
  - intros Hlimit Hwords. unfold out.
    rewrite (searchKeyword_rows truncate queryFtsTable query limit snippetMaxChars
               Hlimit Hwords).
    rewrite !map_map. repeat split; reflexivity.
  - intros r Hr. unfold out in Hr.
    destruct (Z_lt_le_dec 0 limit) as [Hlimit|Hlimit].
    + destruct (wordsOf query) as [|w ws] eqn:Hw.
      * rewrite searchKeyword_empty in Hr by (right; assumption). destruct Hr.
      * rewrite searchKeyword_rows in Hr by (try assumption; rewrite Hw; discriminate).
        apply in_map_iff in Hr. destruct Hr as (row & <- & _). simpl.
        split; [reflexivity|].
        assert (Hrange : 0 < bm25RankToScore (krow_rank row)
                         /\ bm25RankToScore (krow_rank row) <= 1).
        { assert (H : exists n, 0 <= n /\
                        bm25RankToScore (krow_rank row) = 1 / (1 + n)).
          { destruct (krow_rank row) as [q| | |];
              [exists (Qmax 0 q); split; [apply Q.le_max_l|reflexivity]| | |];
              (exists 999; split; [lra|reflexivity]). }
          destruct H as (n & Hn & ->). split.
          - apply Qlt_shift_div_l; lra.
          - apply Qle_shift_div_r; lra. }
        exact Hrange.
    + rewrite searchKeyword_empty in Hr by (left; assumption). destruct Hr.
Qed.

Lemma StronglySorted_impl {T : Type} (R1 R2 : T -> T -> Prop) (l : list T) :
  (forall a b, R1 a b -> R2 a b) -> StronglySorted R1 l -> StronglySorted R2 l.
Proof.
  intros H. induction 1 as [|x l Hl IH Hx]; constructor; [assumption|].
  eapply Forall_impl; [|exact Hx]. intros b Hb. apply H. assumption.
Qed.

(** X8.  When the store returns its rows in ascending order of rank, the
    keyword search returns its results in descending order of score. *)
Theorem searchKeyword_sorted (truncate : string -> Z -> string)
    (queryFtsTable : string -> Z -> list KeywordRow) (query : string)
    (limit snippetMaxChars : Z) :
  (forall ftsQuery n, rankAscending (queryFtsTable ftsQuery n)) ->
  sortedDesc ks_score
    (searchKeyword truncate (keywordParams queryFtsTable query limit snippetMaxChars)).
Proof.
  intro Hrows.
  destruct (Z_lt_le_dec 0 limit) as [Hlimit|Hlimit];
    [|rewrite searchKeyword_empty by (left; assumption); constructor].
  destruct (wordsOf query) as [|w ws] eqn:Hw;
    [rewrite searchKeyword_empty by (right; assumption); constructor|].
  rewrite searchKeyword_rows by (try assumption; rewrite Hw; discriminate).
  apply StronglySorted_Sorted.
  apply StronglySorted_map with (R := fun a b => ks_score b <= ks_score a).
  simpl.
  apply StronglySorted_impl
    with (R1 := fun a b => exists ra rb,
                  krow_rank a = Finite ra /\ krow_rank b = Finite rb /\ ra <= rb).
  - intros a b (ra & rb & -> & -> & Hle). rewrite !bm25RankToScore_finite.
    pose proof (Q.le_max_l 0 ra) as H1.
    pose proof (Q.max_le_compat_l ra rb 0 Hle) as Hm.
    apply inverse_antitone; lra.
  - apply Sorted_StronglySorted; [|apply Hrows].
    intros a b c (ra & rb & Ha & Hb & Hab) (rb' & rc & Hb' & Hc & Hbc).
    exists ra, rc. split; [assumption|]. split; [assumption|].
    rewrite Hb in Hb'. inversion Hb'. subst rb'. lra.
Qed.

Lemma searchKeyword_sorted_witness :
  (forall ftsQuery n, rankAscending (sampleFtsTable ftsQuery n))
  /\ sortedDesc ks_score
       (searchKeyword (fun text _ => text)
          (keywordParams sampleFtsTable "alpha beta" 5 100)).
Proof.
  assert (H : forall ftsQuery n, rankAscending (sampleFtsTable ftsQuery n)).
  { intros ftsQuery n. unfold rankAscending, sampleFtsTable.
    repeat constructor. exists 0.5, 2. repeat split. lra. }
  split; [exact H|].
  exact (searchKeyword_sorted (fun text _ => text) sampleFtsTable "alpha beta" 5 100 H).
Defined.

(** ** Vector search: shape of the result *)

Lemma vectorRowScore_disabled (now : Q) (recency : option RecencyConfig)
    (row : VectorRow) :
  recencyEnabled recency = false ->
  vectorRowScore now recency row = 1 - row_dist row.
Proof.
  unfold vectorRowScore, recencyEnabled. destruct recency as [cfg|]; [|reflexivity].
  intros ->. reflexivity.
Qed.

(** X9.  The vector search returns nothing for an empty query vector or a
    limit that is not positive.  Without the vector index it returns at most
    [limit] results, in descending order of score, each for a stored chunk
    whose score is finite, with or without the recency penalty.  With the
    index it returns one result per row of the store: in the order of the
    store, with score 1 - dist, when the penalty is off, and re-ordered when
    it is on. *)
Theorem searchVector_shape (env : SearchEnv) (params : SearchVectorParams) :
  let out := searchVector env params in
  let ready := ensureVectorReady env (List.length (queryVec params)) in
  let rows := queryVectorTable env (queryVec params) (limit params) in
  (queryVec params = [] \/ (limit params <= 0)%Z -> out = [])
  /\ (ready = false ->
      sortedDesc r_score out
      /\ (Z.of_nat (List.length out) <= Z.max 0 (limit params))%Z
      /\ forall r, In r out ->
           exists chunk,
             In chunk (listChunks env) /\ r_id r = c_id chunk /\
             r_path r = c_path chunk /\
             chunkScore (Date_now env) (recency params) (queryVec params)
                        (cosineSimilarity env) chunk = Finite (r_score r))
  /\ (ready = true -> queryVec params <> [] -> (0 < limit params)%Z ->
      Permutation (map r_id out) (map row_id rows)
      /\ (recencyEnabled (recency params) = false ->
          map r_id out = map row_id rows
          /\ map r_score out = map (fun row => 1 - row_dist row) rows)).
Proof.
  intros out ready rows. unfold out, searchVector. fold ready. fold rows.
  split.
  { intros [H|H].
    - rewrite H. reflexivity.
    - apply Z.leb_le in H. rewrite H, orb_true_r. reflexivity. }
  destruct ((List.length (queryVec params) =? 0)%nat || (limit params <=? 0)%Z)
    eqn:Eearly.
  { split.
    - intros _. split; [constructor|]. split; [simpl; lia|intros r []].
    - intros _ Hq Hl. apply orb_true_iff in Eearly. destruct Eearly as [E|E].
      + apply Nat.eqb_eq in E. destruct (queryVec params); [congruence|discriminate].
      + apply Z.leb_le in E. lia. }
  split.
  - intros ->. split; [|split].
    + apply StronglySorted_Sorted.
      apply StronglySorted_map with (R := fun a b => r_score b <= r_score a).
      simpl. apply StronglySorted_firstn.
      apply (Array_sort_strongly_sorted _ (fun e => finiteValue (snd e))).
    + rewrite length_map. unfold slice0.
      pose proof (firstn_le_length (Z.to_nat (limit params))
                    (Array_sort (fun a b => finiteValue (snd b) - finiteValue (snd a))
                       (filter (fun entry => isFinite (snd entry))
                          (map (fun chunk =>
                                  (chunk, chunkScore (Date_now env) (recency params)
                                            (queryVec params) (cosineSimilarity env) chunk))
                               (listChunks env))))) as Hle.
      lia.
    + intros r Hr. apply in_map_iff in Hr. destruct Hr as ([chunk s] & <- & Hin).
      unfold slice0 in Hin. apply In_firstn in Hin.
      apply (Permutation_in _ (Array_sort_perm _ (fun e => finiteValue (snd e)) _)) in Hin.
      apply filter_In in Hin. destruct Hin as [Hin Hfin].
      apply in_map_iff in Hin. destruct Hin as (chunk' & Heq & Hchunk).
      injection Heq as Hc Hs. subst chunk'. cbn [fst snd] in *.
      exists chunk. split; [assumption|]. split; [reflexivity|]. split; [reflexivity|].
      rewrite Hs. destruct s; try discriminate. reflexivity.
  - intros -> _ _. split.
    + destruct (recencyEnabled (recency params)).
      * rewrite (Array_sort_perm _ r_score _), map_map. reflexivity.
      * rewrite map_map. reflexivity.
    + intro Hoff. rewrite Hoff, !map_map. split; [reflexivity|].
      apply map_ext. intro row. simpl.
      apply vectorRowScore_disabled. assumption.
Qed.

(** ** The effect of the recency penalty on a score *)

Lemma recencyPenalty_nonneg (updatedAt : option Q) (now lambda windowDays : Q) :
  0 <= lambda -> 0 < windowDays ->
  0 <= calculateRecencyPenalty updatedAt now lambda windowDays
  /\ calculateRecencyPenalty updatedAt now lambda windowDays <= lambda.
Proof.
  intros Hl HW. unfold calculateRecencyPenalty.
  destruct updatedAt as [u|]; [|split; lra].
  destruct (Qle_bool u now) eqn:E; simpl; [|split; lra]. qbool.
  assert (Hr : 0 <= (now - u) / msPerDay / windowDays).
  { apply Qle_shift_div_l; [lra|]. apply Qle_shift_div_l; [apply msPerDay_pos|]. lra. }
  pose proof (Q.le_min_l 1 ((now - u) / msPerDay / windowDays)) as H1.
  assert (H0 : 0 <= Qmin 1 ((now - u) / msPerDay / windowDays))
    by (apply Q.min_glb; [lra|assumption]).
  split; nra.
Qed.

Lemma recencyPenalty_newer (u1 u2 now lambda windowDays : Q) :
  0 <= lambda -> 0 < windowDays -> u1 <= u2 ->
  calculateRecencyPenalty (Some u2) now lambda windowDays <=
  calculateRecencyPenalty (Some u1) now lambda windowDays.
Proof.
  intros Hl HW H12.
  destruct (Qle_bool u2 now) eqn:E2.
  - qbool. rewrite !calculateRecencyPenalty_past by lra.
    rewrite !(Qmult_comm lambda). apply Qmult_le_compat_r; [|assumption].
    apply Q.min_le_compat_l. unfold Qdiv.
    apply Qmult_le_compat_r; [|apply Qlt_le_weak, Qinv_lt_0_compat; assumption].
    apply Qmult_le_compat_r; [lra|].
    apply Qlt_le_weak, Qinv_lt_0_compat, msPerDay_pos.
  - assert (H0 : calculateRecencyPenalty (Some u2) now lambda windowDays = 0)
      by (unfold calculateRecencyPenalty; rewrite E2; reflexivity).
    rewrite H0. apply recencyPenalty_nonneg; assumption.
Qed.

(** X10.  With the penalty on, a lambda that is not negative and a positive
    window, the score of a row is between (1 - dist) - lambda and
    max(0, 1 - dist): the penalty never raises a score and costs at most
    lambda.  A row without a timestamp, or with one in the future, keeps
    max(0, 1 - dist), and of two rows at the same distance the one updated
    later has the greater or equal score. *)
Theorem vectorRowScore_recency_effect (now : Q) (cfg : RecencyConfig) :
  enabled cfg = true -> 0 <= lambda cfg -> 0 < windowDays cfg ->
  (forall row,
     (1 - row_dist row) - lambda cfg <= vectorRowScore now (Some cfg) row
     /\ vectorRowScore now (Some cfg) row <= Qmax 0 (1 - row_dist row)
     /\ 0 <= vectorRowScore now (Some cfg) row)
  /\ (forall row,
        row_updated_at row = None \/
        (exists u, row_updated_at row = Some u /\ now < u) ->
        vectorRowScore now (Some cfg) row == Qmax 0 (1 - row_dist row))
  /\ (forall row1 row2 u1 u2,
        row_dist row1 == row_dist row2 ->
        row_updated_at row1 = Some u1 -> row_updated_at row2 = Some u2 ->
        u1 <= u2 ->
        vectorRowScore now (Some cfg) row1 <= vectorRowScore now (Some cfg) row2).
Proof.
  intros Hen Hl HW. split; [|split].
  - intro row. rewrite (vectorRowScore_enabled now cfg row Hen).
    destruct (recencyPenalty_nonneg (row_updated_at row) now (lambda cfg)
                (windowDays cfg) Hl HW) as [Hp0 Hp1].
    split; [|split].
    + eapply Qle_trans; [|apply Q.le_max_r]. lra.
    + apply Q.max_le_compat_l. lra.
    + apply Q.le_max_l.
  - intros row H. rewrite (vectorRowScore_enabled now cfg row Hen).
    assert (Hp : calculateRecencyPenalty (row_updated_at row) now (lambda cfg)
                   (windowDays cfg) = 0).
    { destruct H as [->|(u & -> & Hu)]; [reflexivity|].
      unfold calculateRecencyPenalty.
      destruct (Qle_bool u now) eqn:E; [qbool; lra|reflexivity]. }
    rewrite Hp. apply Q.max_compat; [reflexivity|ring].
  - intros row1 row2 u1 u2 Hd H1 H2 H12.
    rewrite !(vectorRowScore_enabled now cfg _ Hen), H1, H2.
    pose proof (recencyPenalty_newer u1 u2 now (lambda cfg) (windowDays cfg)
                  Hl HW H12) as Hp.
    apply Q.max_le_compat_l. lra.
Qed.

Lemma vectorRowScore_recency_effect_witness :
  let cfg := {| enabled := true; lambda := 0.08; windowDays := 14 |} in
  let row := {| row_id := "old"; row_path := "/old"; row_start_line := 1;
                row_end_line := 2; row_text := "old text";
                row_source := "memory"%string; row_dist := 0.2;
                row_updated_at := Some (1000000000 - 10 * 86400000) |} in
  0.8 - 0.08 <= vectorRowScore 1000000000 (Some cfg) row
  /\ vectorRowScore 1000000000 (Some cfg) row <= 0.8.
Proof.
  intros cfg row.
  destruct (vectorRowScore_recency_effect 1000000000 cfg eq_refl) as [H _];
    [simpl; lra|simpl; lra|].
  destruct (H row) as (H1 & H2 & _). simpl row_dist in *. simpl lambda in *.
  split.
  - eapply Qle_trans; [|exact H1]. lra.
  - eapply Qle_trans; [exact H2|]. apply Q.max_lub; lra.
Defined.

(** ** The two clamped settings *)

Lemma Qfloor_below_one (q : Q) : q < 1 -> (Qfloor q < 1)%Z.
Proof.
  intro H. rewrite Zlt_Qlt. eapply Qle_lt_trans; [apply Qfloor_le|exact H].
Qed.

Lemma Qfloor_at_least (n : Z) (q : Q) : inject_Z n <= q -> (n <= Qfloor q)%Z.
Proof.
  intro H. rewrite <- (Qfloor_Z n). apply Qfloor_resp_le. assumption.
Qed.

(** X11.  Whatever the configured value, the number of preserved turns is
    resolved to an integer between 0 and 12 and the number of quality retries
    to an integer between 0 and 3.  A value that is no finite number gives
    the defaults 3 and 1, an integer in range is kept, a value of at least the
    cap gives the cap, and a value below 1, negative ones included, gives 0. *)
Theorem resolve_settings_clamped :
  (forall value,
     (0 <= resolveRecentTurnsPreserve value <= 12)%Z
     /\ (0 <= resolveQualityGuardMaxRetries value <= 3)%Z)
  /\ resolveRecentTurnsPreserve None = 3%Z
  /\ resolveQualityGuardMaxRetries None = 1%Z
  /\ (forall n : Z, (0 <= n <= 12)%Z ->
        resolveRecentTurnsPreserve (Some (inject_Z n)) = n)
  /\ (forall n : Z, (0 <= n <= 3)%Z ->
        resolveQualityGuardMaxRetries (Some (inject_Z n)) = n)
  /\ (forall q, 12 <= q -> resolveRecentTurnsPreserve (Some q) = 12%Z)
  /\ (forall q, 3 <= q -> resolveQualityGuardMaxRetries (Some q) = 3%Z)
  /\ (forall q, q < 1 ->
        resolveRecentTurnsPreserve (Some q) = 0%Z
        /\ resolveQualityGuardMaxRetries (Some q) = 0%Z).
Proof.
  unfold resolveRecentTurnsPreserve, resolveQualityGuardMaxRetries,
    clampNonNegativeInt, MAX_RECENT_TURNS_PRESERVE, MAX_QUALITY_GUARD_MAX_RETRIES.
  split; [intro value; lia|].
  split; [reflexivity|]. split; [reflexivity|].
  split; [intros n Hn; rewrite Qfloor_Z; lia|].
  split; [intros n Hn; rewrite Qfloor_Z; lia|].
  split.
  { intros q Hq. pose proof (Qfloor_at_least 12 q Hq). lia. }
  split.
  { intros q Hq. pose proof (Qfloor_at_least 3 q Hq). lia. }
  intros q Hq. pose proof (Qfloor_below_one q Hq). lia.
Qed.

(** ** Tool failures *)

Lemma sliceString_length (n : nat) (s : string) :
  String.length (sliceString n s) = Nat.min n (String.length s).
Proof.
  revert s. induction n as [|n IH]; intro s; [reflexivity|].
  destruct s as [|c s]; simpl; [reflexivity|]. rewrite IH. reflexivity.
Qed.

Lemma truncateFailureText_fits (text : string) (maxChars : nat) :
  (String.length text <= maxChars)%nat -> truncateFailureText text maxChars = text.
Proof.
  intro H. unfold truncateFailureText. apply Nat.leb_le in H. rewrite H. reflexivity.
Qed.

Lemma truncateFailureText_cut (text : string) (maxChars : nat) :
  (maxChars < String.length text)%nat ->
  truncateFailureText text maxChars = (sliceString (maxChars - 3) text ++ "...")%string.
Proof.
  intro H. unfold truncateFailureText. apply Nat.leb_gt in H. rewrite H.
  rewrite Nat.max_0_l. reflexivity.
Qed.

Lemma truncateFailureText_length (text : string) (maxChars : nat) :
  (String.length (truncateFailureText text maxChars) <= Nat.max maxChars 3)%nat.
Proof.
  destruct (Nat.le_gt_cases (String.length text) maxChars) as [H|H].
  - rewrite truncateFailureText_fits by assumption. lia.
  - rewrite truncateFailureText_cut by assumption.
    rewrite string_length_app, sliceString_length. simpl. lia.
Qed.

(** X12.  A failure text that fits in [maxChars] characters is kept; a longer
    one is cut to its first [maxChars - 3] characters followed by three dots,
    which makes exactly [maxChars] characters when [maxChars] is at least 3.
    The result never has more than max(maxChars, 3) characters. *)
Theorem truncateFailureText_spec (text : string) (maxChars : nat) :
  let out := truncateFailureText text maxChars in
  ((String.length text <= maxChars)%nat -> out = text)
  /\ ((maxChars < String.length text)%nat ->
      out = (sliceString (maxChars - 3) text ++ "...")%string
      /\ ((3 <= maxChars)%nat -> String.length out = maxChars))
  /\ (String.length out <= Nat.max maxChars 3)%nat.
Proof.
  intro out. split; [apply truncateFailureText_fits|].
  split; [|apply truncateFailureText_length].
  intro H. split; [apply truncateFailureText_cut; assumption|].
  intro H3. unfold out. rewrite truncateFailureText_cut by assumption.
  rewrite string_length_app, sliceString_length. simpl. lia.
Qed.

(** What the loop of [collectToolFailures] has established after the messages
    [done]. *)
Definition toolFailuresCollected (done : list AgentMessage)
    (state : list ToolFailure * list string) : Prop :=
  snd state = map f_toolCallId (fst state)
  /\ NoDup (snd state)
  /\ (forall f, In f (fst state) ->
        (exists m, In m done /\ isFailedToolResult m (f_toolCallId f)
                   /\ f_meta f = formatToolFailureMeta (details m))
        /\ (1 <= String.length (f_summary f) <= MAX_TOOL_FAILURE_CHARS)%nat
        /\ (1 <= String.length (f_toolName f))%nat)
  /\ (forall m id, In m done -> isFailedToolResult m id -> In id (snd state)).

Lemma truncateFailureText_nonempty (text : string) (maxChars : nat) :
  (1 <= String.length text)%nat ->
  (1 <= String.length (truncateFailureText text maxChars))%nat.
Proof.
  intro H. destruct (Nat.le_gt_cases (String.length text) maxChars) as [H'|H'].
  - rewrite truncateFailureText_fits by assumption. assumption.
  - rewrite truncateFailureText_cut by assumption.
    rewrite string_length_app. simpl. lia.
Qed.

Lemma isEmptyString_false (s : string) :
  isEmptyString s = false <-> (1 <= String.length s)%nat.
Proof. unfold isEmptyString. rewrite Nat.eqb_neq. lia. Qed.

Lemma isEmptyString_true (s : string) :
  isEmptyString s = true <-> s = EmptyString.
Proof.
  unfold isEmptyString. rewrite Nat.eqb_eq.
  destruct s; simpl; split; intro H; try reflexivity; discriminate.
Qed.

Lemma collectToolFailureStep_collected (done : list AgentMessage)
    (state : list ToolFailure * list string) (message : AgentMessage) :
  toolFailuresCollected done state ->
  toolFailuresCollected (done ++ [message]) (collectToolFailureStep state message).
Proof.
  destruct state as [failures seen].
  intros (Hseen & Hnd & Hsound & Hcompl). simpl in Hseen, Hnd, Hsound, Hcompl.
  assert (Hkeep : (forall id, isFailedToolResult message id -> In id seen) ->
                  toolFailuresCollected (done ++ [message]) (failures, seen)).
  { intro Hm. split; [assumption|]. split; [assumption|]. split.
    - intros f Hf. destruct (Hsound f Hf) as ((m & Hin & Hm') & Hrest).
      split; [|assumption]. exists m. split; [|assumption].
      apply in_or_app. left. assumption.
    - simpl. intros m id Hin Hq. apply in_app_or in Hin.
      destruct Hin as [Hin|[<-|[]]]; [apply (Hcompl m id Hin Hq)|apply Hm; assumption]. }
  unfold collectToolFailureStep.
  destruct (String.eqb (role message) "toolResult") eqn:Hrole; simpl negb; cbv iota.
  2:{ apply Hkeep. intros id (Hr & _). apply String.eqb_neq in Hrole. contradiction. }
  destruct (isError message) eqn:Herr; simpl negb; cbv iota.
  2:{ apply Hkeep. intros id (_ & He & _). congruence. }
  apply String.eqb_eq in Hrole.
  destruct (isEmptyString
              match toolCallId message with Some id => id | None => EmptyString end)
    eqn:Hempty; simpl orb; cbv iota.
  { apply Hkeep. intros id (_ & _ & Hid & Hne). rewrite Hid in Hempty.
    apply isEmptyString_true in Hempty. contradiction. }
  destruct (toolCallId message) as [id|] eqn:Hid; [|discriminate Hempty].
  destruct (Set_has id seen) eqn:Hhas.
  { apply Hkeep. intros id' (_ & _ & Hid' & _). rewrite Hid in Hid'. injection Hid' as <-.
    apply Set_has_In. assumption. }
  assert (Hnew : ~ In id seen).
  { intro H. apply Set_has_In in H. congruence. }
  assert (Hadd : Set_add id seen = seen ++ [id]).
  { unfold Set_add. rewrite Hhas. reflexivity. }
  assert (Hq : isFailedToolResult message id).
  { repeat split; try assumption. intros ->. discriminate Hempty. }
  rewrite Hadd. split; [|split; [|split]]; simpl fst; simpl snd.
  - rewrite map_app, Hseen. reflexivity.
  - apply NoDup_app; [assumption|repeat constructor; intros []|].
    intros y Hy [<-|[]]. contradiction.
  - intros f Hf. apply in_app_or in Hf. destruct Hf as [Hf|[<-|[]]].
    + destruct (Hsound f Hf) as ((m & Hin & Hm') & Hrest).
      split; [|assumption]. exists m. split; [|assumption].
      apply in_or_app. left. assumption.
    + simpl. split; [|split; [split|]].
      * exists message. split; [apply in_or_app; right; left; reflexivity|].
        split; [assumption|reflexivity].
      * apply truncateFailureText_nonempty.
        destruct (isEmptyString (normalizeFailureText
                                   (extractToolResultText (content message)))) eqn:E.
        -- destruct (formatToolFailureMeta (details message)); simpl; lia.
        -- apply isEmptyString_false. assumption.
      * apply (truncateFailureText_length _ MAX_TOOL_FAILURE_CHARS).
      * destruct (toolName message) as [name|]; [|simpl; lia].
        destruct (isEmptyString (trim name)) eqn:E; [simpl; lia|].
        destruct name; [discriminate E|simpl; lia].
  - intros m id' Hin Hq'. apply in_or_app. apply in_app_or in Hin.
    destruct Hin as [Hin|[<-|[]]]; [left; apply (Hcompl m id' Hin Hq')|].
    right. left. destruct Hq' as (_ & _ & Hid' & _). congruence.
Qed.

Lemma collectToolFailures_collected (messages : list AgentMessage) :
  toolFailuresCollected messages
    (fold_left collectToolFailureStep messages ([], [])).
Proof.
  induction messages as [|message done IH] using rev_ind.
  - simpl. split; [reflexivity|]. split; [constructor|].
    split; [intros f []|intros m id []].
  - rewrite fold_left_app. simpl. apply collectToolFailureStep_collected. assumption.
Qed.

(** X13.  The failures collected from the messages have pairwise different
    call ids; each one comes from a failed tool result of the messages that
    carries its non-empty call id and its details, has a summary of 1 to 240
    characters and a non-empty tool name; and every failed tool result with a
    non-empty call id is represented by a failure with that id. *)
Theorem collectToolFailures_spec (messages : list AgentMessage) :
  let failures := collectToolFailures messages in
  NoDup (map f_toolCallId failures)
  /\ (forall f, In f failures ->
        (exists m, In m messages /\ isFailedToolResult m (f_toolCallId f)
                   /\ f_meta f = formatToolFailureMeta (details m))
        /\ (1 <= String.length (f_summary f) <= 240)%nat
        /\ (1 <= String.length (f_toolName f))%nat)
  /\ (forall m id, In m messages -> isFailedToolResult m id ->
        exists f, In f failures /\ f_toolCallId f = id).
Proof.
  intro failures. unfold failures, collectToolFailures.
  destruct (collectToolFailures_collected messages) as (Hseen & Hnd & Hsound & Hcompl).
  split; [rewrite <- Hseen; assumption|]. split; [exact Hsound|].
  intros m id Hin Hq. pose proof (Hcompl m id Hin Hq) as H.
  rewrite Hseen in H. apply in_map_iff in H. destruct H as (f & Hf & Hin').
  exists f. split; assumption.
Qed.

Lemma startsWith_app (prefix rest : string) :
  startsWith (prefix ++ rest) prefix = true.
Proof.
  induction prefix as [|c prefix IH]; simpl; [destruct rest; reflexivity|].
  rewrite Ascii.eqb_refl. assumption.
Qed.

Lemma formatToolFailuresSection_empty (failures : list ToolFailure) :
  formatToolFailuresSection failures = EmptyString <-> failures = [].
Proof.
  unfold formatToolFailuresSection. destruct failures as [|f failures].
  - split; reflexivity.
  - split; intro H; discriminate H.
Qed.

(** X14.  The tool-failure section of the summary is empty exactly when no
    message is a failed tool result with a non-empty call id; otherwise it
    starts with two line feeds and the heading.  Failures after the eighth
    contribute only to the count of the last line. *)
Theorem formatToolFailuresSection_spec (messages : list AgentMessage) :
  let section := formatToolFailuresSection (collectToolFailures messages) in
  (section = EmptyString <->
   forall m id, In m messages -> ~ isFailedToolResult m id)
  /\ (section <> EmptyString ->
      startsWith section (nl ++ nl ++ "## Tool Failures" ++ nl) = true)
  /\ (forall others,
        firstn MAX_TOOL_FAILURES others =
          firstn MAX_TOOL_FAILURES (collectToolFailures messages) ->
        List.length others = List.length (collectToolFailures messages) ->
        formatToolFailuresSection others = section).
Proof.
  intro section. subst section.
  destruct (collectToolFailures_collected messages) as (Hseen & _ & Hsound & Hcompl).
  fold (collectToolFailures messages) in Hseen, Hsound.
  split; [|split].
  - rewrite formatToolFailuresSection_empty. split.
    + intros Hnil m id Hin Hq. specialize (Hcompl m id Hin Hq).
      rewrite Hseen, Hnil in Hcompl. destruct Hcompl.
    + intro Hno. destruct (collectToolFailures messages) as [|f failures]; [reflexivity|].
      destruct (Hsound f (or_introl eq_refl)) as ((m & Hin & Hq & _) & _).
      destruct (Hno m _ Hin Hq).
  - intro Hne. unfold formatToolFailuresSection in *.
    destruct (List.length (collectToolFailures messages) =? 0)%nat;
      [destruct Hne; reflexivity|].
    match goal with
    | |- startsWith (_ ++ _ ++ _ ++ _ ++ join nl ?lines)%string _ = true =>
        exact (startsWith_app (nl ++ nl ++ "## Tool Failures" ++ nl) (join nl lines))
    end.
  - intros others Hfirst Hlen. unfold formatToolFailuresSection.
    rewrite Hfirst, Hlen. reflexivity.
Qed.

(** ** File lists *)

Lemma sortInsert_permutation {T : Type} (cmp : T -> T -> Q) (x : T) (l : list T) :
  Permutation (sortInsert cmp x l) (x :: l).
Proof.
  induction l as [|y l IH]; simpl; [reflexivity|].
  destruct (Qle_bool (cmp x y) 0); [reflexivity|].
  rewrite IH. apply perm_swap.
Qed.

Lemma Array_sort_permutation {T : Type} (cmp : T -> T -> Q) (l : list T) :
  Permutation (Array_sort cmp l) l.
Proof.
  induction l as [|x l IH]; simpl; [reflexivity|].
  rewrite sortInsert_permutation. constructor. assumption.
Qed.

Lemma stringLe_trans (a b c : string) :
  stringLe a b -> stringLe b c -> stringLe a c.
Proof.
  unfold stringLe, String.leb. revert b c.
  induction a as [|x a IH]; intros [|y b] [|z c]; simpl; try congruence.
  unfold Ascii.compare.
  destruct (N.compare_spec (N_of_ascii x) (N_of_ascii y)) as [Hxy|Hxy|Hxy];
    destruct (N.compare_spec (N_of_ascii y) (N_of_ascii z)) as [Hyz|Hyz|Hyz];
    destruct (N.compare_spec (N_of_ascii x) (N_of_ascii z)) as [Hxz|Hxz|Hxz];
    try congruence; try lia.
  apply IH.
Qed.

Lemma stringLe_total (a b : string) : stringLe a b \/ stringLe b a.
Proof. apply String.leb_total. Qed.

Lemma compareStrings_le (a b : string) :
  Qle_bool (compareStrings a b) 0 = String.leb a b.
Proof.
  unfold compareStrings, String.leb. destruct (String.compare a b); reflexivity.
Qed.

Lemma sortInsert_strings_sorted (x : string) (l : list string) :
  StronglySorted stringLe l -> StronglySorted stringLe (sortInsert compareStrings x l).
Proof.
  induction l as [|y l IH]; simpl; intro Hs.
  - constructor; constructor.
  - apply StronglySorted_inv in Hs. destruct Hs as [Hl Hy].
    rewrite compareStrings_le. destruct (String.leb x y) eqn:E.
    + constructor; [constructor; assumption|].
      constructor; [assumption|].
      rewrite Forall_forall in *. intros z Hz.
      apply (stringLe_trans x y z); [assumption|apply Hy; assumption].
    + constructor; [apply IH; assumption|].
      rewrite Forall_forall in *. intros z Hz.
      apply (Permutation_in _ (sortInsert_permutation compareStrings x l)) in Hz.
      destruct Hz as [<-|Hz]; [|apply Hy; assumption].
      destruct (stringLe_total x y) as [H|H]; [unfold stringLe in H; congruence|exact H].
Qed.

Lemma toSorted_sorted (l : list string) : StronglySorted stringLe (toSorted l).
Proof.
  unfold toSorted. induction l as [|x l IH]; simpl; [constructor|].
  apply sortInsert_strings_sorted. assumption.
Qed.

Lemma toSorted_permutation (l : list string) : Permutation (toSorted l) l.
Proof. apply Array_sort_permutation. Qed.

Lemma Set_from_In (x : string) (l : list string) : In x (Set_from l) <-> In x l.
Proof.
  unfold Set_from. rewrite Set_add_fold_In. simpl. tauto.
Qed.

Lemma Set_from_NoDup (l : list string) : NoDup (Set_from l).
Proof. apply Set_add_fold_NoDup. constructor. Qed.

Lemma computeFileLists_modified_In (fileOps : FileOperations) (f : string) :
  In f (modifiedFiles (computeFileLists fileOps)) <->
  In f (fo_edited fileOps) \/ In f (fo_written fileOps).
Proof.
  unfold computeFileLists. simpl.
  rewrite <- in_app_iff, <- (Set_from_In f (fo_edited fileOps ++ fo_written fileOps)).
  split; intro H.
  - apply (Permutation_in _ (toSorted_permutation _)). assumption.
  - apply (Permutation_in _ (Permutation_sym (toSorted_permutation _))). assumption.
Qed.

Lemma computeFileLists_read_In (fileOps : FileOperations) (f : string) :
  In f (readFiles (computeFileLists fileOps)) <->
  In f (fo_read fileOps) /\ ~ In f (modifiedFiles (computeFileLists fileOps)).
Proof.
  rewrite computeFileLists_modified_In. unfold computeFileLists. simpl.
  rewrite <- in_app_iff, <- (Set_from_In f (fo_edited fileOps ++ fo_written fileOps)).
  split.
  - intro H. apply (Permutation_in _ (toSorted_permutation _)) in H.
    apply filter_In in H. destruct H as [H1 H2]. split; [assumption|].
    intro H3. apply Set_has_In in H3. rewrite H3 in H2. discriminate.
  - intros [H1 H2].
    apply (Permutation_in _ (Permutation_sym (toSorted_permutation _))).
    apply filter_In. split; [assumption|].
    destruct (Set_has f (Set_from (fo_edited fileOps ++ fo_written fileOps))) eqn:E;
      [|reflexivity].
    apply Set_has_In in E. contradiction.
Qed.

(** X15.  The modified files are the edited and the written ones; the read
    files are the files read that are not modified, so no file is in both
    lists.  Both lists are in ascending order of code units, the modified
    files without repetition, and the read files too when the files read
    have none. *)
Theorem computeFileLists_spec (fileOps : FileOperations) :
  let lists := computeFileLists fileOps in
  (forall f, In f (modifiedFiles lists) <->
             In f (fo_edited fileOps) \/ In f (fo_written fileOps))
  /\ (forall f, In f (readFiles lists) <->
                In f (fo_read fileOps) /\ ~ In f (modifiedFiles lists))
  /\ StronglySorted stringLe (readFiles lists)
  /\ StronglySorted stringLe (modifiedFiles lists)
  /\ NoDup (modifiedFiles lists)
  /\ (NoDup (fo_read fileOps) -> NoDup (readFiles lists)).
Proof.
  intro lists. subst lists.
  split; [apply computeFileLists_modified_In|].
  split; [apply computeFileLists_read_In|].
  unfold computeFileLists. simpl.
  split; [apply toSorted_sorted|]. split; [apply toSorted_sorted|]. split.
  - apply (Permutation_NoDup (Permutation_sym (toSorted_permutation _))).
    apply Set_from_NoDup.
  - intro H. apply (Permutation_NoDup (Permutation_sym (toSorted_permutation _))).
    apply NoDup_filter. assumption.
Qed.

Lemma formatFileOperations_empty (readFiles modifiedFiles : list string) :
  formatFileOperations readFiles modifiedFiles = EmptyString <->
  readFiles = [] /\ modifiedFiles = [].
Proof.
  unfold formatFileOperations.
  destruct readFiles as [|r readFiles]; destruct modifiedFiles as [|m modifiedFiles];
    simpl; split; try (intro H; discriminate H); try (intros [H1 H2]; discriminate);
    intros; try split; reflexivity.
Qed.

(** X16.  The file section of the summary is empty exactly when no file was
    read, edited or written; otherwise it starts with two line feeds. *)
Theorem formatFileOperations_spec (fileOps : FileOperations) :
  let lists := computeFileLists fileOps in
  let section := formatFileOperations (readFiles lists) (modifiedFiles lists) in
  (section = EmptyString <->
   fo_read fileOps = [] /\ fo_edited fileOps = [] /\ fo_written fileOps = [])
  /\ (section <> EmptyString -> startsWith section (nl ++ nl) = true).
Proof.
  intros lists section. subst section. split.
  - rewrite formatFileOperations_empty.
    pose proof (computeFileLists_modified_In fileOps) as Hmod.
    pose proof (computeFileLists_read_In fileOps) as Hread.
    fold lists in Hmod, Hread. split.
    + intros [Hr Hm].
      assert (He : fo_edited fileOps = []).
      { destruct (fo_edited fileOps) as [|f l]; [reflexivity|].
        assert (H : In f (modifiedFiles lists)) by (apply Hmod; left; left; reflexivity).
        rewrite Hm in H. destruct H. }
      assert (Hw : fo_written fileOps = []).
      { destruct (fo_written fileOps) as [|f l]; [reflexivity|].
        assert (H : In f (modifiedFiles lists)) by (apply Hmod; right; left; reflexivity).
        rewrite Hm in H. destruct H. }
      split; [|split; assumption].
      destruct (fo_read fileOps) as [|f l]; [reflexivity|].
      assert (H : In f (readFiles lists)).
      { apply Hread. split; [left; reflexivity|]. rewrite Hm. intros []. }
      rewrite Hr in H. destruct H.
    + intros (Hr & He & Hw). subst lists. unfold computeFileLists.
      rewrite Hr, He, Hw. split; reflexivity.
  - intro Hne. unfold formatFileOperations in *.
    destruct (List.length _ =? 0)%nat; [destruct Hne; reflexivity|].
    match goal with
    | |- startsWith (_ ++ _ ++ ?rest)%string _ = true =>
        exact (startsWith_app (nl ++ nl) rest)
    end.
Qed.

(** ** Message text *)

Lemma trim_head (s : string) (c : ascii) :
  headChar (trim s) = Some c -> isSpace c = false.
Proof.
  unfold trim. intro H. apply dropWhileEnd_headChar in H.
  apply (dropWhile_head isSpace s c H).
Qed.

Lemma trim_last (s : string) (c : ascii) :
  lastChar (trim s) = Some c -> isSpace c = false.
Proof. unfold trim. apply dropWhileEnd_last. Qed.

Lemma trim_fixed (s : string) :
  (forall c, headChar s = Some c -> isSpace c = false) ->
  (forall c, lastChar s = Some c -> isSpace c = false) ->
  trim s = s.
Proof.
  intros Hh Hl. unfold trim. destruct s as [|c s]; [reflexivity|].
  rewrite dropWhile_keep by (apply Hh; reflexivity).
  apply dropWhileEnd_id. assumption.
Qed.

Lemma trim_idempotent (s : string) : trim (trim s) = trim s.
Proof. apply trim_fixed; [apply trim_head|apply trim_last]. Qed.

(** X17.  The text extracted from a message neither starts nor ends with
    white space: trimming it again changes nothing. *)
Theorem extractMessageText_trimmed (message : AgentMessage) :
  let text := extractMessageText message in
  trim text = text
  /\ (forall c, headChar text = Some c -> isSpace c = false)
  /\ (forall c, lastChar text = Some c -> isSpace c = false).
Proof.
  intro text. subst text. unfold extractMessageText.
  destruct (content message) as [text|blocks|].
  - split; [apply trim_idempotent|]. split; [apply trim_head|apply trim_last].
  - split; [apply trim_idempotent|]. split; [apply trim_head|apply trim_last].
  - split; [reflexivity|]. split; intros c H; discriminate H.
Qed.

Lemma latestUserAskFrom_spec (fromLast : list AgentMessage) :
  match latestUserAskFrom fromLast with
  | Some text =>
      exists later msg earlier,
        fromLast = later ++ msg :: earlier
        /\ role msg = "user"%string
        /\ extractMessageText msg = text
        /\ text <> EmptyString
        /\ (forall m, In m later -> role m = "user"%string ->
                      extractMessageText m = EmptyString)
  | None =>
      forall m, In m fromLast -> role m = "user"%string ->
                extractMessageText m = EmptyString
  end.
Proof.
  induction fromLast as [|msg earlier IH]; simpl; [intros m []|].
  destruct (String.eqb (role msg) "user") eqn:Hrole; simpl.
  - apply String.eqb_eq in Hrole.
    destruct (isEmptyString (extractMessageText msg)) eqn:Hempty.
    + apply isEmptyString_true in Hempty.
      destruct (latestUserAskFrom earlier) as [text|].
      * destruct IH as (later & m0 & earlier0 & -> & H1 & H2 & H3 & H4).
        exists (msg :: later), m0, earlier0. repeat split; try assumption.
        intros m [<-|Hin] Hr; [assumption|apply H4; assumption].
      * intros m [<-|Hin] Hr; [assumption|apply IH; assumption].
    + exists [], msg, earlier. repeat split; try assumption.
      * intro H. rewrite H in Hempty. discriminate Hempty.
      * intros m [].
  - apply String.eqb_neq in Hrole.
    destruct (latestUserAskFrom earlier) as [text|].
    + destruct IH as (later & m0 & earlier0 & -> & H1 & H2 & H3 & H4).
      exists (msg :: later), m0, earlier0. repeat split; try assumption.
      intros m [<-|Hin] Hr; [contradiction|apply H4; assumption].
    + intros m [<-|Hin] Hr; [contradiction|apply IH; assumption].
Qed.

(** X18.  The latest user ask is the text of the last user message whose
    text is not empty; there is none exactly when every user message has an
    empty text. *)
Theorem extractLatestUserAsk_spec (messages : list AgentMessage) :
  match extractLatestUserAsk messages with
  | Some text =>
      exists before msg after,
        messages = before ++ msg :: after
        /\ role msg = "user"%string
        /\ extractMessageText msg = text
        /\ text <> EmptyString
        /\ (forall m, In m after -> role m = "user"%string ->
                      extractMessageText m = EmptyString)
  | None =>
      forall m, In m messages -> role m = "user"%string ->
                extractMessageText m = EmptyString
  end.
Proof.
  unfold extractLatestUserAsk.
  pose proof (latestUserAskFrom_spec (rev messages)) as H.
  destruct (latestUserAskFrom (rev messages)) as [text|].
  - destruct H as (later & msg & earlier & Hrev & H1 & H2 & H3 & H4).
    exists (rev earlier), msg, (rev later). split.
    + rewrite <- (rev_involutive messages), Hrev, rev_app_distr. simpl.
      rewrite <- app_assoc. reflexivity.
    + repeat split; try assumption.
      intros m Hin. apply H4. apply in_rev. assumption.
  - intros m Hin. apply H. apply in_rev in Hin. assumption.
Qed.

(** X19.  The section of preserved turns is empty exactly when every
    preserved message has an empty text; otherwise it starts with two line
    feeds and the heading. *)
Theorem formatPreservedTurnsSection_spec (messages : list AgentMessage) :
  let section := formatPreservedTurnsSection messages in
  (section = EmptyString <->
   forall m, In m messages -> extractMessageText m = EmptyString)
  /\ (section <> EmptyString ->
      startsWith section (nl ++ nl ++ "## Recent turns preserved verbatim" ++ nl) = true).
Proof.
  intro section. subst section. unfold formatPreservedTurnsSection.
  set (line := fun message : AgentMessage => _).
  assert (Hlines : flat_map line messages = [] <->
                   forall m, In m messages -> extractMessageText m = EmptyString).
  { induction messages as [|m messages IH]; simpl.
    - split; [intros _ m' []|reflexivity].
    - unfold line at 1. destruct (isEmptyString (extractMessageText m)) eqn:E.
      + apply isEmptyString_true in E. simpl. rewrite IH. split.
        * intros H m' [<-|Hin]; [assumption|apply H; assumption].
        * intros H m' Hin. apply H. right. assumption.
      + split; [intro H; discriminate H|].
        intro H. rewrite (H m (or_introl eq_refl)) in E. discriminate E. }
  destruct messages as [|m0 messages0] eqn:Hm.
  - simpl. split; [split; [intros _ m []|reflexivity]|].
    intro H. destruct H. reflexivity.
  - rewrite <- Hm in *. replace (List.length messages =? 0)%nat with false
      by (rewrite Hm; reflexivity).
    destruct (flat_map line messages) as [|l0 lines] eqn:Hl.
    + simpl. split; [split; [intros _; apply Hlines; reflexivity|reflexivity]|].
      intro H. destruct H. reflexivity.
    + simpl List.length. change (S (List.length lines) =? 0)%nat with false.
      cbv iota. split.
      * split; [intro H; discriminate H|].
        intro H. apply Hlines in H. discriminate H.
      * intros _.
        match goal with
        | |- startsWith (_ ++ _ ++ _ ++ _ ++ ?rest)%string _ = true =>
            exact (startsWith_app
                     (nl ++ nl ++ "## Recent turns preserved verbatim" ++ nl) rest)
        end.
Qed.

(** ** The recent turns that are preserved *)

Lemma takeRecent_zero {T : Type} (p : T -> bool) (l : list T) : takeRecent p l 0 = [].
Proof. destruct l; reflexivity. Qed.

Lemma collectCandidateIndexes_takeRecent (fromLast : list (nat * AgentMessage))
    (pm : nat) (acc : list nat) :
  (List.length acc < pm)%nat ->
  collectCandidateIndexes fromLast (Z.of_nat pm) acc =
  acc ++ map fst (filter (fun ix => isUserOrAssistant (snd ix))
                         (takeRecent (fun ix => isUserOrAssistant (snd ix)) fromLast
                                     (pm - List.length acc))).
Proof.
  revert acc. induction fromLast as [|[i m] earlier IH]; intros acc Hlt.
  - simpl. rewrite app_nil_r. reflexivity.
  - cbn [collectCandidateIndexes takeRecent].
    destruct (pm - List.length acc)%nat as [|k'] eqn:Ek; [lia|].
    cbn [snd]. destruct (isUserOrAssistant m) eqn:Hm.
    + cbn [filter snd]. rewrite Hm. cbn [map fst].
      rewrite length_app. cbn [List.length].
      destruct (Z.of_nat pm <=? Z.of_nat (List.length acc + 1))%Z eqn:E.
      * apply Z.leb_le in E. assert (k' = 0%nat) by lia. subst k'.
        rewrite takeRecent_zero. reflexivity.
      * apply Z.leb_gt in E. rewrite IH by (rewrite length_app; simpl; lia).
        rewrite length_app. cbn [List.length].
        replace (pm - (List.length acc + 1))%nat with k' by lia.
        rewrite <- app_assoc. reflexivity.
    + cbn [filter snd]. rewrite Hm.
      destruct (Z.of_nat pm <=? Z.of_nat (List.length acc))%Z eqn:E;
        [apply Z.leb_le in E; lia|].
      rewrite IH by assumption. rewrite Ek. reflexivity.
Qed.

Lemma takeRecent_prefix {T : Type} (p : T -> bool) (l : list T) (k : nat) :
  exists rest,
    l = takeRecent p l k ++ rest
    /\ (List.length (filter p (takeRecent p l k)) = k
        \/ (rest = [] /\ (List.length (filter p l) < k)%nat)).
Proof.
  revert k. induction l as [|x l IH]; intro k.
  - exists []. split; [reflexivity|]. destruct k; [left; reflexivity|right; simpl; split; [reflexivity|lia]].
  - destruct k as [|k']; [exists (x :: l); split; [reflexivity|left; reflexivity]|].
    cbn [takeRecent]. destruct (IH (if p x then k' else S k')) as (rest & Heq & Hcount).
    exists rest. split; [simpl; rewrite <- Heq; reflexivity|].
    cbn [filter]. destruct (p x) eqn:Hp.
    + destruct Hcount as [Hc|[Hr Hc]]; [left; simpl; lia|right; split; [assumption|simpl; lia]].
    + destruct Hcount as [Hc|[Hr Hc]]; [left; assumption|right; split; assumption].
Qed.

Lemma filteri_from_combine {T : Type} (p : nat -> T -> bool) (i : nat) (l : list T) :
  filteri_from p i l =
  map snd (filter (fun ix => p (fst ix) (snd ix)) (combine (seq i (List.length l)) l)).
Proof.
  revert i. induction l as [|x l IH]; intro i; [reflexivity|].
  simpl. rewrite IH. destruct (p i x); reflexivity.
Qed.

Lemma filter_snd_combine {S T : Type} (q : T -> bool) (s : list S) (l : list T) :
  List.length s = List.length l ->
  map snd (filter (fun ix => q (snd ix)) (combine s l)) = filter q l.
Proof.
  revert l. induction s as [|i s IH]; intros [|x l] H; try discriminate H; [reflexivity|].
  simpl. destruct (q x); simpl; rewrite IH by (simpl in H; lia); reflexivity.
Qed.

Lemma map_fst_combine_eq {S T : Type} (s : list S) (l : list T) :
  List.length s = List.length l -> map fst (combine s l) = s.
Proof.
  revert l. induction s as [|i s IH]; intros [|x l] H; try discriminate H; [reflexivity|].
  simpl. rewrite IH by (simpl in H; lia). reflexivity.
Qed.

Lemma map_snd_combine_eq {S T : Type} (s : list S) (l : list T) :
  List.length s = List.length l -> map snd (combine s l) = l.
Proof.
  revert l. induction s as [|i s IH]; intros [|x l] H; try discriminate H; [reflexivity|].
  simpl. rewrite IH by (simpl in H; lia). reflexivity.
Qed.

Lemma NoDup_fst_functional {S T : Type} (l : list (S * T)) (i : S) (x y : T) :
  NoDup (map fst l) -> In (i, x) l -> In (i, y) l -> x = y.
Proof.
  induction l as [|[j z] l IH]; simpl; intros Hnd Hx Hy; [destruct Hx|].
  inversion Hnd as [|? ? Hnot Hnd']; subst.
  destruct Hx as [Hx|Hx]; destruct Hy as [Hy|Hy].
  - congruence.
  - inversion Hx; subst. destruct Hnot. apply (in_map fst) in Hy. assumption.
  - inversion Hy; subst. destruct Hnot. apply (in_map fst) in Hx. assumption.
  - apply IH; assumption.
Qed.

Lemma combine_seq_app {T : Type} (i : nat) (a b : list T) :
  combine (seq i (List.length (a ++ b))) (a ++ b) =
  combine (seq i (List.length a)) a ++ combine (seq (i + List.length a) (List.length b)) b.
Proof.
  revert i. induction a as [|x a IH]; intro i.
  - simpl. rewrite Nat.add_0_r. reflexivity.
  - simpl. rewrite IH. rewrite Nat.add_succ_r. reflexivity.
Qed.

Lemma app_eq_length {T : Type} (a b c d : list T) :
  a ++ b = c ++ d -> List.length a = List.length c -> a = c /\ b = d.
Proof.
  revert c. induction a as [|x a IH]; intros [|y c] H Hlen; try discriminate Hlen.
  - split; [reflexivity|assumption].
  - simpl in H. injection H as -> H. destruct (IH c H) as [-> ->]; [simpl in Hlen; lia|].
    split; reflexivity.
Qed.

(** The messages that the scan from the last one has read are a final
    segment of the list. *)
Lemma scanned_final_segment (messages : list AgentMessage)
    (taken rest : list (nat * AgentMessage)) :
  rev (combine (seq 0 (List.length messages)) messages) = taken ++ rest ->
  exists older recent,
    messages = older ++ recent
    /\ taken = rev (combine (seq (List.length older) (List.length recent)) recent)
    /\ List.length older = List.length rest.
Proof.
  intro H.
  assert (Hx : combine (seq 0 (List.length messages)) messages = rev rest ++ rev taken).
  { rewrite <- rev_app_distr, <- H, rev_involutive. reflexivity. }
  assert (Hlen : (List.length rest <= List.length messages)%nat).
  { apply (f_equal (@List.length _)) in Hx.
    rewrite length_combine, length_seq, Nat.min_id, length_app, !length_rev in Hx. lia. }
  exists (firstn (List.length rest) messages), (skipn (List.length rest) messages).
  split; [symmetry; apply firstn_skipn|].
  split; [|rewrite length_firstn; lia].
  rewrite <- (firstn_skipn (List.length rest) messages) in Hx at 1 2.
  rewrite combine_seq_app in Hx. simpl in Hx.
  apply app_eq_length in Hx.
  - destruct Hx as [_ Hx]. rewrite <- (rev_involutive taken), <- Hx. reflexivity.
  - rewrite length_combine, length_seq, Nat.min_id, length_rev, length_firstn. lia.
Qed.

Lemma filteri_recent (older recent : list AgentMessage) :
  let cands :=
    map fst (filter (fun ix => isUserOrAssistant (snd ix))
                    (rev (combine (seq (List.length older) (List.length recent)) recent))) in
  filteri (fun idx _ => indexSetHas idx cands) (older ++ recent)
    = filter isUserOrAssistant recent
  /\ filteri (fun idx _ => negb (indexSetHas idx cands)) (older ++ recent)
    = older ++ filter (fun m => negb (isUserOrAssistant m)) recent.
Proof.
  intro cands.
  set (Xo := combine (seq 0 (List.length older)) older).
  set (Xr := combine (seq (List.length older) (List.length recent)) recent).
  assert (Hcands : forall idx, In idx cands <->
                     exists m, In (idx, m) Xr /\ isUserOrAssistant m = true).
  { intro idx. unfold cands. rewrite in_map_iff. split.
    - intros ([i m] & <- & Hin). apply filter_In in Hin. destruct Hin as [Hin Hm].
      apply in_rev in Hin. exists m. split; assumption.
    - intros (m & Hin & Hm). exists (idx, m). split; [reflexivity|].
      apply filter_In. split; [apply in_rev; rewrite rev_involutive; assumption|assumption]. }
  assert (Hold : forall ix, In ix Xo -> indexSetHas (fst ix) cands = false).
  { intros [i x] Hin. cbn [fst].
    destruct (indexSetHas i cands) eqn:E; [|reflexivity].
    apply indexSetHas_In, Hcands in E. destruct E as (m & Hm & _).
    apply in_combine_l, in_seq in Hin. apply in_combine_l, in_seq in Hm. lia. }
  assert (Hnd : NoDup (map fst Xr)).
  { unfold Xr. rewrite map_fst_combine_eq by apply length_seq. apply seq_NoDup. }
  assert (Hrec : forall ix, In ix Xr ->
                   indexSetHas (fst ix) cands = isUserOrAssistant (snd ix)).
  { intros [i x] Hin. cbn [fst snd].
    destruct (indexSetHas i cands) eqn:E.
    - apply indexSetHas_In, Hcands in E. destruct E as (m & Hm & Hua).
      rewrite (NoDup_fst_functional Xr i x m Hnd Hin Hm). symmetry. assumption.
    - destruct (isUserOrAssistant x) eqn:Hua; [|reflexivity].
      assert (H : In i cands) by (apply Hcands; exists x; split; assumption).
      apply indexSetHas_In in H. congruence. }
  unfold filteri. rewrite !filteri_from_combine, combine_seq_app.
  fold Xo. simpl Nat.add. fold Xr. rewrite !filter_app, !map_app. split.
  - rewrite (filter_none _ Xo) by (intros ix Hin; apply Hold; assumption).
    rewrite (filter_ext_in _ (fun ix => isUserOrAssistant (snd ix)) Xr)
      by (intros ix Hin; apply Hrec; assumption).
    simpl. apply filter_snd_combine. apply length_seq.
  - rewrite (filter_all _ Xo).
    2:{ apply Forall_forall. intros ix Hin. cbn beta. rewrite (Hold ix Hin). reflexivity. }
    rewrite (filter_ext_in _ (fun ix => negb (isUserOrAssistant (snd ix))) Xr).
    2:{ intros ix Hin. cbn beta. rewrite (Hrec ix Hin). reflexivity. }
    f_equal.
    + apply map_snd_combine_eq. apply length_seq.
    + apply (filter_snd_combine (fun m => negb (isUserOrAssistant m))). apply length_seq.
Qed.

Lemma scanned_turns_length (i : nat) (recent : list AgentMessage) :
  List.length (filter (fun ix => isUserOrAssistant (snd ix))
                      (rev (combine (seq i (List.length recent)) recent)))
  = List.length (filter isUserOrAssistant recent).
Proof.
  rewrite <- (filter_snd_combine isUserOrAssistant (seq i (List.length recent)) recent)
    by apply length_seq.
  rewrite length_map, filter_rev, length_rev. reflexivity.
Qed.

Lemma lastN_app {T : Type} (a b : list T) : lastN (List.length b) (a ++ b) = b.
Proof.
  unfold lastN. rewrite length_app, Nat.add_sub, skipn_app, skipn_all, Nat.sub_diag.
  reflexivity.
Qed.

Lemma lastN_all {T : Type} (k : nat) (l : list T) :
  (List.length l <= k)%nat -> lastN k l = l.
Proof.
  intro H. unfold lastN. replace (List.length l - k)%nat with 0%nat by lia. reflexivity.
Qed.

(** X20.  With k = 2 x min(12, max(0, floor(recentTurnsPreserve))), the
    preserved messages are the last k user and assistant messages (all of
    them when there are fewer).  The messages split into an older and a
    recent segment: the preserved messages are the user and assistant
    messages of the recent segment, and the summarizable messages are the
    older segment followed by the other messages of the recent one. *)
Theorem splitPreservedRecentTurns_recent
    (messages : list AgentMessage) (recentTurnsPreserve : Q) :
  let split := splitPreservedRecentTurns messages recentTurnsPreserve in
  let k := Z.to_nat (2 * Z.min MAX_RECENT_TURNS_PRESERVE
                               (clampNonNegativeInt (Some recentTurnsPreserve) 0)) in
  preservedMessages split = lastN k (filter isUserOrAssistant messages)
  /\ exists older recent,
       messages = older ++ recent
       /\ summarizableMessages split =
          older ++ filter (fun m => negb (isUserOrAssistant m)) recent
       /\ preservedMessages split = filter isUserOrAssistant recent.
Proof.
  intros split k. subst split. unfold splitPreservedRecentTurns.
  set (preserveTurns :=
         Z.min MAX_RECENT_TURNS_PRESERVE
               (clampNonNegativeInt (Some recentTurnsPreserve) 0)) in *.
  destruct (preserveTurns <=? 0)%Z eqn:Ept; cbn [preservedMessages summarizableMessages].
  { apply Z.leb_le in Ept. replace k with 0%nat by (unfold k; lia). split.
    - unfold lastN. rewrite Nat.sub_0_r, skipn_all. reflexivity.
    - exists messages, []. simpl. rewrite app_nil_r. repeat split; reflexivity. }
  apply Z.leb_gt in Ept.
  replace (preserveTurns * 2)%Z with (Z.of_nat k) by (unfold k; lia).
  assert (Hk : (0 < k)%nat) by (unfold k; lia).
  rewrite (collectCandidateIndexes_takeRecent _ k []) by exact Hk.
  cbn [List.length app]. rewrite Nat.sub_0_r.
  set (fromLast := rev (combine (seq 0 (List.length messages)) messages)).
  destruct (takeRecent_prefix (fun ix : nat * AgentMessage => isUserOrAssistant (snd ix))
                              fromLast k) as (rest & Hsplit & Hcount).
  set (taken := takeRecent _ fromLast k) in *.
  destruct (scanned_final_segment messages taken rest Hsplit)
    as (older & recent & -> & Htaken & Holder).
  rewrite Htaken in *.
  destruct (filteri_recent older recent) as [Hkeep Hdrop].
  cbv zeta in Hkeep, Hdrop. rewrite Hkeep, Hdrop, filter_idempotent.
  rewrite length_map, scanned_turns_length in *.
  assert (Hlast : filter isUserOrAssistant recent =
                  lastN k (filter isUserOrAssistant (older ++ recent))).
  { rewrite filter_app. destruct Hcount as [Hc|[Hr Hc]].
    - rewrite <- Hc. symmetry. apply lastN_app.
    - subst rest. destruct older; [|discriminate Holder]. simpl.
      symmetry. apply lastN_all.
      rewrite app_nil_r in Hsplit.
      rewrite Hsplit, scanned_turns_length in Hc. lia. }
  destruct (List.length (filter isUserOrAssistant recent) =? 0)%nat eqn:Enone;
    cbn [preservedMessages summarizableMessages].
  - apply Nat.eqb_eq in Enone. apply length_zero_iff_nil in Enone.
    split; [rewrite <- Hlast, Enone; reflexivity|].
    exists older, recent. split; [reflexivity|]. split; [|symmetry; assumption].
    f_equal. symmetry. apply filter_all. apply Forall_forall. intros m Hin.
    destruct (isUserOrAssistant m) eqn:Hm; [|reflexivity].
    assert (H : In m (filter isUserOrAssistant recent))
      by (apply filter_In; split; assumption).
    rewrite Enone in H. destruct H.
  - split; [exact Hlast|].
    exists older, recent. repeat split; reflexivity.
Qed.

(** ** Identifiers are pieces of the text *)

Lemma isSubstringOf_refl (s : string) : isSubstringOf s s.
Proof. exists EmptyString, EmptyString. rewrite string_app_nil_r. reflexivity. Qed.

Lemma isSubstringOf_trans (a b c : string) :
  isSubstringOf a b -> isSubstringOf b c -> isSubstringOf a c.
Proof.
  intros (p1 & q1 & ->) (p2 & q2 & ->).
  exists (p2 ++ p1)%string, (q1 ++ q2)%string.
  rewrite !string_app_assoc. reflexivity.
Qed.

Lemma isSubstringOf_cons (sub s : string) (c : ascii) :
  isSubstringOf sub s -> isSubstringOf sub (String c s).
Proof. intros (p & q & ->). exists (String c p), q. reflexivity. Qed.

Lemma isSubstringOf_app (sub s before after : string) :
  isSubstringOf sub s -> isSubstringOf sub (before ++ s ++ after).
Proof.
  intro H. apply (isSubstringOf_trans sub s); [assumption|].
  exists before, after. reflexivity.
Qed.

Lemma matchAt_prefix (r : Regex) (prev : option ascii) (s m : string) :
  matchAt r prev s = Some m -> exists rest, s = (m ++ rest)%string.
Proof.
  unfold matchAt.
  destruct (matchRegex r prev s (fun _ rest => Some rest)) as [rest|] eqn:E;
    [|discriminate].
  intro H. inversion H. subst m.
  destruct (matchRegex_sound _ _ _ _ _ E) as (m & rest' & _ & -> & _ & Hk).
  inversion Hk. subst rest'. rewrite sliceString_app. exists rest. reflexivity.
Qed.

Lemma matchAllFrom_substring (r : Regex) (s : string) :
  forall (prev : option ascii) (skip : nat) (m : string),
  In m (matchAllFrom r prev s skip) -> isSubstringOf m s.
Proof.
  induction s as [|c s IH]; intros prev skip m Hin; simpl in Hin.
  - destruct skip; [|contradiction].
    destruct (matchAt r prev EmptyString) as [m'|] eqn:E; [|contradiction].
    destruct Hin as [<-|[]]. apply matchAt_prefix in E. destruct E as [rest E].
    exists EmptyString, rest. assumption.
  - destruct skip as [|skip]; [|apply isSubstringOf_cons; eapply IH; eassumption].
    destruct (matchAt r prev (String c s)) as [m'|] eqn:E;
      [|apply isSubstringOf_cons; eapply IH; eassumption].
    destruct Hin as [<-|Hin]; [|apply isSubstringOf_cons; eapply IH; eassumption].
    apply matchAt_prefix in E. destruct E as [rest E].
    exists EmptyString, rest. assumption.
Qed.

Lemma dropWhile_substring (p : ascii -> bool) (s : string) :
  isSubstringOf (dropWhile p s) s.
Proof.
  induction s as [|c s IH]; simpl; [apply isSubstringOf_refl|].
  destruct (p c); [apply isSubstringOf_cons; assumption|apply isSubstringOf_refl].
Qed.

Lemma dropWhileEnd_prefix (p : ascii -> bool) (s : string) :
  exists dropped, s = (dropWhileEnd p s ++ dropped)%string.
Proof.
  induction s as [|c s IH]; [exists EmptyString; reflexivity|].
  simpl. destruct IH as [dropped IH].
  destruct (dropWhileEnd p s) as [|d kept].
  - destruct (p c).
    + exists (String c s). reflexivity.
    + exists dropped. simpl. rewrite IH at 1. reflexivity.
  - exists dropped. simpl. rewrite IH at 1. reflexivity.
Qed.

Lemma dropWhileEnd_substring (p : ascii -> bool) (s : string) :
  isSubstringOf (dropWhileEnd p s) s.
Proof.
  destruct (dropWhileEnd_prefix p s) as [dropped H].
  exists EmptyString, dropped. assumption.
Qed.

Lemma sanitize_substring (value : string) :
  isSubstringOf (sanitizeExtractedIdentifier value) value.
Proof.
  unfold sanitizeExtractedIdentifier, trim.
  eapply isSubstringOf_trans; [apply dropWhileEnd_substring|].
  eapply isSubstringOf_trans; [apply dropWhile_substring|].
  eapply isSubstringOf_trans; [apply dropWhileEnd_substring|].
  apply dropWhile_substring.
Qed.

(** X21.  Every match of a regular expression is a piece of the text, and so
    is every extracted identifier: sanitizing only removes characters at the
    two ends of a match. *)
Theorem extractOpaqueIdentifiers_substrings (text : string) :
  (forall r m, In m (matchAll r text) -> isSubstringOf m text)
  /\ (forall e, In e (extractOpaqueIdentifiers text) -> isSubstringOf e text).
Proof.
  split; [intros r m; apply matchAllFrom_substring|].
  intros e He. unfold extractOpaqueIdentifiers in He. cbv zeta in He.
  apply In_firstn in He. apply (proj1 (Set_from_In _ _)) in He.
  apply filter_In in He. destruct He as [He _].
  apply in_map_iff in He. destruct He as (m & <- & Hm).
  eapply isSubstringOf_trans; [apply sanitize_substring|].
  eapply matchAllFrom_substring. exact Hm.
Qed.

(** ** The audit and longer summaries *)

Lemma auditSummaryQuality_ok_checks
    (summary : string) (identifiers : list string) (latestAsk : option string) :
  ok (auditSummaryQuality summary identifiers latestAsk) = true <->
  (forall section, In section REQUIRED_SUMMARY_SECTIONS ->
                   includes summary section = true)
  /\ (forall id, In id identifiers -> includes summary id = true)
  /\ hasAskOverlap summary latestAsk = true.
Proof.
  rewrite <- missing_sections_nil, <- missing_identifiers_nil.
  unfold auditSummaryQuality. cbv zeta. unfold ok.
  set (sections := flat_map _ REQUIRED_SUMMARY_SECTIONS).
  set (missing := filter _ identifiers).
  rewrite length_zero_nil.
  destruct (hasAskOverlap summary latestAsk) eqn:Eask; simpl negb; cbv iota.
  - destruct missing as [|id0 missing']; simpl.
    + split; [intro H; repeat split; assumption|intros (H & _ & _); assumption].
    + split; [|intros (_ & H & _); discriminate].
      intro H. apply app_eq_nil in H. destruct H as [_ H]. discriminate.
  - split; [|intros (_ & _ & H); discriminate].
    intro H. apply app_eq_nil in H. destruct H as [_ H]. discriminate.
Qed.

Lemma toLowerCase_app (a b : string) :
  toLowerCase (a ++ b) = (toLowerCase a ++ toLowerCase b)%string.
Proof.
  induction a as [|c a IH]; simpl; [reflexivity|]. rewrite IH. reflexivity.
Qed.

Lemma includes_app (s sub before after : string) :
  includes s sub = true -> includes (before ++ s ++ after) sub = true.
Proof.
  rewrite !includes_spec. apply isSubstringOf_app.
Qed.

Lemma hasAskOverlap_app (summary before after : string) (latestAsk : option string) :
  hasAskOverlap summary latestAsk = true ->
  hasAskOverlap (before ++ summary ++ after) latestAsk = true.
Proof.
  rewrite !hasAskOverlap_spec.
  intros [H|[H|(ask & token & H1 & H2 & H3)]]; [left; assumption|right; left; assumption|].
  right. right. exists ask, token. split; [assumption|]. split; [assumption|].
  rewrite !toLowerCase_app. apply isSubstringOf_app. assumption.
Qed.

(** X22.  A summary that passes the audit still passes it after text is put
    before or after it; in particular the sections that the handler appends
    after the audit cannot break it. *)
Theorem auditSummaryQuality_monotone
    (summary before after : string) (identifiers : list string)
    (latestAsk : option string) :
  ok (auditSummaryQuality summary identifiers latestAsk) = true ->
  ok (auditSummaryQuality (before ++ summary ++ after) identifiers latestAsk) = true.
Proof.
  rewrite !auditSummaryQuality_ok_checks. intros (Hs & Hi & Ha).
  split; [|split].
  - intros section Hin. apply includes_app. apply Hs. assumption.
  - intros id Hin. apply includes_app. apply Hi. assumption.
  - apply hasAskOverlap_app. assumption.
Qed.

Lemma auditSummaryQuality_monotone_witness :
  ok (auditSummaryQuality sampleGoodSummary ["/tmp/x.log"%string]
        (Some "Please check the file"%string)) = true
  /\ ok (auditSummaryQuality
           ("Summary:" ++ sampleGoodSummary ++ "## Tool Failures")
           ["/tmp/x.log"%string] (Some "Please check the file"%string)) = true.
Proof.
  split; [vm_compute; reflexivity|].
  apply (auditSummaryQuality_monotone sampleGoodSummary "Summary:" "## Tool Failures").
  vm_compute. reflexivity.
Defined.

(** ** The instructions given to the summarizer *)

Lemma sectionsTemplate_headings (section : string) :
  In section REQUIRED_SUMMARY_SECTIONS ->
  includes (buildCompactionStructureInstructions None) section = true.
Proof.
  intro H. unfold REQUIRED_SUMMARY_SECTIONS in H. simpl in H.
  repeat (destruct H as [<-|H]; [vm_compute; reflexivity|]). destruct H.
Qed.

Lemma buildCompactionStructureInstructions_template (customInstructions : option string) :
  exists focus,
    buildCompactionStructureInstructions customInstructions =
    (buildCompactionStructureInstructions None ++ focus)%string
    /\ (focus = EmptyString <->
        customInstructions = None
        \/ exists text, customInstructions = Some text /\ trim text = EmptyString).
Proof.
  destruct customInstructions as [text|].
  - unfold buildCompactionStructureInstructions.
    destruct (isEmptyString (trim text)) eqn:E.
    + apply isEmptyString_true in E. exists EmptyString.
      split; [rewrite string_app_nil_r; reflexivity|].
      split; [intros _; right; exists text; split; [reflexivity|assumption]|reflexivity].
    + exists (nl ++ nl ++ "Additional focus:" ++ nl ++ trim text)%string.
      split; [reflexivity|]. split; [intro H; discriminate H|].
      intros [H|(text' & H & Ht)]; [discriminate H|].
      injection H as <-. rewrite Ht in E. discriminate E.
  - exists EmptyString. split; [rewrite string_app_nil_r; reflexivity|].
    split; [intros _; left; reflexivity|reflexivity].
Qed.

(** X23.  Whatever the custom instructions are, the instructions start with
    the fixed template and name each of the five headings that the audit
    requires.  Custom instructions made of white space only count as none;
    other ones are appended, trimmed, after the template. *)
Theorem buildCompactionStructureInstructions_spec (customInstructions : option string) :
  let template := buildCompactionStructureInstructions None in
  let instructions := buildCompactionStructureInstructions customInstructions in
  startsWith instructions template = true
  /\ (forall section, In section REQUIRED_SUMMARY_SECTIONS ->
                      isSubstringOf section instructions)
  /\ (instructions = template <->
      customInstructions = None
      \/ exists text, customInstructions = Some text /\ trim text = EmptyString)
  /\ (forall text, customInstructions = Some text -> trim text <> EmptyString ->
      exists before, instructions = (before ++ trim text)%string).
Proof.
  intros template instructions. subst template instructions.
  destruct (buildCompactionStructureInstructions_template customInstructions)
    as (focus & Heq & Hfocus).
  split; [rewrite Heq; apply startsWith_app|]. split; [|split].
  - intros section Hin. rewrite Heq.
    apply (isSubstringOf_app section _ EmptyString focus).
    apply includes_spec. apply sectionsTemplate_headings. assumption.
  - rewrite <- Hfocus, Heq. split.
    + intro H. rewrite <- (string_app_nil_r (buildCompactionStructureInstructions None)) in H at 2.
      revert H. generalize (buildCompactionStructureInstructions None).
      intro t. induction t as [|c t IH]; simpl; intro H; [assumption|].
      injection H as H. apply IH. assumption.
    + intros ->. apply string_app_nil_r.
  - intros text -> Hne. unfold buildCompactionStructureInstructions.
    destruct (isEmptyString (trim text)) eqn:E;
      [apply isEmptyString_true in E; contradiction|].
    match goal with
    | |- exists before, (?t ++ ?a ++ ?b ++ ?c ++ ?d ++ trim text)%string = _ =>
        exists (t ++ a ++ b ++ c ++ d)%string
    end.
    rewrite !string_app_assoc. reflexivity.
Qed.

(** ** The handler's summary *)

Section HandlerSummary.

Variables Model SessionManager AbortSignal : Type.
Variable env : Collaborators Model SessionManager AbortSignal.



Lemma compactionBody_summary (event : CompactEvent AbortSignal)
    (ctx : HandlerContext Model SessionManager) (model : Model) (apiKey : string)
    (lists : FileLists) (toolFailureSection fileOpsSummary : string)
    (normal : CompactResult) :
  compactionBody env event ctx model apiKey lists toolFailureSection fileOpsSummary
    = Ok normal ->
  exists head tail,
    summary (compaction normal) =
      (head ++ toolFailureSection ++ fileOpsSummary ++ tail)%string
    /\ readWorkspaceContextForSummary env = Ok tail.
Proof.
  unfold compactionBody. cbv zeta. intro H.
  repeat match type of H with
         | bind (readWorkspaceContextForSummary _) _ = Ok _ => fail 1
         | bind ?m _ = Ok _ => destruct m; cbn [bind] in H; [|discriminate]
         end.
  destruct (readWorkspaceContextForSummary env) as [workspaceContext|e] eqn:Hctx;
    cbn [bind] in H; [|discriminate].
  injection H as <-. cbn [summary compaction].
  match goal with
  | |- exists head tail, (if _ then (?s ++ _) ++ _ else _)%string = _ /\ _ =>
      exists s, workspaceContext
  end.
  split; [|reflexivity].
  destruct (isEmptyString workspaceContext) eqn:E.
  - apply isEmptyString_true in E. subst workspaceContext.
    rewrite string_app_nil_r, string_app_assoc. reflexivity.
  - rewrite !string_app_assoc. reflexivity.
Qed.

(** X25.  Every artifact that the handler returns carries the tool-failure
    section followed by the file section: its summary is a head, these two
    sections and a tail.  In the fallback artifact the head is the fallback
    text and the tail is empty; otherwise the tail is the workspace rules
    that were read.  The handler throws only where it works outside its
    [try] block: when [turnPrefixMessages] is undefined, or when [getApiKey]
    rejects, with the error of [getApiKey]. *)
Theorem compactionSafeguardExtension_summary
    (event : CompactEvent AbortSignal) (ctx : HandlerContext Model SessionManager) :
  let request := preparation event in
  let lists := computeFileLists (fileOps request) in
  let fileOpsSummary := formatFileOperations (readFiles lists) (modifiedFiles lists) in
  match compactionSafeguardExtension env event ctx with
  | Ok answer =>
      exists prefix head tail,
        turnPrefixMessages request = Some prefix
        /\ summary (compaction answer) =
           (head ++
            formatToolFailuresSection
              (collectToolFailures (messagesToSummarize request ++ prefix)) ++
            fileOpsSummary ++ tail)%string
        /\ ((compaction answer = fallbackArtifact request prefix
             /\ head = FALLBACK_SUMMARY /\ tail = EmptyString)
            \/ readWorkspaceContextForSummary env = Ok tail)
  | Thrown error =>
      turnPrefixMessages request = None
      \/ exists m, model ctx = Some m /\ getApiKey ctx m = Thrown error
  end.
Proof.
  intros request lists fileOpsSummary.
  unfold compactionSafeguardExtension. cbv zeta. fold request.
  destruct (turnPrefixMessages request) as [prefix|] eqn:Hprefix; cbn [spread bind];
    [|left; reflexivity].
  fold lists. fold fileOpsSummary.
  set (toolFailureSection :=
         formatToolFailuresSection
           (collectToolFailures (messagesToSummarize request ++ prefix))).
  change {| summary := (FALLBACK_SUMMARY ++ toolFailureSection ++ fileOpsSummary)%string;
            a_firstKeptEntryId := firstKeptEntryId request;
            a_tokensBefore := tokensBefore request;
            a_details := lists |} with (fallbackArtifact request prefix).
  assert (Hfallback :
            exists prefix0 head tail,
              Some prefix = Some prefix0
              /\ summary (fallbackArtifact request prefix) =
                 (head ++
                  formatToolFailuresSection
                    (collectToolFailures (messagesToSummarize request ++ prefix0)) ++
                  fileOpsSummary ++ tail)%string
              /\ ((fallbackArtifact request prefix = fallbackArtifact request prefix0
                   /\ head = FALLBACK_SUMMARY /\ tail = EmptyString)
                  \/ readWorkspaceContextForSummary env = Ok tail)).
  { exists prefix, FALLBACK_SUMMARY, EmptyString. split; [reflexivity|]. split.
    - unfold fallbackArtifact. cbn [summary]. fold lists. fold fileOpsSummary.
      rewrite string_app_nil_r. reflexivity.
    - left. repeat split; reflexivity. }
  destruct (model ctx) as [m|] eqn:Em; [|exact Hfallback].
  destruct (getApiKey ctx m) as [[apiKey|]|e] eqn:Ek; cbn [bind];
    [|exact Hfallback|right; exists m; split; [reflexivity|exact Ek]].
  destruct (isEmptyString apiKey); [exact Hfallback|].
  destruct (compactionBody env event ctx m apiKey lists toolFailureSection fileOpsSummary)
    as [[artifact]|e] eqn:Hbody; cbn [tryCatch]; [|exact Hfallback].
  destruct (compactionBody_summary _ _ _ _ _ _ _ _ Hbody) as (head & tail & Hsum & Htail).
  exists prefix, head, tail. split; [reflexivity|]. split; [exact Hsum|].
  right. exact Htail.
Qed.

End HandlerSummary.

(** ** The summarization loop *)

(** X26.  The summary that the loop returns is an answer of the summarizer
    for the messages to summarize, asked with instructions that start with
    the structured instructions (also on a retry), followed by the section of
    preserved turns.  On a split turn with prefix messages the separator and
    the answer of the next call, made for the prefix with the turn-prefix
    instructions, stand between them; and only then. *)
Theorem summarizeAttempts_answer
    (summarize : nat -> list AgentMessage -> option string -> option string ->
                 result string)
    (isSplit : bool) (messages prefix : list AgentMessage) (previous : option string)
    (preserved structured : string) (identifiers : list string)
    (latestAsk : option string) (guard : bool) (total : Z) (remaining : nat)
    (attempt : Z) (calls : nat) (instructions summary0 out : string) :
  (0 < remaining)%nat ->
  startsWith instructions structured = true ->
  summarizeAttempts summarize isSplit messages prefix previous preserved structured
    identifiers latestAsk guard total remaining attempt calls instructions summary0
    = Ok out ->
  exists n used history,
    (calls <= n)%nat
    /\ startsWith used structured = true
    /\ summarize n messages (Some used) previous = Ok history
    /\ (((isSplit = false \/ prefix = []) /\ out = (history ++ preserved)%string)
        \/ (isSplit = true /\ prefix <> []
            /\ exists prefixSummary,
                 summarize (S n) prefix
                   (Some (TURN_PREFIX_INSTRUCTIONS ++ nl ++ nl ++ used)%string) None
                   = Ok prefixSummary
                 /\ out = ((history ++ nl ++ nl ++ "---" ++ nl ++ nl ++
                            "**Turn Context (split turn):**" ++ nl ++ nl ++
                            prefixSummary) ++ preserved)%string)).
Proof.
  revert attempt calls instructions summary0.
  induction remaining as [|remaining IH]; intros attempt calls instructions summary0 Hpos Hinstr;
    [lia|].
  cbn [summarizeAttempts].
  destruct (summarize calls messages (Some instructions) previous) as [history|e] eqn:Hhist;
    cbn [bind]; [|discriminate].
  set (round := if isSplit && (0 <? List.length prefix)%nat then _ else _).
  assert (Hround :
            forall value, round = Ok value ->
              ((isSplit = false \/ prefix = []) /\ fst value = history
               /\ snd value = S calls)
              \/ (isSplit = true /\ prefix <> []
                  /\ snd value = S (S calls)
                  /\ exists prefixSummary,
                       summarize (S calls) prefix
                         (Some (TURN_PREFIX_INSTRUCTIONS ++ nl ++ nl ++ instructions)%string)
                         None = Ok prefixSummary
                       /\ fst value =
                          (history ++ nl ++ nl ++ "---" ++ nl ++ nl ++
                           "**Turn Context (split turn):**" ++ nl ++ nl ++
                           prefixSummary)%string)).
  { intros value Hvalue. unfold round in Hvalue.
    destruct (isSplit && (0 <? List.length prefix)%nat) eqn:Esplit.
    - apply andb_true_iff in Esplit. destruct Esplit as [Es Ep].
      destruct (summarize (S calls) prefix _ None) as [prefixSummary|e] eqn:Hpre;
        cbn [bind] in Hvalue; [|discriminate].
      injection Hvalue as <-. right. split; [assumption|]. split.
      + intros ->. discriminate Ep.
      + split; [reflexivity|]. exists prefixSummary. split; reflexivity.
    - injection Hvalue as <-. left. split; [|split; reflexivity].
      apply andb_false_iff in Esplit. destruct Esplit as [Es|Ep]; [left; assumption|].
      right. destruct prefix; [reflexivity|discriminate Ep]. }
  destruct round as [value|e]; cbn [bind]; [|discriminate].
  specialize (Hround value eq_refl).
  assert (Hcalls : (calls <= snd value)%nat).
  { destruct Hround as [(_ & _ & ->)|(_ & _ & -> & _)]; lia. }
  assert (Hdone : forall out', (fst value ++ preserved)%string = out' ->
            exists n used history0,
              (calls <= n)%nat
              /\ startsWith used structured = true
              /\ summarize n messages (Some used) previous = Ok history0
              /\ (((isSplit = false \/ prefix = [])
                   /\ out' = (history0 ++ preserved)%string)
                  \/ (isSplit = true /\ prefix <> []
                      /\ exists prefixSummary,
                           summarize (S n) prefix
                             (Some (TURN_PREFIX_INSTRUCTIONS ++ nl ++ nl ++ used)%string)
                             None = Ok prefixSummary
                           /\ out' = ((history0 ++ nl ++ nl ++ "---" ++ nl ++ nl ++
                                       "**Turn Context (split turn):**" ++ nl ++ nl ++
                                       prefixSummary) ++ preserved)%string))).
  { intros out' <-. exists calls, instructions, history.
    split; [lia|]. split; [assumption|]. split; [assumption|].
    destruct Hround as [(Hno & -> & _)|(Hs & Hp & _ & prefixSummary & Hpre & ->)].
    - left. split; [assumption|reflexivity].
    - right. split; [assumption|]. split; [assumption|].
      exists prefixSummary. split; [assumption|reflexivity]. }
  destruct guard; cbn [negb];
    [|intro H; injection H as H; apply Hdone; assumption].
  destruct (ok (auditSummaryQuality (fst value ++ preserved) identifiers latestAsk)
            || (total - 1 <=? attempt)%Z);
    [intro H; injection H as H; apply Hdone; assumption|].
  destruct remaining as [|remaining'].
  - cbn [summarizeAttempts]. intro H. injection H as H. apply Hdone. assumption.
  - intro H. apply IH in H; [|lia|apply startsWith_app].
    destruct H as (n & used & history0 & Hn & Hrest).
    exists n, used, history0. split; [lia|exact Hrest].
Qed.

Lemma summarizeAttempts_answer_witness :
  let summarize (calls : nat) (_ : list AgentMessage) (_ _ : option string) :=
    match calls with
    | O => Ok sampleGoodSummary
    | _ => Ok "The turn began with a request."%string
    end in
  let messages := [userMessage "Please check the file"] in
  let prefix := [userMessage "Check the file, then report"] in
  let out :=
    ((sampleGoodSummary ++ nl ++ nl ++ "---" ++ nl ++ nl ++
      "**Turn Context (split turn):**" ++ nl ++ nl ++
      "The turn began with a request.") ++ "")%string in
  exists n used history,
    (0 <= n)%nat
    /\ startsWith used "Use these headings." = true
    /\ summarize n messages (Some used) None = Ok history
    /\ (((true = false \/ prefix = []) /\ out = (history ++ "")%string)
        \/ (true = true /\ prefix <> []
            /\ exists prefixSummary,
                 summarize (S n) prefix
                   (Some (TURN_PREFIX_INSTRUCTIONS ++ nl ++ nl ++ used)%string) None
                   = Ok prefixSummary
                 /\ out = ((history ++ nl ++ nl ++ "---" ++ nl ++ nl ++
                            "**Turn Context (split turn):**" ++ nl ++ nl ++
                            prefixSummary) ++ "")%string)).
Proof.
  intros summarize messages prefix out.
  apply (summarizeAttempts_answer summarize true messages prefix None ""
           "Use these headings." [] (Some "Please check the file"%string) true 2 2 0 0
           "Use these headings." "" out).
  - lia.
  - reflexivity.
  - vm_compute. reflexivity.
Defined.

(** ** Place and snippet of a merged result *)

Lemma lastVector_snoc (id : string) (vs : list HybridVectorResult) (r : HybridVectorResult) :
  lastVector id (vs ++ [r]) = if String.eqb (v_id r) id then Some r else lastVector id vs.
Proof. unfold lastVector. rewrite fold_left_app. reflexivity. Qed.

Lemma firstKeyword_snoc (id : string) (ks : list HybridKeywordResult)
    (r : HybridKeywordResult) :
  firstKeyword id (ks ++ [r]) =
  match firstKeyword id ks with
  | Some k => Some k
  | None => if String.eqb (k_id r) id then Some r else None
  end.
Proof.
  unfold firstKeyword. induction ks as [|k ks IH]; simpl; [reflexivity|].
  destruct (String.eqb (k_id k) id); [reflexivity|assumption].
Qed.

Lemma snippetOf_snoc (id : string) (ks : list HybridKeywordResult)
    (r : HybridKeywordResult) (initial : string) :
  snippetOf id (ks ++ [r]) initial =
  if String.eqb (k_id r) id && (0 <? String.length (k_snippet r))%nat
  then k_snippet r else snippetOf id ks initial.
Proof. unfold snippetOf. rewrite fold_left_app. reflexivity. Qed.

Lemma snippetOf_absent (id : string) (ks : list HybridKeywordResult) (initial : string) :
  firstKeyword id ks = None -> snippetOf id ks initial = initial.
Proof.
  unfold firstKeyword, snippetOf. revert initial.
  induction ks as [|k ks IH]; intros initial H; simpl in *; [reflexivity|].
  destruct (String.eqb (k_id k) id); [discriminate|]. simpl. apply IH. assumption.
Qed.

(** What the two loops of the merge have established for the map [m]. *)
Lemma mergeById_metadata (vs : list HybridVectorResult) (ks : list HybridKeywordResult) :
  forall id,
    match Map_get id (mergeById vs ks) with
    | Some e => metadataRecorded id vs ks e
    | None => lastVector id vs = None /\ firstKeyword id ks = None
    end.
Proof.
  unfold mergeById. induction ks as [|r ks IH] using rev_ind.
  - simpl. induction vs as [|r vs IH] using rev_ind; intro id.
    + simpl. split; reflexivity.
    + rewrite fold_left_app. simpl. unfold mergeVectorStep, metadataRecorded.
      rewrite lastVector_snoc. destruct (String.eqb (v_id r) id) eqn:E.
      * apply String.eqb_eq in E. subst id. rewrite Map_get_set_same.
        split; reflexivity.
      * apply String.eqb_neq in E. rewrite Map_get_set_other by congruence.
        apply IH.
  - intro id. rewrite fold_left_app. simpl.
    set (m := fold_left mergeKeywordStep ks (fold_left mergeVectorStep vs [])) in *.
    unfold mergeKeywordStep, metadataRecorded.
    rewrite firstKeyword_snoc.
    pose proof (IH (k_id r)) as Hr. pose proof (IH id) as Hid.
    unfold metadataRecorded in Hr, Hid.
    destruct (String.eqb (k_id r) id) eqn:E.
    + apply String.eqb_eq in E. subst id.
      destruct (Map_get (k_id r) m) as [existing|] eqn:G;
        rewrite Map_get_set_same.
      * destruct (lastVector (k_id r) vs) as [v|].
        -- destruct Hr as [Hplace Hsnip]. split; [exact Hplace|]. cbn [e_snippet].
           rewrite snippetOf_snoc, String.eqb_refl, Hsnip. reflexivity.
        -- destruct (firstKeyword (k_id r) ks) as [k|]; [|destruct Hr].
           destruct Hr as [Hplace Hsnip]. split; [exact Hplace|]. cbn [e_snippet].
           rewrite snippetOf_snoc, String.eqb_refl, Hsnip. reflexivity.
      * destruct Hr as [Hv Hk]. rewrite Hv, Hk.
        split; [reflexivity|]. cbn [e_snippet].
        rewrite snippetOf_snoc, String.eqb_refl, snippetOf_absent by assumption.
        destruct (0 <? String.length (k_snippet r))%nat; reflexivity.
    + assert (Hget : Map_get id
                       match Map_get (k_id r) m with
                       | Some existing =>
                           Map_set (k_id r)
                             {| e_id := e_id existing; e_path := e_path existing;
                                e_startLine := e_startLine existing;
                                e_endLine := e_endLine existing;
                                e_source := e_source existing;
                                e_snippet :=
                                  if (0 <? String.length (k_snippet r))%nat
                                  then k_snippet r else e_snippet existing;
                                e_vectorScore := e_vectorScore existing;
                                e_textScore := textScore r |} m
                       | None =>
                           Map_set (k_id r)
                             {| e_id := k_id r; e_path := k_path r;
                                e_startLine := k_startLine r; e_endLine := k_endLine r;
                                e_source := k_source r; e_snippet := k_snippet r;
                                e_vectorScore := 0; e_textScore := textScore r |} m
                       end = Map_get id m).
      { apply String.eqb_neq in E.
        destruct (Map_get (k_id r) m); apply Map_get_set_other; congruence. }
      rewrite Hget. destruct (Map_get id m) as [e|].
      * destruct (lastVector id vs) as [v|].
        -- rewrite snippetOf_snoc, E. exact Hid.
        -- destruct (firstKeyword id ks) as [k|]; [|destruct Hid].
           rewrite snippetOf_snoc, E. exact Hid.
      * destruct Hid as [Hv Hk]. rewrite Hk. split; [assumption|reflexivity].
Qed.

(** X27.  Every merged result has the path, the lines and the source of the
    last vector result with its id, or of the first keyword result with it
    when no vector result has the id.  Its snippet is the one of the last
    keyword result with the id whose snippet is not empty, and otherwise the
    snippet of that vector or keyword result. *)
Theorem mergeHybridResults_metadata
    (vector : list HybridVectorResult) (keyword : list HybridKeywordResult)
    (vectorWeight textWeight : Q) (dynamicThreshold : option bool) (r : HybridResult) :
  In r (mergeHybridResults
          (mergeParams vector keyword vectorWeight textWeight dynamicThreshold)) ->
  exists e,
    In e (Map_values (mergeById vector keyword))
    /\ r = mergedResult vectorWeight textWeight e
    /\ (path r, startLine r, endLine r, source r) = entryPlace e
    /\ snippet r = e_snippet e
    /\ metadataRecorded (e_id e) vector keyword e.
Proof.
  intro Hr. destruct (mergeHybridResults_In _ _ _ _ _ _ Hr) as (e & He & ->).
  exists e. split; [assumption|]. split; [reflexivity|].
  split; [reflexivity|]. split; [reflexivity|].
  unfold Map_values in He. apply in_map_iff in He. destruct He as ([k e'] & <- & Hin).
  cbn [snd]. rewrite (mergeById_keyed vector keyword k e' Hin).
  assert (Hnd : NoDup (Map_keys (mergeById vector keyword))).
  { rewrite mergeById_keys. apply firstOccurrences_NoDup. }
  pose proof (mergeById_metadata vector keyword k) as H.
  rewrite (Map_In_get k e' _ Hnd Hin) in H. exact H.
Qed.

Lemma mergeHybridResults_metadata_witness :
  exists r e,
    In r (mergeHybridResults
            (mergeParams [makeVectorResult "a" 0.9; makeVectorResult "b" 0.4]
                         [makeKeywordResult "a" 0.8] 0.7 0.3 None))
    /\ r = mergedResult 0.7 0.3 e
    /\ snippet r = e_snippet e
    /\ metadataRecorded (e_id e)
         [makeVectorResult "a" 0.9; makeVectorResult "b" 0.4]
         [makeKeywordResult "a" 0.8] e.
Proof.
  remember (mergeHybridResults
              (mergeParams [makeVectorResult "a" 0.9; makeVectorResult "b" 0.4]
                           [makeKeywordResult "a" 0.8] 0.7 0.3 None)) as out eqn:E.
  destruct out as [|r rest]; [vm_compute in E; discriminate E|].
  assert (Hin : In r (mergeHybridResults
                        (mergeParams [makeVectorResult "a" 0.9; makeVectorResult "b" 0.4]
                                     [makeKeywordResult "a" 0.8] 0.7 0.3 None)))
    by (rewrite <- E; left; reflexivity).
  destruct (mergeHybridResults_metadata _ _ _ _ _ r Hin) as (e & _ & H1 & _ & H2 & H3).
  exists r, e. split; [left; reflexivity|]. repeat split; assumption.
Defined.

(** ** One line per tool failure *)

Lemma collapseSpaces_singleSpaced (s : string) (inRun : bool) :
  singleSpaced (collapseSpaces s inRun) inRun = true.
Proof.
  revert inRun. induction s as [|c s IH]; intro inRun; [reflexivity|].
  simpl. destruct (isSpace c) eqn:Hc.
  - destruct inRun; [apply IH|].
    simpl. rewrite IH. reflexivity.
  - simpl. rewrite Hc. apply IH.
Qed.

Lemma singleSpaced_weaken (s : string) (afterSpace : bool) :
  singleSpaced s afterSpace = true -> singleSpaced s false = true.
Proof.
  destruct afterSpace; [|trivial].
  destruct s as [|c s]; simpl; [trivial|].
  destruct (isSpace c); [discriminate|trivial].
Qed.

Lemma dropWhile_singleSpaced (p : ascii -> bool) (s : string) (afterSpace : bool) :
  singleSpaced s afterSpace = true -> singleSpaced (dropWhile p s) false = true.
Proof.
  revert afterSpace. induction s as [|c s IH]; intros afterSpace H; [reflexivity|].
  simpl dropWhile. destruct (p c).
  - simpl in H. destruct (isSpace c).
    + apply andb_true_iff in H. destruct H as [_ H]. apply (IH true H).
    + apply (IH false H).
  - apply (singleSpaced_weaken _ afterSpace). assumption.
Qed.

Lemma dropWhileEnd_singleSpaced (p : ascii -> bool) (s : string) (afterSpace : bool) :
  singleSpaced s afterSpace = true -> singleSpaced (dropWhileEnd p s) afterSpace = true.
Proof.
  revert afterSpace. induction s as [|c s IH]; intros afterSpace H; [reflexivity|].
  simpl dropWhileEnd. simpl in H.
  destruct (dropWhileEnd p s) as [|d kept] eqn:E.
  - destruct (p c); [reflexivity|]. simpl.
    destruct (isSpace c); [|reflexivity].
    apply andb_true_iff in H. destruct H as [H _]. rewrite H. reflexivity.
  - cbn [singleSpaced]. destruct (isSpace c).
    + apply andb_true_iff in H. destruct H as [H1 H2]. rewrite H1. apply (IH true H2).
    + apply (IH false H).
Qed.

Lemma sliceString_singleSpaced (n : nat) (s : string) (afterSpace : bool) :
  singleSpaced s afterSpace = true ->
  singleSpaced (sliceString n s ++ "...") afterSpace = true.
Proof.
  revert s afterSpace. induction n as [|n IH]; intros s afterSpace H.
  - destruct s; destruct afterSpace; reflexivity.
  - destruct s as [|c s]; [destruct afterSpace; reflexivity|].
    simpl in H. simpl sliceString.
    change (String c (sliceString n s) ++ "...")%string
      with (String c (sliceString n s ++ "...")).
    cbn [singleSpaced]. destruct (isSpace c).
    + apply andb_true_iff in H. destruct H as [H1 H2]. rewrite H1. apply (IH s true H2).
    + apply (IH s false H).
Qed.

Lemma normalizeFailureText_singleSpaced (text : string) :
  singleSpaced (normalizeFailureText text) false = true.
Proof.
  unfold normalizeFailureText, trim.
  apply dropWhileEnd_singleSpaced.
  apply (dropWhile_singleSpaced _ _ false). apply collapseSpaces_singleSpaced.
Qed.

Lemma truncateFailureText_singleSpaced (text : string) (maxChars : nat) :
  singleSpaced text false = true ->
  singleSpaced (truncateFailureText text maxChars) false = true.
Proof.
  intro H. unfold truncateFailureText.
  destruct (String.length text <=? maxChars)%nat; [assumption|].
  apply sliceString_singleSpaced. assumption.
Qed.

Lemma singleSpaced_chars (s : string) (afterSpace : bool) (c : ascii) :
  singleSpaced s afterSpace = true ->
  In c (list_ascii_of_string s) -> isSpace c = true -> c = " "%char.
Proof.
  revert afterSpace. induction s as [|d s IH]; intros afterSpace H Hin Hc; [destruct Hin|].
  simpl in H, Hin. destruct Hin as [->|Hin].
  - rewrite Hc in H. apply andb_true_iff in H. destruct H as [H _].
    apply andb_true_iff in H. destruct H as [_ H]. apply Ascii.eqb_eq in H. assumption.
  - destruct (isSpace d).
    + apply andb_true_iff in H. destruct H as [_ H]. apply (IH true H Hin Hc).
    + apply (IH false H Hin Hc).
Qed.

Lemma collectToolFailures_singleSpaced (messages : list AgentMessage) :
  Forall (fun f => singleSpaced (f_summary f) false = true)
         (collectToolFailures messages).
Proof.
  unfold collectToolFailures.
  induction messages as [|message done IH] using rev_ind; [constructor|].
  rewrite fold_left_app. simpl.
  destruct (fold_left collectToolFailureStep done ([], [])) as [failures seen].
  simpl in IH. unfold collectToolFailureStep.
  destruct (negb (String.eqb (role message) "toolResult")); [assumption|].
  destruct (negb (isError message)); [assumption|].
  destruct (isEmptyString _ || Set_has _ seen); [assumption|].
  cbn [fst]. apply Forall_app. split; [assumption|].
  constructor; [|constructor]. cbn [f_summary].
  apply truncateFailureText_singleSpaced.
  destruct (isEmptyString (normalizeFailureText (extractToolResultText (content message)))).
  - destruct (formatToolFailureMeta (details message)); reflexivity.
  - apply normalizeFailureText_singleSpaced.
Qed.

(** X28.  A normalized failure text has no white space at its ends, and its
    only white-space characters are single spaces.  So the summary of every
    collected tool failure stands on one line: it holds no line feed, tab or
    other white space than single spaces. *)
Theorem toolFailure_summary_single_line :
  (forall text,
     let out := normalizeFailureText text in
     singleSpaced out false = true /\ trim out = out)
  /\ (forall messages f, In f (collectToolFailures messages) ->
        singleSpaced (f_summary f) false = true
        /\ (forall c, In c (list_ascii_of_string (f_summary f)) ->
                      isSpace c = true -> c = " "%char)).
Proof.
  split.
  - intros text out. split; [apply normalizeFailureText_singleSpaced|].
    apply trim_idempotent.
  - intros messages f Hin.
    pose proof (collectToolFailures_singleSpaced messages) as H.
    rewrite Forall_forall in H. specialize (H f Hin).
    split; [assumption|]. intros c. apply (singleSpaced_chars _ false). assumption.
Qed.

(** ** The pruning step *)

Section PruneStep.

Variables Model SessionManager AbortSignal : Type.
Variable env : Collaborators Model SessionManager AbortSignal.

(** X29.  The pruning step throws only an error of the token estimate or of
    the pruning itself: an error while the dropped messages are summarized is
    absorbed, and the step goes on without their summary.  When it returns,
    the messages are those of the request or those the pruning kept, after it
    dropped at least one chunk; the model was called at most once, and
    exactly once when there is a summary of the dropped messages. *)
Theorem pruneStep_outcome (request : CompactionRequest)
    (customInstructions : option string) (signal : AbortSignal) (model : Model)
    (apiKey : string) (contextWindowTokens maxHistoryShare : Q)
    (turnPrefixMessages : list AgentMessage) :
  match pruneStep env request customInstructions signal model apiKey
          contextWindowTokens maxHistoryShare turnPrefixMessages with
  | Ok (messages, droppedSummary, calls) =>
      (messages = messagesToSummarize request
       \/ exists pruned,
            pruneHistoryForContextShare env (messagesToSummarize request)
              contextWindowTokens maxHistoryShare 2 = Ok pruned
            /\ (0 < droppedChunks pruned)%Z
            /\ messages = pr_messages pruned)
      /\ (calls <= 1)%nat
      /\ (droppedSummary <> None -> calls = 1%nat)
      /\ (tokensBefore request = None ->
          messages = messagesToSummarize request /\ droppedSummary = None
          /\ calls = 0%nat)
  | Thrown error =>
      estimateMessagesTokens env (messagesToSummarize request) = Thrown error
      \/ estimateMessagesTokens env turnPrefixMessages = Thrown error
      \/ pruneHistoryForContextShare env (messagesToSummarize request)
           contextWindowTokens maxHistoryShare 2 = Thrown error
  end.
Proof.
  assert (Hsame : forall (calls : nat),
            (calls <= 1)%nat ->
            (tokensBefore request = None -> calls = 0%nat) ->
            (messagesToSummarize request = messagesToSummarize request
             \/ exists pruned,
                  pruneHistoryForContextShare env (messagesToSummarize request)
                    contextWindowTokens maxHistoryShare 2 = Ok pruned
                  /\ (0 < droppedChunks pruned)%Z
                  /\ messagesToSummarize request = pr_messages pruned)
            /\ (calls <= 1)%nat
            /\ (@None string <> None -> calls = 1%nat)
            /\ (tokensBefore request = None ->
                messagesToSummarize request = messagesToSummarize request
                /\ @None string = None /\ calls = 0%nat)).
  { intros calls Hle Hnone. split; [left; reflexivity|]. split; [assumption|].
    split; [intro H; destruct H; reflexivity|].
    intro H. repeat split. apply Hnone. assumption. }
  unfold pruneStep. cbv zeta.
  destruct (tokensBefore request) as [before|] eqn:Hbefore;
    [|apply Hsame; [lia|reflexivity]].
  destruct (estimateMessagesTokens env (messagesToSummarize request)) as [historyTokens|e];
    cbn [bind]; [|left; reflexivity].
  destruct (estimateMessagesTokens env turnPrefixMessages) as [prefixTokens|e];
    cbn [bind]; [|right; left; reflexivity].
  destruct (_ <? _)%Z; [|apply Hsame; [lia|discriminate]].
  destruct (pruneHistoryForContextShare env (messagesToSummarize request)
              contextWindowTokens maxHistoryShare 2) as [pruned|e] eqn:Hprune;
    cbn [bind]; [|right; right; reflexivity].
  destruct (0 <? droppedChunks pruned)%Z eqn:Hdropped;
    [|apply Hsame; [lia|discriminate]].
  apply Z.ltb_lt in Hdropped.
  assert (Hpruned : forall (dropped : option string) (calls : nat),
            (calls <= 1)%nat -> (dropped <> None -> calls = 1%nat) ->
            (pr_messages pruned = messagesToSummarize request
             \/ exists pruned0,
                  Ok pruned = Ok pruned0
                  /\ (0 < droppedChunks pruned0)%Z
                  /\ pr_messages pruned = pr_messages pruned0)
            /\ (calls <= 1)%nat
            /\ (dropped <> None -> calls = 1%nat)
            /\ (Some before = None ->
                pr_messages pruned = messagesToSummarize request
                /\ dropped = None /\ calls = 0%nat)).
  { intros dropped calls Hle Hone. split.
    - right. exists pruned. repeat split; assumption.
    - split; [assumption|]. split; [assumption|discriminate]. }
  destruct (0 <? List.length (droppedMessagesList pruned))%nat;
    [|apply Hpruned; [lia|intro H; destruct H; reflexivity]].
  destruct (computeAdaptiveChunkRatio env (droppedMessagesList pruned) contextWindowTokens)
    as [ratio|e];
    [|apply Hpruned; [lia|intro H; destruct H; reflexivity]].
  destruct (summarizeInStages env 0 _) as [droppedSummary|e];
    apply Hpruned; try lia; intros _; reflexivity.
Qed.

End PruneStep.
